(** * VRC-Circle: the reactive resource-cache layer

    A shallow embedding of the in-memory stores of the front end
    (src/stores): the singleton registry, the account scope, the generic
    resource store with its per-scope cache and in-flight fetch slot, the
    friends sub-cache of the user store, the developer-mode store, the
    alert store and the subscription of the status store; then the logger
    (utils/logger), the fetch and the toggle of the developer-mode store,
    the user store wired to the account scope ([UserStore.set],
    [UserStore.load]) and the accounts store.

    Conventions of the embedding.
    - Mutable objects are threaded explicitly: an operation takes the store
      and returns the store after the call.
    - [Date.now()] is an argument [now : Z] (milliseconds).
    - A listener is an opaque callback, named by a number; what a callback
      does when it is called with a value (return, or throw an error) is the
      parameter [behaviour].  Every invocation is recorded in [calls].
    - The promise of a fetch is named by the index of the [load()]
      invocation it was built on; its settlement is an event of the
      environment ([resolve_load], [reject_load]).  [ensure] and
      [ensureFriends] are [async]: the body returns a value or the promise
      of a fetch, and the caller is handed a promise object of its own,
      resolved with it ([ensure_async], [ensureFriends_async]).
    - The index of the alert carousel is a JavaScript number: an integer,
      an integer plus one half, or [NaN] ([AlertStore.Num]); its decimal
      text is the parameter [to_string].
    - The singleton registry is a plain object: a key reads the own
      property, else the member inherited from [Object.prototype].
    - [logger.debug] and [logger.info] diagnostics are not part of the
      state; the [logger.error] / [console.error] / [logger.warn] entries
      written on a failure are ([errlog]).  [console.error] is the method
      of the platform, except in [AccountScope.Intercepted], where it is
      the interceptor installed by utils/logger.
    - A callback does not call back into the store that is notifying it.
    - Left out: the stack-trace parsing of the logger, [debugScopes]
      (locale string comparison), and the polling of the status store. *)

From Stdlib Require Import ZArith Lia List Bool.
From stdpp Require Import base option gmap strings list pretty.

Open Scope string_scope.
Open Scope list_scope.
Open Scope Z_scope.

(** ** Shared vocabulary *)

Abbreviation Err := string.
Abbreviation Listener := nat.
Abbreviation PromiseId := nat.

(** [string | null]: the tenant identifier. *)
Abbreviation ScopeId := (option string).

(** How a callee finishes: it returns a value or throws. *)
Inductive Completion (A : Type) : Type :=
| Normal (a : A)
| Throw (e : Err).
Arguments Normal {A} a.
Arguments Throw {A} e.

(** An optional property [scopeId?: string | null] of an options object:
    missing, explicitly [undefined], [null] or a string. *)
Inductive ScopeArg : Type :=
| ScopeAbsent
| ScopeUndefined
| ScopeNull
| ScopeStr (id : string).

(** [options.scopeId ?? fallback] *)
Definition nullish (a : ScopeArg) (fallback : ScopeId) : ScopeId :=
  match a with
  | ScopeStr id => Some id
  | _ => fallback
  end.

(** The object literal [{ scopeId }] built from a [string | null]. *)
Definition scope_arg (scopeId : ScopeId) : ScopeArg :=
  match scopeId with
  | Some id => ScopeStr id
  | None => ScopeNull
  end.

(** [Object.prototype.hasOwnProperty.call(options, 'scopeId')] *)
Definition hasOwnScope (a : ScopeArg) : bool :=
  match a with
  | ScopeAbsent => false
  | _ => true
  end.

(** ** Listener sets and notification

    A JavaScript [Set] of callbacks keeps insertion order and holds a
    callback once. *)

Section Notify.
Context {V : Type}.
Variable behaviour : Listener -> V -> option Err.

Record Bus : Type := mkBus {
  listeners : list Listener;
  calls : list (Listener * V);
  errlog : list (string * Err)
}.

Definition empty_bus : Bus := mkBus [] [] [].

(** [listeners.add(listener)] *)
Definition add_listener (l : Listener) (b : Bus) : Bus :=
  if decide (l ∈ listeners b) then b
  else mkBus (listeners b ++ [l]) (calls b) (errlog b).

(** [listeners.delete(listener)] *)
Definition delete_listener (l : Listener) (b : Bus) : Bus :=
  mkBus (filter (λ l', l' ≠ l) (listeners b)) (calls b) (errlog b).

(** [listener(value)] *)
Definition call (l : Listener) (v : V) (b : Bus) : Completion unit * Bus :=
  let b' := mkBus (listeners b) (calls b ++ [(l, v)]) (errlog b) in
  match behaviour l v with
  | None => (Normal tt, b')
  | Some e => (Throw e, b')
  end.

Definition log_error (msg : string) (e : Err) (b : Bus) : Bus :=
  mkBus (listeners b) (calls b) (errlog b ++ [(msg, e)]).

(** [try { listener(value) } catch (error) { log(msg, error) }] *)
Definition call_guarded (msg : string) (v : V) (b : Bus) (l : Listener) : Bus :=
  match call l v b with
  | (Normal _, b') => b'
  | (Throw e, b') => log_error msg e b'
  end.

(** [for (const listener of listeners) { try ... catch ... }] *)
Definition notify (msg : string) (v : V) (b : Bus) : Bus :=
  fold_left (call_guarded msg v) (listeners b) b.

(** The log entries a round of notification writes: one per callback that
    throws, in calling order. *)
Definition caught (msg : string) (v : V) (ls : list Listener) : list (string * Err) :=
  omap (λ l, match behaviour l v with Some e => Some (msg, e) | None => None end) ls.

(** The body shared by every [subscribe]: add, replay, hand out the
    disposer.  The replay is not guarded: a throwing callback makes
    [subscribe] throw. *)
Definition subscribe_bus (l : Listener) (v : V) (b : Bus) : Completion Listener * Bus :=
  match call l v (add_listener l b) with
  | (Normal _, b') => (Normal l, b')
  | (Throw e, b') => (Throw e, b')
  end.
End Notify.

Arguments Bus V : clear implicits.
Arguments empty_bus {V}.

(** ** Account scope (account-scope.ts) *)

Module AccountScope.
Section Scope.
Variable behaviour : Listener -> ScopeId -> option Err.

(** The module-level variables [currentAccountId] and [listeners]. *)
Record State : Type := mkState {
  currentAccountId : ScopeId;
  bus : Bus ScopeId
}.

Definition init : State := mkState None empty_bus.

Definition getActiveAccountId (s : State) : ScopeId := currentAccountId s.

Definition setActiveAccountId (accountId : ScopeId) (s : State) : State :=
  if decide (currentAccountId s = accountId) then s
  else
    mkState accountId
      (notify behaviour "Account scope listener error" accountId (bus s)).

Definition subscribeActiveAccount (listener : Listener) (s : State)
  : Completion Listener * State :=
  let '(r, b) := subscribe_bus behaviour listener (currentAccountId s) (bus s) in
  (r, mkState (currentAccountId s) b).

(** Running the disposer returned by [subscribeActiveAccount]. *)
Definition dispose (d : Listener) (s : State) : State :=
  mkState (currentAccountId s) (delete_listener d (bus s)).
End Scope.

(** *** With the console of utils/logger

    [setActiveAccountId] above has the [console.error] of the platform in
    its [catch] block, which returns.  Loading utils/logger replaces
    [console.error] by an interceptor that calls the original method and
    then turns every argument into text, an object through
    [JSON.stringify], with no guard of its own.  [unprintable e] says that
    [JSON.stringify] throws on the thrown value [e] (an object with a
    cycle, or one that holds a BigInt); the exception then leaves the
    [catch] block and the loop.  The entry the interceptor adds to the
    logger is not part of this state. *)
Module Intercepted.
Section Scope.
Variable unprintable : Err -> bool.
Variable behaviour : Listener -> ScopeId -> option Err.

(** [console.error(msg, e)] through the interceptor: the original method
    prints, then the arguments are turned into text. *)
Definition console_error (msg : string) (e : Err) (b : Bus ScopeId)
  : Completion unit * Bus ScopeId :=
  let b1 := log_error msg e b in
  if unprintable e then (Throw "TypeError", b1) else (Normal tt, b1).

(** [for (const listener of listeners) { try { listener(accountId) }
    catch (error) { console.error(...) } }] *)
Fixpoint notify_all (ls : list Listener) (accountId : ScopeId) (b : Bus ScopeId)
  : Completion unit * Bus ScopeId :=
  match ls with
  | [] => (Normal tt, b)
  | l :: rest =>
      match call behaviour l accountId b with
      | (Normal _, b1) => notify_all rest accountId b1
      | (Throw e, b1) =>
          match console_error "Account scope listener error" e b1 with
          | (Normal _, b2) => notify_all rest accountId b2
          | (Throw t, b2) => (Throw t, b2)
          end
      end
  end.

Definition setActiveAccountId (accountId : ScopeId) (s : State)
  : Completion unit * State :=
  if decide (currentAccountId s = accountId) then (Normal tt, s)
  else
    let '(r, b) := notify_all (listeners (bus s)) accountId (bus s) in
    (r, mkState accountId b).

(** The sentence of the specification on a change of the account: the
    call completes, every listener has been called with the new id, and
    the id is stored. *)
Definition notification_isolated (accountId : ScopeId) (s : State) : Prop :=
  let '(r, s') := setActiveAccountId accountId s in
  r = Normal tt ∧
  calls (bus s') = calls (bus s) ++ map (λ l, (l, accountId)) (listeners (bus s)) ∧
  currentAccountId s' = accountId.
End Scope.
End Intercepted.
End AccountScope.

(** ** Generic resource store (resource-store.ts) *)

Definition DEFAULT_SCOPE_KEY : string := "__no_active_account__".

Definition scopeKey (scopeId : ScopeId) : string :=
  default DEFAULT_SCOPE_KEY scopeId.

Module ResourceStore.

Record EnsureOptions : Type := mkEnsureOptions {
  force : option bool;
  ensure_scopeId : ScopeArg
}.

Record SetOptions : Type := mkSetOptions {
  stale : option bool;
  set_scopeId : ScopeArg
}.

(** [{}], the default argument of [ensure] and [set]. *)
Definition no_ensure_options : EnsureOptions := mkEnsureOptions None ScopeAbsent.
Definition no_set_options : SetOptions := mkSetOptions None ScopeAbsent.

Section Store.
Context {T : Type}.
(** JavaScript truthiness of a payload ([state.cache && ...]). *)
Variable truthy : T -> bool.
Variable behaviour : Listener -> option T -> option Err.

Record StoreState : Type := mkState {
  cache : option T;
  inflight : option PromiseId;
  updatedAt : Z
}.

Inductive Outcome : Type :=
| Resolved (v : T)
| Rejected (e : Err).

(** One invocation of [load(scopeId)] and, once known, how the promise
    [load(...).then(...).finally(...)] built on it settled. *)
Record Load : Type := mkLoad {
  load_scope : ScopeId;
  load_outcome : option Outcome
}.

Record Store : Type := mkStore {
  bus : Bus (option T);
  states : gmap string StoreState;
  activeAccountId : ScopeId;
  staleTime : Z;
  loads : list Load
}.

(** What the body of the [async] function [ensure] returns: a cached
    value, or the in-flight promise (whose settlement the promise of the
    [async] call adopts). *)
Inductive EnsureResult : Type :=
| Value (v : T)
| Pending (p : PromiseId).

Definition with_bus (b : Bus (option T)) (s : Store) : Store :=
  mkStore b (states s) (activeAccountId s) (staleTime s) (loads s).

Definition with_states (m : gmap string StoreState) (s : Store) : Store :=
  mkStore (bus s) m (activeAccountId s) (staleTime s) (loads s).

Definition with_loads (ls : list Load) (s : Store) : Store :=
  mkStore (bus s) (states s) (activeAccountId s) (staleTime s) ls.

Definition is_truthy (c : option T) : bool :=
  match c with
  | Some v => truthy v
  | None => false
  end.

Definition getState (scopeId : ScopeId) (s : Store) : StoreState * Store :=
  let key := scopeKey scopeId in
  match states s !! key with
  | Some existing => (existing, s)
  | None =>
      let fresh := mkState None None 0 in
      (fresh, with_states (<[key := fresh]> (states s)) s)
  end.

(** Assignments to the fields of the object returned by [getState]. *)
Definition modify (scopeId : ScopeId) (f : StoreState -> StoreState) (s : Store) : Store :=
  with_states (alter f (scopeKey scopeId) (states s)) s.

(** [getSnapshot(scopeId = this.activeAccountId)]; [None] is the omitted
    argument. *)
Definition getSnapshot (arg : option ScopeId) (s : Store) : option T * Store :=
  let scopeId := default (activeAccountId s) arg in
  let '(state, s1) := getState scopeId s in
  (cache state, s1).

Definition getCurrentScopeId (s : Store) : ScopeId := activeAccountId s.

Definition isStale (s : Store) (state : StoreState) (now : Z) : bool :=
  if negb (is_truthy (cache state)) then true
  else now - updatedAt state >? staleTime s.

Definition emit (value : option T) (s : Store) : Store :=
  with_bus (notify behaviour "ResourceStore listener error" value (bus s)) s.

(** The replay is not guarded: a throwing callback makes [subscribe]
    throw. *)
Definition subscribe (listener : Listener) (s : Store) : Completion Listener * Store :=
  let s1 := with_bus (add_listener listener (bus s)) s in
  let '(snapshot, s2) := getSnapshot None s1 in
  match call behaviour listener snapshot (bus s2) with
  | (Normal _, b) => (Normal listener, with_bus b s2)
  | (Throw e, b) => (Throw e, with_bus b s2)
  end.

(** Running the disposer returned by [subscribe]. *)
Definition dispose (d : Listener) (s : Store) : Store :=
  with_bus (delete_listener d (bus s)) s.

(** The callback the constructor hands to [subscribeActiveAccount]. *)
Definition onActiveAccount (accountId : ScopeId) (s : Store) : Store :=
  let s1 := mkStore (bus s) (states s) accountId (staleTime s) (loads s) in
  let '(snapshot, s2) := getSnapshot None s1 in
  emit snapshot s2.

(** [new ResourceStore(options)] while the account scope holds
    [accountId]: the field initialisers, then the replay of the
    constructor's subscription to the account scope. *)
Definition create (stale_time : option Z) (accountId : ScopeId) : Store :=
  onActiveAccount accountId
    (mkStore empty_bus ∅ accountId (default 60000 stale_time) []).

Definition set (value : option T) (options : SetOptions) (now : Z) (s : Store) : Store :=
  let scopeId := nullish (set_scopeId options) (activeAccountId s) in
  let '(_, s1) := getState scopeId s in
  let stamp :=
    if is_truthy value && negb (default false (stale options)) then now else 0 in
  let s2 := modify scopeId (λ st, mkState value (inflight st) stamp) s1 in
  if decide (scopeId = activeAccountId s) then emit value s2 else s2.

(** [clear] never reads the clock: the value it writes is [null]. *)
Definition clear (scopeArg : ScopeArg) (s : Store) : Store :=
  let scopeId := nullish scopeArg (activeAccountId s) in
  set None (mkSetOptions None (scope_arg scopeId)) 0 s.

Definition markStale (scopeArg : ScopeArg) (s : Store) : Store :=
  let scopeId := nullish scopeArg (activeAccountId s) in
  let '(state, s1) := getState scopeId s in
  if is_truthy (cache state)
  then modify scopeId (λ st, mkState (cache st) (inflight st) 0) s1
  else s1.

(** The first test of [ensure]: the cached value when it may be served. *)
Definition served (frc : bool) (s : Store) (state : StoreState) (now : Z) : option T :=
  match cache state with
  | Some v =>
      if negb frc && truthy v && negb (isStale s state now) then Some v else None
  | None => None
  end.

(** The body of [ensure]: what its [return] statements yield, a cached
    value or the promise of a fetch, and the store it leaves. *)
Definition ensure (options : EnsureOptions) (now : Z) (s : Store) : EnsureResult * Store :=
  let hasExplicitScope := hasOwnScope (ensure_scopeId options) in
  let targetScopeId :=
    if hasExplicitScope then nullish (ensure_scopeId options) None
    else activeAccountId s in
  let '(state, s1) := getState targetScopeId s in
  let frc := default false (force options) in
  match served frc s1 state now with
  | Some v => (Value v, s1)
  | None =>
      match inflight state with
      | Some p => (Pending p, s1)
      | None =>
          let p := length (loads s1) in
          let s2 := with_loads (loads s1 ++ [mkLoad targetScopeId None]) s1 in
          (Pending p,
           modify targetScopeId (λ st, mkState (cache st) (Some p) (updatedAt st)) s2)
      end
  end.

Definition refresh (now : Z) (s : Store) : EnsureResult * Store :=
  ensure (mkEnsureOptions (Some true) ScopeAbsent) now s.

(** [ensure] is an [async] function: every call returns a promise object
    of its own, resolved with what the body returned (a value, or the
    in-flight promise, whose settlement it then takes over).  [promise]
    is the identity of the object handed to the caller, the number of
    promise objects [ensure] has handed out before. *)
Record Returned : Type := mkReturned {
  promise : nat;
  resolved_with : EnsureResult
}.

Definition ensure_async (options : EnsureOptions) (now : Z) (made : nat) (s : Store)
  : Returned * (nat * Store) :=
  let '(r, s1) := ensure options now s in
  (mkReturned made r, (S made, s1)).

(** The scope an [ensure] call works on. *)
Definition ensure_target (options : EnsureOptions) (s : Store) : ScopeId :=
  if hasOwnScope (ensure_scopeId options) then nullish (ensure_scopeId options) None
  else activeAccountId s.

Definition settle (p : PromiseId) (o : Outcome) (s : Store) : Store :=
  match loads s !! p with
  | Some ld => with_loads (<[p := mkLoad (load_scope ld) (Some o)]> (loads s)) s
  | None => s
  end.

(** [load] fulfils with [value] at time [now]: the [then] callback writes
    the value with [set(value, { scopeId: targetScopeId })], the [finally]
    callback empties the slot of the entry captured by [ensure] (entries
    are never replaced in the map, so this is the entry under the key of
    [targetScopeId]).  The two callbacks run back to back.  Fails when [p]
    is not an outstanding fetch. *)
Definition resolve_load (p : PromiseId) (value : T) (now : Z) (s : Store) : option Store :=
  match loads s !! p with
  | Some (mkLoad targetScopeId None) =>
      let s1 := set (Some value) (mkSetOptions None (scope_arg targetScopeId)) now s in
      let s2 := modify targetScopeId (λ st, mkState (cache st) None (updatedAt st)) s1 in
      Some (settle p (Resolved value) s2)
  | _ => None
  end.

(** [load] rejects with [e]: the [then] callback is skipped, the
    [finally] callback runs. *)
Definition reject_load (p : PromiseId) (e : Err) (s : Store) : option Store :=
  match loads s !! p with
  | Some (mkLoad targetScopeId None) =>
      let s1 := modify targetScopeId (λ st, mkState (cache st) None (updatedAt st)) s in
      Some (settle p (Rejected e) s1)
  | _ => None
  end.

(** What a caller holding [r] observes once the event loop has run. *)
Definition outcome_of (s : Store) (r : EnsureResult) : option Outcome :=
  match r with
  | Value v => Some (Resolved v)
  | Pending p =>
      match loads s !! p with
      | Some ld => load_outcome ld
      | None => None
      end
  end.

(** The entry [getState] would hand out, without creating it. *)
Definition entry (s : Store) (scopeId : ScopeId) : StoreState :=
  default (mkState None None 0) (states s !! scopeKey scopeId).
End Store.
End ResourceStore.

(** ** Friends sub-cache of the user store (user-store.ts) *)

Definition FRIEND_SCOPE_DEFAULT : string := "__no_active_account__".

Definition friendsScopeKey (scopeId : ScopeId) : string :=
  default FRIEND_SCOPE_DEFAULT scopeId.

Module UserStore.
Section Friends.
(** [LimitedUserFriend]; the cached resource is an array of them, and an
    array is truthy. *)
Context {Friend : Type}.
Variable behaviour : Listener -> option (list Friend) -> option Err.

Record FriendsState : Type := mkFriendsState {
  cache : option (list Friend);
  inflight : option PromiseId;
  updatedAt : Z
}.

Inductive Outcome : Type :=
| Resolved (v : list Friend)
| Rejected (e : Err).

(** One call of [VRChatService.getOnlineFriends()], the scope it was
    made for, and how the promise built on it settled. *)
Record Fetch : Type := mkFetch {
  fetch_scope : ScopeId;
  fetch_outcome : option Outcome
}.

(** The friends part of the user store; [currentScopeId] is what
    [this.getCurrentScopeId()] returns. *)
Record Friends : Type := mkFriends {
  friendListeners : Bus (option (list Friend));
  friendStates : gmap string FriendsState;
  currentScopeId : ScopeId;
  fetches : list Fetch
}.

Inductive EnsureResult : Type :=
| Value (v : list Friend)
| Pending (p : PromiseId).

Definition friendsStaleTime : Z := 30000.

Definition with_listeners (b : Bus (option (list Friend))) (s : Friends) : Friends :=
  mkFriends b (friendStates s) (currentScopeId s) (fetches s).

Definition with_states (m : gmap string FriendsState) (s : Friends) : Friends :=
  mkFriends (friendListeners s) m (currentScopeId s) (fetches s).

Definition with_fetches (fs : list Fetch) (s : Friends) : Friends :=
  mkFriends (friendListeners s) (friendStates s) (currentScopeId s) fs.

Definition getFriendsSnapshot (arg : option ScopeId) (s : Friends) : option (list Friend) :=
  let scopeId := default (currentScopeId s) arg in
  match friendStates s !! friendsScopeKey scopeId with
  | Some state => cache state
  | None => None
  end.

Definition emitFriends (value : option (list Friend)) (s : Friends) : Friends :=
  with_listeners
    (notify behaviour "UserStore friends listener error" value (friendListeners s)) s.

Definition subscribeFriends (listener : Listener) (s : Friends)
  : Completion Listener * Friends :=
  let '(r, b) :=
    subscribe_bus behaviour listener (getFriendsSnapshot None s) (friendListeners s) in
  (r, with_listeners b s).

(** Running the disposer returned by [subscribeFriends]. *)
Definition disposeFriends (d : Listener) (s : Friends) : Friends :=
  with_listeners (delete_listener d (friendListeners s)) s.

Definition getOrCreateFriendsState (scopeId : ScopeId) (s : Friends)
  : FriendsState * Friends :=
  let key := friendsScopeKey scopeId in
  match friendStates s !! key with
  | Some existing => (existing, s)
  | None =>
      let fresh := mkFriendsState None None 0 in
      (fresh, with_states (<[key := fresh]> (friendStates s)) s)
  end.

Definition modify (scopeId : ScopeId) (f : FriendsState -> FriendsState) (s : Friends)
  : Friends :=
  with_states (alter f (friendsScopeKey scopeId) (friendStates s)) s.

Definition isFriendsStale (state : FriendsState) (now : Z) : bool :=
  match cache state with
  | None => true
  | Some _ => now - updatedAt state >? friendsStaleTime
  end.

Definition setFriends (value : option (list Friend)) (options : ResourceStore.SetOptions)
    (now : Z) (s : Friends) : Friends :=
  let scopeId := nullish (ResourceStore.set_scopeId options) (currentScopeId s) in
  let '(_, s1) := getOrCreateFriendsState scopeId s in
  let stamp :=
    if bool_decide (is_Some value) && negb (default false (ResourceStore.stale options))
    then now else 0 in
  let s2 := modify scopeId (λ st, mkFriendsState value (inflight st) stamp) s1 in
  if decide (friendsScopeKey scopeId = friendsScopeKey (currentScopeId s))
  then emitFriends value s2 else s2.

(** Both branches of [clearFriends] leave a null cache, [updatedAt] 0 and
    an empty slot under the key. *)
Definition clearFriends (scopeArg : ScopeArg) (s : Friends) : Friends :=
  let scopeId := nullish scopeArg (currentScopeId s) in
  let key := friendsScopeKey scopeId in
  let s1 :=
    with_states (<[key := mkFriendsState None None 0]> (friendStates s)) s in
  if decide (key = friendsScopeKey (currentScopeId s))
  then emitFriends None s1 else s1.

Definition markFriendsStale (scopeArg : ScopeArg) (s : Friends) : Friends :=
  let scopeId := nullish scopeArg (currentScopeId s) in
  match friendStates s !! friendsScopeKey scopeId with
  | Some (mkFriendsState (Some _) _ _) =>
      modify scopeId (λ st, mkFriendsState (cache st) (inflight st) 0) s
  | _ => s
  end.

Definition served (frc : bool) (state : FriendsState) (now : Z) : option (list Friend) :=
  match cache state with
  | Some v => if negb frc && negb (isFriendsStale state now) then Some v else None
  | None => None
  end.

(** The body of [ensureFriends]. *)
Definition ensureFriends (options : ResourceStore.EnsureOptions) (now : Z) (s : Friends)
  : EnsureResult * Friends :=
  let scopeArg := ResourceStore.ensure_scopeId options in
  let hasExplicitScope := hasOwnScope scopeArg in
  let targetScopeId :=
    if hasExplicitScope then nullish scopeArg None else currentScopeId s in
  let '(state, s1) := getOrCreateFriendsState targetScopeId s in
  let frc := default false (ResourceStore.force options) in
  match served frc state now with
  | Some v => (Value v, s1)
  | None =>
      match inflight state with
      | Some p => (Pending p, s1)
      | None =>
          let p := length (fetches s1) in
          let s2 := with_fetches (fetches s1 ++ [mkFetch targetScopeId None]) s1 in
          (Pending p,
           modify targetScopeId
             (λ st, mkFriendsState (cache st) (Some p) (updatedAt st)) s2)
      end
  end.

(** [ensureFriends] is an [async] function as well: every call returns a
    promise object of its own, resolved with what the body returned. *)
Record Returned : Type := mkReturned {
  promise : nat;
  resolved_with : EnsureResult
}.

Definition ensureFriends_async (options : ResourceStore.EnsureOptions) (now : Z)
    (made : nat) (s : Friends) : Returned * (nat * Friends) :=
  let '(r, s1) := ensureFriends options now s in
  (mkReturned made r, (S made, s1)).

(** [refreshFriends(options)] is [ensureFriends({ ...options, force: true })]. *)
Definition refreshFriends (options : ResourceStore.EnsureOptions) (now : Z) (s : Friends)
  : EnsureResult * Friends :=
  ensureFriends
    (ResourceStore.mkEnsureOptions (Some true) (ResourceStore.ensure_scopeId options))
    now s.

Definition ensure_target (options : ResourceStore.EnsureOptions) (s : Friends) : ScopeId :=
  if hasOwnScope (ResourceStore.ensure_scopeId options)
  then nullish (ResourceStore.ensure_scopeId options) None
  else currentScopeId s.

Definition settle (p : PromiseId) (o : Outcome) (s : Friends) : Friends :=
  match fetches s !! p with
  | Some f => with_fetches (<[p := mkFetch (fetch_scope f) (Some o)]> (fetches s)) s
  | None => s
  end.

(** [getOnlineFriends()] fulfils: [then] runs [setFriends], [finally]
    empties the slot of the captured entry. *)
Definition resolve_fetch (p : PromiseId) (friends : list Friend) (now : Z) (s : Friends)
  : option Friends :=
  match fetches s !! p with
  | Some (mkFetch targetScopeId None) =>
      let s1 :=
        setFriends (Some friends)
          (ResourceStore.mkSetOptions None (scope_arg targetScopeId)) now s in
      let s2 :=
        modify targetScopeId (λ st, mkFriendsState (cache st) None (updatedAt st)) s1 in
      Some (settle p (Resolved friends) s2)
  | _ => None
  end.

Definition reject_fetch (p : PromiseId) (e : Err) (s : Friends) : option Friends :=
  match fetches s !! p with
  | Some (mkFetch targetScopeId None) =>
      let s1 :=
        modify targetScopeId (λ st, mkFriendsState (cache st) None (updatedAt st)) s in
      Some (settle p (Rejected e) s1)
  | _ => None
  end.

Definition outcome_of (s : Friends) (r : EnsureResult) : option Outcome :=
  match r with
  | Value v => Some (Resolved v)
  | Pending p =>
      match fetches s !! p with
      | Some f => fetch_outcome f
      | None => None
      end
  end.
End Friends.
End UserStore.

(** ** Developer-mode store (developer-mode-store.ts) *)

Module DeveloperModeStore.
Section Store.
Variable behaviour : Listener -> bool -> option Err.

Record Store : Type := mkStore {
  bus : Bus bool;
  cache : option bool;
  inflight : option PromiseId
}.

Definition init : Store := mkStore empty_bus None None.

Definition getSnapshot (s : Store) : option bool := cache s.

(** [listener(this.cache ?? false)] *)
Definition subscribe (listener : Listener) (s : Store) : Completion Listener * Store :=
  let '(r, b) := subscribe_bus behaviour listener (default false (cache s)) (bus s) in
  (r, mkStore b (cache s) (inflight s)).

Definition emit (value : bool) (s : Store) : Store :=
  mkStore (notify behaviour "DeveloperModeStore listener error" value (bus s))
          (cache s) (inflight s).

Definition set (value : bool) (s : Store) : Store :=
  emit value (mkStore (bus s) (Some value) (inflight s)).
End Store.
End DeveloperModeStore.

(** ** Alert store (alert-store.ts) *)

Module AlertStore.

Inductive AlertVariant : Type := info | warning | error | critical.

(** [message] is a React node and [metadata] a record; both are opaque
    here.  [onClick] names a callback.  [None] in the two optional
    properties is [undefined]. *)
Record Alert : Type := mkAlert {
  id : string;
  variant : AlertVariant;
  message : string;
  dismissable : bool;
  metadata : option string;
  createdAt : Z;
  onClick : option nat
}.

(** [Omit<Alert, 'id' | 'createdAt'>] *)
Record AlertInput : Type := mkAlertInput {
  in_variant : AlertVariant;
  in_message : string;
  in_dismissable : bool;
  in_metadata : option string;
  in_onClick : option nat
}.

(** [Partial<Omit<Alert, 'id' | 'createdAt'>>].  The outer [None] is a
    property the object does not have.  An optional property of [Alert]
    may be present with the value [undefined] ([Some None]), as in
    [{ onClick: undefined }]; the spread copies it.  ([undefined] under one
    of the three required properties would leave an object that is no
    [Alert]; no caller passes it, and it is not represented.) *)
Record AlertUpdates : Type := mkAlertUpdates {
  up_variant : option AlertVariant;
  up_message : option string;
  up_dismissable : option bool;
  up_metadata : option (option string);
  up_onClick : option (option nat)
}.

(** A JavaScript number, as far as the carousel can hold one: an integer
    [z], an integer and a half [z + 0.5], or [NaN].  Below 2^52 these are
    double-precision numbers, and the sums, differences and remainders
    taken on them here are exact. *)
Inductive Num : Type :=
| Int (z : Z)
| Half (z : Z)
| NaN.

(** [x < n] for an integer [n]; every comparison with [NaN] is false. *)
Definition num_lt (x : Num) (n : Z) : bool :=
  match x with
  | Int z | Half z => z <? n
  | NaN => false
  end.

(** [x >= n] for an integer [n]. *)
Definition num_ge (x : Num) (n : Z) : bool :=
  match x with
  | Int z | Half z => z >=? n
  | NaN => false
  end.

(** [x === 0] *)
Definition is_zero (x : Num) : bool :=
  match x with
  | Int z => z =? 0
  | _ => false
  end.

(** [x + 1] and [x - 1] *)
Definition add1 (x : Num) : Num :=
  match x with
  | Int z => Int (z + 1)
  | Half z => Half (z + 1)
  | NaN => NaN
  end.

Definition sub1 (x : Num) : Num :=
  match x with
  | Int z => Int (z - 1)
  | Half z => Half (z - 1)
  | NaN => NaN
  end.

(** [x % n] for an integer [n]: the remainder has the sign of [x]; it is
    [NaN] when [n] is 0.  For [z + 0.5] the remainder is taken on the
    doubled values, [(2z + 1) % 2n], which is odd, and halved. *)
Definition num_rem (x : Num) (n : Z) : Num :=
  if n =? 0 then NaN
  else
    match x with
    | Int z => Int (Z.rem z n)
    | Half z => Half ((Z.rem (2 * z + 1) (2 * n) - 1) / 2)
    | NaN => NaN
    end.

(** [l[x]]: an element only under a non-negative integer below the
    length, [undefined] otherwise. *)
Definition subscript {A : Type} (l : list A) (x : Num) : option A :=
  match x with
  | Int z => if z <? 0 then None else l !! Z.to_nat z
  | _ => None
  end.

Record AlertStoreState : Type := mkAlertStoreState {
  alerts : list Alert;
  currentIndex : Num
}.

(** [{ ...alert, ...updates }] *)
Definition merge (a : Alert) (u : AlertUpdates) : Alert :=
  mkAlert (id a)
          (default (variant a) (up_variant u))
          (default (message a) (up_message u))
          (default (dismissable a) (up_dismissable u))
          (default (metadata a) (up_metadata u))
          (createdAt a)
          (default (onClick a) (up_onClick u)).

(** [alerts.length] *)
Definition len (l : list Alert) : Z := Z.of_nat (length l).

Section Store.
(** The text of a number in a template literal ([Number::toString]). *)
Variable to_string : Num -> string.
Variable behaviour : Listener -> AlertStoreState -> option Err.

Record Store : Type := mkStore {
  bus : Bus AlertStoreState;
  cache : AlertStoreState
}.

Definition init : Store := mkStore empty_bus (mkAlertStoreState [] (Int 0)).

(** The copy [{ ...this.cache, alerts: [...this.cache.alerts] }]. *)
Definition getSnapshot (s : Store) : AlertStoreState :=
  mkAlertStoreState (alerts (cache s)) (currentIndex (cache s)).

Definition emit (state : AlertStoreState) (s : Store) : Store :=
  mkStore (notify behaviour "Listener error" state (bus s)) (cache s).

Definition warn (msg : string) (s : Store) : Store :=
  mkStore (log_error "warn" msg (bus s)) (cache s).

Definition subscribe (listener : Listener) (s : Store) : Completion Listener * Store :=
  let '(r, b) := subscribe_bus behaviour listener (getSnapshot s) (bus s) in
  (r, mkStore b (cache s)).

Definition dispose (d : Listener) (s : Store) : Store :=
  mkStore (delete_listener d (bus s)) (cache s).

(** [now] is [Date.now()], [rnd] the seven characters cut out of
    [Math.random().toString(36)]. *)
Definition addAlert (alert : AlertInput) (now : Z) (rnd : string) (s : Store)
  : string * Store :=
  let id := "alert-" +:+ pretty now +:+ "-" +:+ rnd in
  let newAlert :=
    mkAlert id (in_variant alert) (in_message alert) (in_dismissable alert)
            (in_metadata alert) now (in_onClick alert) in
  let s1 :=
    mkStore (bus s)
            (mkAlertStoreState (alerts (cache s) ++ [newAlert]) (currentIndex (cache s))) in
  (id, emit (getSnapshot s1) s1).

Definition updateAlert (id' : string) (updates : AlertUpdates) (s : Store)
  : bool * Store :=
  match list_find (λ a, id a = id') (alerts (cache s)) with
  | None => (false, warn ("Alert not found: " +:+ id') s)
  | Some (index, found) =>
      let s1 :=
        mkStore (bus s)
                (mkAlertStoreState (<[index := merge found updates]> (alerts (cache s)))
                                   (currentIndex (cache s))) in
      (true, emit (getSnapshot s1) s1)
  end.

(** The index adjustment shared by [removeAlert] and [clearDismissable]. *)
Definition adjust (remaining : list Alert) (index : Num) : Num :=
  if num_ge index (len remaining) && (len remaining >? 0) then Int (len remaining - 1)
  else if len remaining =? 0 then Int 0
  else index.

Definition removeAlert (id' : string) (s : Store) : bool * Store :=
  let initialLength := len (alerts (cache s)) in
  let remaining := filter (λ a, id a ≠ id') (alerts (cache s)) in
  if len remaining <? initialLength then
    let s1 :=
      mkStore (bus s)
              (mkAlertStoreState remaining (adjust remaining (currentIndex (cache s)))) in
    (true, emit (getSnapshot s1) s1)
  else (false, mkStore (bus s) (mkAlertStoreState remaining (currentIndex (cache s)))).

Definition clearAll (s : Store) : Store :=
  let s1 := mkStore (bus s) (mkAlertStoreState [] (Int 0)) in
  emit (getSnapshot s1) s1.

Definition clearDismissable (s : Store) : Store :=
  let initialLength := len (alerts (cache s)) in
  let remaining := filter (λ a, dismissable a = false) (alerts (cache s)) in
  if len remaining <? initialLength then
    let s1 :=
      mkStore (bus s)
              (mkAlertStoreState remaining (adjust remaining (currentIndex (cache s)))) in
    emit (getSnapshot s1) s1
  else mkStore (bus s) (mkAlertStoreState remaining (currentIndex (cache s))).

Definition nextAlert (s : Store) : Store :=
  if len (alerts (cache s)) =? 0 then s
  else
    let s1 :=
      mkStore (bus s)
              (mkAlertStoreState (alerts (cache s))
                 (num_rem (add1 (currentIndex (cache s))) (len (alerts (cache s))))) in
    emit (getSnapshot s1) s1.

Definition previousAlert (s : Store) : Store :=
  if len (alerts (cache s)) =? 0 then s
  else
    let s1 :=
      mkStore (bus s)
              (mkAlertStoreState (alerts (cache s))
                 (if is_zero (currentIndex (cache s)) then Int (len (alerts (cache s)) - 1)
                  else sub1 (currentIndex (cache s)))) in
    emit (getSnapshot s1) s1.

Definition setCurrentIndex (index : Num) (s : Store) : Store :=
  if num_lt index 0 || num_ge index (len (alerts (cache s)))
  then warn ("Invalid index: " +:+ to_string index) s
  else
    let s1 := mkStore (bus s) (mkAlertStoreState (alerts (cache s)) index) in
    emit (getSnapshot s1) s1.

(** [this.cache.alerts[this.cache.currentIndex] || null]; an alert is an
    object, hence truthy. *)
Definition getCurrentAlert (s : Store) : option Alert :=
  if len (alerts (cache s)) =? 0 then None
  else subscript (alerts (cache s)) (currentIndex (cache s)).

Definition hasAlerts (s : Store) : bool := len (alerts (cache s)) >? 0.

Definition getAlertCount (s : Store) : Z := len (alerts (cache s)).
End Store.
End AlertStore.

(** ** Singleton registry (singleton-registry.ts) *)

Module SingletonRegistry.

(** A factory closure, named by a number. *)
Definition Factory := nat.

(** What a factory returned: its identity is the order of its
    construction; [built_by] remembers the closure that made it. *)
Record Instance : Type := mkInstance {
  address : nat;
  built_by : Factory
}.

(** What [registry[key]] yields when it is not [undefined]: a value stored
    by an earlier call, or the member that the registry, a plain [{}],
    inherits from [Object.prototype] under that name. *)
Inductive Member : Type :=
| Own (inst : Instance)
| Inherited (name : string).

(** The property names of [Object.prototype].  The member under each is a
    function or, under [__proto__], the prototype object: all truthy. *)
Definition prototype_names : list string :=
  ["constructor"; "__defineGetter__"; "__defineSetter__"; "hasOwnProperty";
   "__lookupGetter__"; "__lookupSetter__"; "isPrototypeOf";
   "propertyIsEnumerable"; "toString"; "valueOf"; "__proto__"; "toLocaleString"].

(** The own properties of [globalThis.__STORE_SINGLETONS__] and the record
    of every factory execution. *)
Record Registry : Type := mkRegistry {
  slots : gmap string Instance;
  constructions : list (string * Factory)
}.

Definition init : Registry := mkRegistry ∅ [].

(** [registry[key]]: the own property, else the inherited member, else
    [undefined]. *)
Definition read (key : string) (r : Registry) : option Member :=
  match slots r !! key with
  | Some inst => Some (Own inst)
  | None => if decide (key ∈ prototype_names) then Some (Inherited key) else None
  end.

Section Registry.
(** Whether the value a factory returns is truthy.  A store object is; a
    factory of the generic type [() => T] may also return [0], [''],
    [null] or [undefined]. *)
Variable truthy : Factory -> bool.

Definition member_truthy (m : Member) : bool :=
  match m with
  | Own inst => truthy (built_by inst)
  | Inherited _ => true
  end.

(** [registry[key] = factory()], reached only when [registry[key]] is
    falsy, so never under an inherited name: the assignment makes or
    replaces an own property. *)
Definition construct (key : string) (factory : Factory) (r : Registry)
  : Member * Registry :=
  let inst := mkInstance (length (constructions r)) factory in
  (Own inst, mkRegistry (<[key := inst]> (slots r)) (constructions r ++ [(key, factory)])).

Definition registerSingleton (key : string) (factory : Factory) (r : Registry)
  : Member * Registry :=
  match read key r with
  | Some m => if member_truthy m then (m, r) else construct key factory r
  | None => construct key factory r
  end.

(** [undefined] is [None]. *)
Definition getSingleton (key : string) (r : Registry) : option Member :=
  read key r.

(** A sequence of [registerSingleton] calls, with what each call
    returned. *)
Fixpoint register_all (cs : list (string * Factory)) (r : Registry)
  : list Member * Registry :=
  match cs with
  | [] => ([], r)
  | (key, factory) :: rest =>
      let '(m, r1) := registerSingleton key factory r in
      let '(ms, r2) := register_all rest r1 in
      (m :: ms, r2)
  end.
End Registry.

(** How many times a factory has run for [key]. *)
Definition constructed (key : string) (r : Registry) : nat :=
  length (filter (λ c, c.1 = key) (constructions r)).

(** A key has been constructed exactly once if it is an own property,
    never otherwise, and no inherited name is an own property. *)
Definition consistent (r : Registry) : Prop :=
  (∀ key, constructed key r =
          match slots r !! key with Some _ => 1%nat | None => 0%nat end) ∧
  (∀ key, key ∈ prototype_names -> slots r !! key = None).

(** The sentence of the specification at one key: on the new registry the
    key is not registered, the first call constructs with its factory, and
    a second call returns the same instance without constructing. *)
Definition identity_as_stated (truthy : Factory -> bool) (key : string)
    (f1 f2 : Factory) : Prop :=
  let '(m1, r1) := registerSingleton truthy key f1 init in
  let '(m2, r2) := registerSingleton truthy key f2 r1 in
  getSingleton key init = None ∧
  constructions r1 = [(key, f1)] ∧
  m2 = m1 ∧
  constructions r2 = constructions r1.

(** Every factory returns an object. *)
Definition objects : Factory -> bool := λ _, true.

(** Factory 0 returns a falsy value, the others objects. *)
Definition zero_is_falsy : Factory -> bool := λ f, negb (Nat.eqb f 0).

End SingletonRegistry.

(** ** VRChat status store (vrchat-status-store.ts): the state and its
    subscription *)

Module VRChatStatusStore.
Section Store.
(** [SystemStatus], a record of the bindings. *)
Context {SystemStatus : Type}.

Record VRChatStatusState : Type := mkVRChatStatusState {
  status : option SystemStatus;
  statusPageUrl : option string;
  lastUpdated : option Z;
  isLoading : bool;
  error : option string
}.

Variable behaviour : Listener -> VRChatStatusState -> option Err.

Record Store : Type := mkStore {
  bus : Bus VRChatStatusState;
  cache : VRChatStatusState
}.

Definition init : Store :=
  mkStore empty_bus (mkVRChatStatusState None None None false None).

(** The copy [{ ...this.cache }]. *)
Definition getSnapshot (s : Store) : VRChatStatusState :=
  mkVRChatStatusState (status (cache s)) (statusPageUrl (cache s))
                      (lastUpdated (cache s)) (isLoading (cache s)) (error (cache s)).

Definition subscribe (listener : Listener) (s : Store) : Completion Listener * Store :=
  let '(r, b) := subscribe_bus behaviour listener (getSnapshot s) (bus s) in
  (r, mkStore b (cache s)).

Definition dispose (d : Listener) (s : Store) : Store :=
  mkStore (delete_listener d (bus s)) (cache s).

Definition emit (state : VRChatStatusState) (s : Store) : Store :=
  mkStore (notify behaviour "Listener error" state (bus s)) (cache s).
End Store.
End VRChatStatusStore.

(** * Statements to be checked against the code

    The sentences of the specification that the code does not satisfy as
    they are written, stated over the embedding, and the runs of calls the
    properties below quantify over. *)

Module Claims.
Section Resource.
Context {T : Type}.
Variable truthy : T -> bool.
Variable behaviour : Listener -> option T -> option Err.

Import ResourceStore.

(** A value written at [t0] reads as fresh strictly before [t0 + W] and
    as stale from [t0 + W] on. *)
Definition staleness_from_window (s : @Store T) (v : T) (t0 t : Z) : Prop :=
  let s' := set truthy behaviour (Some v) no_set_options t0 s in
  let state := entry s' (activeAccountId s) in
  (t < t0 + staleTime s -> isStale truthy s' state t = false) ∧
  (t >= t0 + staleTime s -> isStale truthy s' state t = true).

(** [set(v, { scopeId: A })] with [A] different from the active scope
    calls no subscriber, leaves the active snapshot alone and is read
    back from [A]. *)
Definition write_is_isolated (s : @Store T) (v : option T) (A : ScopeId) (now : Z) : Prop :=
  A ≠ activeAccountId s ->
  let s' := set truthy behaviour v (mkSetOptions None (scope_arg A)) now s in
  calls (bus s') = calls (bus s) ∧
  (getSnapshot (Some (activeAccountId s)) s').1 =
    (getSnapshot (Some (activeAccountId s)) s).1 ∧
  (getSnapshot (Some A) s').1 = v.

(** After a rejected fetch the entry is as before, the slot is empty and
    the next [ensure] on the scope invokes [load] again. *)
Definition failed_fetch_retries (s : @Store T) (options : EnsureOptions) (now : Z)
    (e : Err) (options' : EnsureOptions) (now' : Z) : Prop :=
  let target := ensure_target options s in
  let '(r, s1) := ensure truthy options now s in
  length (loads s1) = S (length (loads s)) ->
  match r with
  | Pending p =>
      match reject_load p e s1 with
      | Some s2 =>
          outcome_of s2 r = Some (Rejected e) ∧
          cache (entry s2 target) = cache (entry s target) ∧
          updatedAt (entry s2 target) = updatedAt (entry s target) ∧
          inflight (entry s2 target) = None ∧
          (ensure_target options' s2 = target ->
           length (loads (ensure truthy options' now' s2).2) = S (length (loads s2)))
      | None => False
      end
  | Value _ => False
  end.

(** While [b] is active, [ensure({ scopeId: null })] stores what it
    fetched under [b], notifies, and leaves the null-scope entry empty. *)
Definition null_ensure_spares_null_entry (s : @Store T) (b : string)
    (now : Z) (v : T) (now' : Z) : Prop :=
  activeAccountId s = Some b ->
  entry s None = mkState None None 0 ->
  let '(r, s1) := ensure truthy (mkEnsureOptions None ScopeNull) now s in
  match r with
  | Pending p =>
      match resolve_load truthy behaviour p v now' s1 with
      | Some s2 =>
          cache (entry s2 (Some b)) = Some v ∧
          calls (bus s2) = calls (bus s) ++ map (λ l, (l, Some v)) (listeners (bus s)) ∧
          cache (entry s2 None) = None ∧
          updatedAt (entry s2 None) = 0
      | None => False
      end
  | Value _ => False
  end.
End Resource.
End Claims.

Module Runs.
Section Resource.
Context {T : Type}.
Variable truthy : T -> bool.

Import ResourceStore.

(** Calls of [ensure] made one after the other, each with the clock it
    reads, before any fetch settles; the results in calling order. *)
Fixpoint ensure_all (cs : list (EnsureOptions * Z)) (s : @Store T)
  : list EnsureResult * Store :=
  match cs with
  | [] => ([], s)
  | (options, now) :: rest =>
      let '(r, s1) := ensure truthy options now s in
      let '(rs, s2) := ensure_all rest s1 in
      (r :: rs, s2)
  end.

(** The same calls through the [async] function, with the promise each
    caller is handed. *)
Fixpoint ensure_async_all (cs : list (EnsureOptions * Z)) (made : nat) (s : @Store T)
  : list Returned * (nat * Store) :=
  match cs with
  | [] => ([], (made, s))
  | (options, now) :: rest =>
      let '(r, (made1, s1)) := ensure_async truthy options now made s in
      let '(rs, w2) := ensure_async_all rest made1 s1 in
      (r :: rs, w2)
  end.

(** Every caller is handed one and the same promise object. *)
Definition same_promise (rs : list (@Returned T)) : Prop :=
  ∀ a b, a ∈ rs -> b ∈ rs -> promise a = promise b.

(** The call [(options, now)] works on [scopeId] and finds no value it
    may serve there. *)
Definition unserved (s : @Store T) (scopeId : ScopeId) (c : EnsureOptions * Z) : Prop :=
  ensure_target c.1 s = scopeId ∧
  served truthy (default false (force c.1)) s (entry s scopeId) c.2 = None.

(** Writing and emptying the in-flight slot of an entry. *)
Definition mark (p : PromiseId) (st : @StoreState T) : StoreState :=
  mkState (cache st) (Some p) (updatedAt st).
Definition unmark (st : @StoreState T) : StoreState :=
  mkState (cache st) None (updatedAt st).
End Resource.
End Runs.

Module FriendRuns.
Section Friends.
Context {Friend : Type}.

Import UserStore.

(** The entry [getOrCreateFriendsState] would hand out. *)
Definition entry (s : @Friends Friend) (scopeId : ScopeId) : FriendsState :=
  default (mkFriendsState None None 0) (friendStates s !! friendsScopeKey scopeId).

Fixpoint ensureFriends_all (cs : list (ResourceStore.EnsureOptions * Z)) (s : @Friends Friend)
  : list EnsureResult * Friends :=
  match cs with
  | [] => ([], s)
  | (options, now) :: rest =>
      let '(r, s1) := ensureFriends options now s in
      let '(rs, s2) := ensureFriends_all rest s1 in
      (r :: rs, s2)
  end.

Fixpoint ensureFriends_async_all (cs : list (ResourceStore.EnsureOptions * Z))
    (made : nat) (s : @Friends Friend) : list Returned * (nat * Friends) :=
  match cs with
  | [] => ([], (made, s))
  | (options, now) :: rest =>
      let '(r, (made1, s1)) := ensureFriends_async options now made s in
      let '(rs, w2) := ensureFriends_async_all rest made1 s1 in
      (r :: rs, w2)
  end.

Definition unserved (s : @Friends Friend) (scopeId : ScopeId)
    (c : ResourceStore.EnsureOptions * Z) : Prop :=
  ensure_target c.1 s = scopeId ∧
  served (default false (ResourceStore.force c.1)) (entry s scopeId) c.2 = None.

Definition mark (p : PromiseId) (st : @FriendsState Friend) : FriendsState :=
  mkFriendsState (cache st) (Some p) (updatedAt st).
Definition unmark (st : @FriendsState Friend) : FriendsState :=
  mkFriendsState (cache st) None (updatedAt st).
End Friends.
End FriendRuns.

(** * Concrete stores used as examples

    Stores of numbers with a one-second staleness window. *)

(** Listeners that never throw. *)
Definition quiet {V : Type} : Listener -> V -> option Err := λ _ _, None.

(** Every payload is truthy, as objects and arrays are. *)
Definition any_truthy : nat -> bool := λ _, true.

(** A new store, no account active. *)
Definition store0 : @ResourceStore.Store nat :=
  ResourceStore.create quiet (Some 1000) None.

(** A store whose active account is [usr_b], with one subscriber. *)
Definition store_of_b : @ResourceStore.Store nat :=
  (ResourceStore.subscribe quiet 0%nat
     (ResourceStore.create quiet (Some 1000) (Some "usr_b"))).2.

(** A store holding the value 7, written at time 0. *)
Definition store_with_7 : @ResourceStore.Store nat :=
  ResourceStore.set any_truthy quiet (Some 7%nat) ResourceStore.no_set_options 0 store0.

(** A store whose active account id is the text of the reserved key. *)
Definition store_of_sentinel : @ResourceStore.Store nat :=
  ResourceStore.create quiet (Some 1000) (Some DEFAULT_SCOPE_KEY).

(** The friends part of a new user store. *)
Definition friends0 : @UserStore.Friends nat :=
  UserStore.mkFriends empty_bus ∅ None [].

(** A new store and a new friends cache after a first [ensure()]: fetch 0
    is outstanding. *)
Definition store_fetching : @ResourceStore.Store nat :=
  (ResourceStore.ensure any_truthy ResourceStore.no_ensure_options 0 store0).2.

Definition friends_fetching : @UserStore.Friends nat :=
  (UserStore.ensureFriends ResourceStore.no_ensure_options 0 friends0).2.

(** [ensure()], [ensure()], [ensure({ force: true })] at times 0, 1, 2. *)
Definition three_calls : list (ResourceStore.EnsureOptions * Z) :=
  [(ResourceStore.no_ensure_options, 0);
   (ResourceStore.no_ensure_options, 1);
   (ResourceStore.mkEnsureOptions (Some true) ScopeAbsent, 2)].


(** * The operations of the alert store as one step function *)

Module AlertRuns.
Import AlertStore.

(** A call of one of the mutating operations, with its arguments. *)
Inductive Op : Type :=
| AddAlert (alert : AlertInput) (now : Z) (rnd : string)
| UpdateAlert (id' : string) (updates : AlertUpdates)
| RemoveAlert (id' : string)
| ClearAll
| ClearDismissable
| NextAlert
| PreviousAlert
| SetCurrentIndex (index : Num).

Definition step (to_string : Num -> string)
    (behaviour : Listener -> AlertStoreState -> option Err)
    (op : Op) (s : Store) : Store :=
  match op with
  | AddAlert alert now rnd => (addAlert behaviour alert now rnd s).2
  | UpdateAlert id' updates => (updateAlert behaviour id' updates s).2
  | RemoveAlert id' => (removeAlert behaviour id' s).2
  | ClearAll => clearAll behaviour s
  | ClearDismissable => clearDismissable behaviour s
  | NextAlert => nextAlert behaviour s
  | PreviousAlert => previousAlert behaviour s
  | SetCurrentIndex index => setCurrentIndex to_string behaviour index s
  end.

Definition run (to_string : Num -> string)
    (behaviour : Listener -> AlertStoreState -> option Err)
    (ops : list Op) (s : Store) : Store :=
  fold_left (λ s op, step to_string behaviour op s) ops s.

(** The index invariant of the carousel as the specification words it:
    [currentIndex] is 0 on the empty list, and
    [0 <= currentIndex < alerts.length] on a non-empty one. *)
Definition index_in_range (st : AlertStoreState) : Prop :=
  (alerts st = [] -> currentIndex st = Int 0) ∧
  (alerts st ≠ [] ->
   num_ge (currentIndex st) 0 = true ∧ num_lt (currentIndex st) (len (alerts st)) = true).

(** The index is a position of the list: an integer in that range. *)
Definition index_ok (st : AlertStoreState) : Prop :=
  ∃ i, currentIndex st = Int i ∧
       (alerts st = [] -> i = 0) ∧
       (alerts st ≠ [] -> 0 <= i < len (alerts st)).

(** The argument of a [setCurrentIndex] call is an integer. *)
Definition integer_arg (op : Op) : bool :=
  match op with
  | SetCurrentIndex (Int _) => true
  | SetCurrentIndex _ => false
  | _ => true
  end.

(** Whether the operation, called in state [s], notifies the listeners:
    always for [addAlert] and [clearAll]; for [updateAlert] and
    [removeAlert] when an alert has the id; for [clearDismissable] when an
    alert is dismissable; for [nextAlert] and [previousAlert] when there is
    an alert; for [setCurrentIndex] when the index passes the range test. *)
Definition notifies (op : Op) (s : Store) : bool :=
  match op with
  | AddAlert _ _ _ | ClearAll => true
  | UpdateAlert id' _ | RemoveAlert id' => bool_decide (id' ∈ map id (alerts (cache s)))
  | ClearDismissable => bool_decide (true ∈ map dismissable (alerts (cache s)))
  | NextAlert | PreviousAlert => bool_decide (alerts (cache s) ≠ [])
  | SetCurrentIndex index =>
      negb (num_lt index 0 || num_ge index (len (alerts (cache s))))
  end.

(** The warning an operation writes when it refuses its argument. *)
Definition warning (to_string : Num -> string) (op : Op) (s : Store)
  : list (string * Err) :=
  match op with
  | UpdateAlert id' _ =>
      if notifies op s then [] else [("warn", "Alert not found: " +:+ id')]
  | SetCurrentIndex index =>
      if notifies op s then [] else [("warn", "Invalid index: " +:+ to_string index)]
  | _ => []
  end.

(** The two alerts of the scenario of the specification. *)
Definition alert_a : AlertInput := mkAlertInput info "a" true None None.
Definition alert_b : AlertInput := mkAlertInput error "b" false None None.

(** A listener that throws on every call. *)
Definition failing : Listener -> AlertStoreState -> option Err := λ _ _, Some "boom".

(** The text of the integers, halves and [NaN] that the examples print. *)
Definition show (x : Num) : string :=
  match x with
  | Int z => pretty z
  | Half z => if 0 <=? z then pretty z +:+ ".5" else "-" +:+ pretty (- z - 1) +:+ ".5"
  | NaN => "NaN"
  end.
End AlertRuns.

Module Subscriptions.
(** [subscribe(fn)] on a store whose listeners were [before]: [fn] is
    registered and was called once, with [snapshot]; when it returned, the
    caller holds a disposer that takes [fn] out again; when it threw, so
    did [subscribe]. *)
Definition replayed {V : Type} (behaviour : Listener -> V -> option Err)
    (l : Listener) (snapshot : V) (before after : Bus V)
    (r : Completion Listener) (dispose : Listener -> Bus V) : Prop :=
  calls after = calls before ++ [(l, snapshot)] ∧
  l ∈ listeners after ∧
  match behaviour l snapshot with
  | None => ∃ d, r = Normal d ∧ l ∉ listeners (dispose d)
  | Some e => r = Throw e
  end.
End Subscriptions.

Module DevClaims.
Import DeveloperModeStore.

(** [subscribe] hands the caller a disposer. *)
Definition returns_disposer {T : Type} (behaviour : Listener -> option T -> option Err)
    (l : Listener) (s : @ResourceStore.Store T) : Prop :=
  ∃ d, (ResourceStore.subscribe behaviour l s).1 = Normal d.

(** [subscribe] replays the current snapshot: the values handed to the
    callbacks during the call are the snapshot, once. *)
Definition replays_snapshot (behaviour : Listener -> bool -> option Err)
    (l : Listener) (s : Store) : Prop :=
  map (λ c, Some c.2) (drop (length (calls (bus s))) (calls (bus (subscribe behaviour l s).2)))
  = [getSnapshot s].
End DevClaims.


(** Listener 0 throws on every call, the others return. *)
Definition first_throws {V : Type} : Listener -> V -> option Err :=
  λ l _, if Nat.eqb l 0 then Some "boom" else None.

(** A store with listeners 0 and 1 subscribed, no account active. *)
Definition store_with_two_listeners : @ResourceStore.Store nat :=
  (ResourceStore.subscribe first_throws 1%nat
     (ResourceStore.subscribe first_throws 0%nat store0).2).2.

(** An account scope with listeners 0 and 1 subscribed. *)
Definition scope_with_two_listeners : AccountScope.State :=
  (AccountScope.subscribeActiveAccount first_throws 1%nat
     (AccountScope.subscribeActiveAccount first_throws 0%nat AccountScope.init).2).2.


(** * The operations of the resource store as one step function *)

Module ResourceRuns.
Section Resource.
Context {T : Type}.
Variable truthy : T -> bool.
Variable behaviour : Listener -> option T -> option Err.

Import ResourceStore.

(** A call into the store, or an event of its environment: the account
    scope changes, a fetch is fulfilled or rejected. *)
Inductive Op : Type :=
| Ensure (options : EnsureOptions) (now : Z)
| Set_ (value : option T) (options : SetOptions) (now : Z)
| Clear (scopeArg : ScopeArg)
| MarkStale (scopeArg : ScopeArg)
| GetSnapshot (arg : option ScopeId)
| Subscribe (listener : Listener)
| Dispose (d : Listener)
| AccountChanged (accountId : ScopeId)
| LoadResolved (p : PromiseId) (value : T) (now : Z)
| LoadRejected (p : PromiseId) (e : Err).

(** A settlement of a promise that is not outstanding does not happen:
    the step leaves the store alone. *)
Definition step (op : Op) (s : @Store T) : Store :=
  match op with
  | Ensure options now => (ensure truthy options now s).2
  | Set_ value options now => set truthy behaviour value options now s
  | Clear scopeArg => clear truthy behaviour scopeArg s
  | MarkStale scopeArg => markStale truthy scopeArg s
  | GetSnapshot arg => (getSnapshot arg s).2
  | Subscribe listener => (subscribe behaviour listener s).2
  | Dispose d => dispose d s
  | AccountChanged accountId => onActiveAccount behaviour accountId s
  | LoadResolved p value now => default s (resolve_load truthy behaviour p value now s)
  | LoadRejected p e => default s (reject_load p e s)
  end.

Definition run (ops : list Op) (s : @Store T) : Store :=
  fold_left (λ s op, step op s) ops s.

(** The in-flight slots agree with the outstanding fetches: a slot names
    an outstanding fetch made for its own key, and every outstanding fetch
    sits in the slot of its key. *)
Definition slots_ok (s : @Store T) : Prop :=
  (∀ scopeId p, inflight (entry s scopeId) = Some p ->
     ∃ target, loads s !! p = Some (mkLoad target None) ∧
               scopeKey target = scopeKey scopeId) ∧
  (∀ p target, loads s !! p = Some (mkLoad target None) ->
     inflight (entry s target) = Some p).

(** The store differs from [s] at most in cached values, time stamps and
    listeners: same slots, same fetches. *)
Definition same_slots (s s' : @Store T) : Prop :=
  loads s' = loads s ∧
  ∀ scopeId, inflight (entry s' scopeId) = inflight (entry s scopeId).

(** Only listeners and their record differ. *)
Definition same_cache (s s' : @Store T) : Prop :=
  loads s' = loads s ∧ activeAccountId s' = activeAccountId s ∧
  staleTime s' = staleTime s ∧
  ∀ scopeId, entry s' scopeId = entry s scopeId.
End Resource.
End ResourceRuns.


(** A run with two scopes: [ensure()], [ensure({ scopeId: "usr_a" })],
    [ensure()] again, the first fetch is rejected, [ensure()] once more. *)
Definition busy_run : list (@ResourceRuns.Op nat) :=
  [ResourceRuns.Ensure ResourceStore.no_ensure_options 0;
   ResourceRuns.Ensure (ResourceStore.mkEnsureOptions None (ScopeStr "usr_a")) 1;
   ResourceRuns.Ensure ResourceStore.no_ensure_options 2;
   ResourceRuns.LoadRejected 0 "network";
   ResourceRuns.Ensure ResourceStore.no_ensure_options 3].

Definition busy_store : @ResourceStore.Store nat :=
  ResourceRuns.run any_truthy quiet busy_run store0.


(** An alert store holding the dismissable info alert [a] and the sticky
    error alert [b], the carousel on [a]. *)
Definition two_alerts : AlertStore.Store :=
  AlertRuns.run AlertRuns.show quiet
    [AlertRuns.AddAlert AlertRuns.alert_a 1 "x";
     AlertRuns.AddAlert AlertRuns.alert_b 2 "y"]
    AlertStore.init.

(** The two alerts with two subscribers, 0 and 1. *)
Definition two_alerts_two_listeners : AlertStore.Store :=
  (AlertStore.subscribe quiet 1%nat (AlertStore.subscribe quiet 0%nat two_alerts).2).2.

(** An alert store holding the alert [a] alone. *)
Definition one_alert : AlertStore.Store :=
  AlertRuns.run AlertRuns.show quiet [AlertRuns.AddAlert AlertRuns.alert_a 1 "x"]
    AlertStore.init.


(** * Logger (utils/logger.ts)

    The explicit logging interface the stores call.  The interception of
    [console] is in [AccountScope.Intercepted], where it matters; the
    parsing of stack traces is not modelled. *)

Module Logger.

Inductive LogLevel : Type := DEBUG | INFO | WARN | ERROR.

Inductive LogSource : Type := frontend | backend.

(** [data] is an arbitrary value, opaque here; [None] is [undefined]. *)
Record LogEntry : Type := mkLogEntry {
  timestamp : string;
  level : LogLevel;
  source : LogSource;
  module_name : string;
  message : string;
  data : option string
}.

Definition maxLogs : nat := 1000.

(** [l.slice(-k)] for [k > 0]: the last [k] elements, or all of them. *)
Definition slice_last {A : Type} (k : nat) (l : list A) : list A :=
  drop (length l - k) l.

Section Logger.
Variable behaviour : Listener -> LogEntry -> option Err.

(** [printed] records the lines handed to the original [console.debug]. *)
Record State : Type := mkState {
  bus : Bus LogEntry;
  logs : list LogEntry;
  printed : list (string * string * option string)
}.

Definition init : State := mkState empty_bus [] [].

Definition emit (entry : LogEntry) (s : State) : State :=
  mkState (notify behaviour "Logger listener error:" entry (bus s)) (logs s) (printed s).

Definition addLog (entry : LogEntry) (s : State) : State :=
  let pushed := logs s ++ [entry] in
  let kept :=
    if Nat.ltb maxLogs (length pushed) then slice_last maxLogs pushed else pushed in
  emit entry (mkState (bus s) kept (printed s)).

(** [now] is [new Date().toISOString()]. *)
Definition log (module' : string) (level' : LogLevel) (message' : string)
    (data' : option string) (now : string) (s : State) : State :=
  let entry := mkLogEntry now level' frontend module' message' data' in
  let s1 := addLog entry s in
  match level' with
  | DEBUG =>
      mkState (bus s1) (logs s1)
              (printed s1 ++ [("[" +:+ module' +:+ "]", message', data')])
  | _ => s1
  end.

Definition debug (module' message' : string) (data' : option string) (now : string)
  : State -> State := log module' DEBUG message' data' now.
Definition info (module' message' : string) (data' : option string) (now : string)
  : State -> State := log module' INFO message' data' now.
Definition warn (module' message' : string) (data' : option string) (now : string)
  : State -> State := log module' WARN message' data' now.
Definition error (module' message' : string) (data' : option string) (now : string)
  : State -> State := log module' ERROR message' data' now.

Definition getLogs (s : State) : list LogEntry := logs s.

Definition clearLogs (s : State) : State := mkState (bus s) [] (printed s).

(** [subscribe] registers the listener and does not call it. *)
Definition subscribe (listener : Listener) (s : State) : Listener * State :=
  (listener, mkState (add_listener listener (bus s)) (logs s) (printed s)).

Definition dispose (d : Listener) (s : State) : State :=
  mkState (delete_listener d (bus s)) (logs s) (printed s).

(** A call into the logger. *)
Inductive Op : Type :=
| Log (module' : string) (level' : LogLevel) (message' : string)
      (data' : option string) (now : string)
| ClearLogs
| Subscribe (listener : Listener)
| Dispose (d : Listener).

Definition step (op : Op) (s : State) : State :=
  match op with
  | Log module' level' message' data' now => log module' level' message' data' now s
  | ClearLogs => clearLogs s
  | Subscribe listener => (subscribe listener s).2
  | Dispose d => dispose d s
  end.

Definition run (ops : list Op) (s : State) : State :=
  fold_left (λ s op, step op s) ops s.
End Logger.

(** The entries written since the last [clearLogs], oldest first. *)
Definition written (h : list LogEntry) (op : Op) : list LogEntry :=
  match op with
  | Log module' level' message' data' now =>
      h ++ [mkLogEntry now level' frontend module' message' data']
  | ClearLogs => []
  | _ => h
  end.

(** The entries written while [l] was subscribed, oldest first, with
    whether [l] is subscribed at the end. *)
Definition hearing (l : Listener) (acc : bool * list LogEntry) (op : Op)
  : bool * list LogEntry :=
  match op with
  | Log module' level' message' data' now =>
      if acc.1
      then (true, acc.2 ++ [mkLogEntry now level' frontend module' message' data'])
      else acc
  | ClearLogs => acc
  | Subscribe l' => if decide (l' = l) then (true, acc.2) else acc
  | Dispose l' => if decide (l' = l) then (false, acc.2) else acc
  end.

(** What [l] has been told matches what was written while it was
    subscribed. *)
Definition hears (l : Listener) (s : State) (acc : bool * list LogEntry) : Prop :=
  NoDup (listeners (bus s)) ∧
  (acc.1 = true ↔ l ∈ listeners (bus s)) ∧
  filter (λ c : Listener * LogEntry, c.1 = l) (calls (bus s)) = map (λ e, (l, e)) acc.2.
End Logger.

(** ** Developer-mode store: the fetch and the toggle
    (developer-mode-store.ts) *)

Module DeveloperMode.
Import DeveloperModeStore.

Inductive Outcome : Type :=
| Resolved (value : bool)
| Rejected (e : Err).

(** The store, the calls of [SettingsService.getDeveloperMode()] made so
    far (each with how the promise built on it settled, once known) and
    the calls of [toggle()], each with the value it computed before its
    [await] and whether it is still suspended there. *)
Record World : Type := mkWorld {
  store : Store;
  requests : list (option Outcome);
  toggles : list (bool * bool)
}.

Inductive EnsureResult : Type :=
| Value (v : bool)
| Pending (p : PromiseId).

Definition init : World := mkWorld DeveloperModeStore.init [] [].

Section Fetch.
Variable behaviour : Listener -> bool -> option Err.

Definition ensure (w : World) : EnsureResult * World :=
  match cache (store w) with
  | Some v => (Value v, w)
  | None =>
      match inflight (store w) with
      | Some p => (Pending p, w)
      | None =>
          let p := length (requests w) in
          (Pending p,
           mkWorld (mkStore (bus (store w)) (cache (store w)) (Some p))
                   (requests w ++ [None]) (toggles w))
      end
  end.

(** [this.cache = null; return this.ensure()] *)
Definition refresh (w : World) : EnsureResult * World :=
  ensure (mkWorld (mkStore (bus (store w)) None (inflight (store w)))
                  (requests w) (toggles w)).

(** [getDeveloperMode()] fulfils: [then] runs [set(value)], [finally]
    empties [inflight].  Fails when [p] is not an outstanding request. *)
Definition resolve (p : PromiseId) (value : bool) (w : World) : option World :=
  match requests w !! p with
  | Some None =>
      let s1 := set behaviour value (store w) in
      Some (mkWorld (mkStore (bus s1) (cache s1) None)
                    (<[p := Some (Resolved value)]> (requests w)) (toggles w))
  | _ => None
  end.

(** [getDeveloperMode()] rejects: only [finally] runs. *)
Definition reject (p : PromiseId) (e : Err) (w : World) : option World :=
  match requests w !! p with
  | Some None =>
      Some (mkWorld (mkStore (bus (store w)) (cache (store w)) None)
                    (<[p := Some (Rejected e)]> (requests w)) (toggles w))
  | _ => None
  end.

(** [toggle()] up to its [await]: [const newValue = !this.cache], then the
    call of [SettingsService.setDeveloperMode(newValue)]. *)
Definition toggle (w : World) : nat * World :=
  let newValue := negb (default false (cache (store w))) in
  (length (toggles w),
   mkWorld (store w) (requests w) (toggles w ++ [(newValue, true)])).

(** [setDeveloperMode] fulfils for the [i]-th toggle: [this.set(newValue)]. *)
Definition toggle_saved (i : nat) (w : World) : option World :=
  match toggles w !! i with
  | Some (newValue, true) =>
      Some (mkWorld (set behaviour newValue (store w)) (requests w)
                    (<[i := (newValue, false)]> (toggles w)))
  | _ => None
  end.

(** [setDeveloperMode] rejects: [toggle] throws at its [await]. *)
Definition toggle_failed (i : nat) (w : World) : option World :=
  match toggles w !! i with
  | Some (newValue, true) =>
      Some (mkWorld (store w) (requests w) (<[i := (newValue, false)]> (toggles w)))
  | _ => None
  end.

Definition with_store (s : Store) (w : World) : World :=
  mkWorld s (requests w) (toggles w).

(** A call into the store, or the settlement of one of its promises. *)
Inductive Op : Type :=
| Ensure
| Refresh
| Set_ (value : bool)
| Toggle
| ToggleSaved (i : nat)
| ToggleFailed (i : nat)
| Subscribe (listener : Listener)
| Dispose (d : Listener)
| RequestResolved (p : PromiseId) (value : bool)
| RequestRejected (p : PromiseId) (e : Err).

(** An event that cannot happen (a promise settling twice) changes
    nothing. *)
Definition step (op : Op) (w : World) : World :=
  match op with
  | Ensure => (ensure w).2
  | Refresh => (refresh w).2
  | Set_ value => with_store (set behaviour value (store w)) w
  | Toggle => (toggle w).2
  | ToggleSaved i => default w (toggle_saved i w)
  | ToggleFailed i => default w (toggle_failed i w)
  | Subscribe listener => with_store (subscribe behaviour listener (store w)).2 w
  | Dispose d =>
      with_store
        (mkStore (delete_listener d (bus (store w))) (cache (store w))
                 (inflight (store w))) w
  | RequestResolved p value => default w (resolve p value w)
  | RequestRejected p e => default w (reject p e w)
  end.

Definition run (ops : list Op) (w : World) : World :=
  fold_left (λ w op, step op w) ops w.

(** [inflight] names the one request that has not settled. *)
Definition one_request (w : World) : Prop :=
  ∀ p, requests w !! p = Some None ↔ inflight (store w) = Some p.
End Fetch.
End DeveloperMode.

(** ** The user store wired to the account scope
    (user-store.ts, account-scope.ts)

    [UserStore] extends the resource store of [User] records, overrides
    [set], implements [load] and registers two callbacks with the account
    scope in its constructors.  The world below is the account scope with
    these two callbacks as its listeners. *)

Module UserWorld.
Section World.
Context {User Friend : Type}.
(** [user.id] *)
Variable user_id : User -> string.
Variable on_user : Listener -> option User -> option Err.
Variable on_friends : Listener -> option (list Friend) -> option Err.

(** A [User] is an object, and objects are truthy. *)
Definition truthy (_ : User) : bool := true.

Record World : Type := mkWorld {
  currentAccountId : ScopeId;
  user : @ResourceStore.Store User;
  friends : @UserStore.Friends Friend
}.

Definition with_user (us : @ResourceStore.Store User) (w : World) : World :=
  mkWorld (currentAccountId w) us (friends w).

Definition with_friends (fr : @UserStore.Friends Friend) (w : World) : World :=
  mkWorld (currentAccountId w) (user w) fr.

(** The callback of the [UserStore] constructor:
    [this.emitFriends(this.getFriendsSnapshot())], where
    [getCurrentScopeId()] now answers [accountId]. *)
Definition onActiveAccountFriends (accountId : ScopeId) (fr : @UserStore.Friends Friend)
  : UserStore.Friends :=
  let fr1 :=
    UserStore.mkFriends (UserStore.friendListeners fr) (UserStore.friendStates fr)
                        accountId (UserStore.fetches fr) in
  UserStore.emitFriends on_friends (UserStore.getFriendsSnapshot None fr1) fr1.

(** [setActiveAccountId(accountId)]: the listeners run in subscription
    order, the callback of the [ResourceStore] constructor before the one
    of the [UserStore] constructor. *)
Definition setActiveAccountId (accountId : ScopeId) (w : World) : World :=
  if decide (currentAccountId w = accountId) then w
  else
    mkWorld accountId
      (ResourceStore.onActiveAccount on_user accountId (user w))
      (onActiveAccountFriends accountId (friends w)).

(** [new UserStore()] while the account scope holds [accountId]: both
    subscriptions replay the current account id. *)
Definition create (stale_time : option Z) (accountId : ScopeId) : World :=
  mkWorld accountId
    (ResourceStore.create on_user stale_time accountId)
    (onActiveAccountFriends accountId (UserStore.mkFriends empty_bus ∅ accountId [])).

(** [UserStore.set]: without a [scopeId] option the scope is the id of
    the user written. *)
Definition set (value : option User) (options : ResourceStore.SetOptions) (now : Z)
    (w : World) : World :=
  let undefined_scope :=
    match ResourceStore.set_scopeId options with
    | ScopeAbsent | ScopeUndefined => true
    | _ => false
    end in
  let scopeId : ScopeId :=
    match ResourceStore.set_scopeId options with
    | ScopeAbsent | ScopeUndefined =>
        match value with
        | Some u => Some (user_id u)
        | None => ResourceStore.getCurrentScopeId (user w)
        end
    | ScopeNull => None
    | ScopeStr id => Some id
    end in
  let w1 :=
    if undefined_scope && bool_decide (is_Some value)
       && bool_decide (scopeId = ResourceStore.getCurrentScopeId (user w))
    then setActiveAccountId scopeId w
    else w in
  with_user
    (ResourceStore.set truthy on_user value
       (ResourceStore.mkSetOptions (ResourceStore.stale options) (scope_arg scopeId))
       now (user w1))
    w1.

(** The scope [UserStore.set] hands to the inherited [set]. *)
Definition set_target (value : option User) (options : ResourceStore.SetOptions)
    (w : World) : ScopeId :=
  match ResourceStore.set_scopeId options with
  | ScopeAbsent | ScopeUndefined =>
      match value with
      | Some u => Some (user_id u)
      | None => ResourceStore.activeAccountId (user w)
      end
  | ScopeNull => None
  | ScopeStr id => Some id
  end.

(** [clear] calls the overridden [set] with [{ scopeId }]. *)
Definition clear (scopeArg : ScopeArg) (w : World) : World :=
  let scopeId := nullish scopeArg (ResourceStore.activeAccountId (user w)) in
  set None (ResourceStore.mkSetOptions None (scope_arg scopeId)) 0 w.

(** [VRChatService.getCurrentUser()] fulfils with [u] for the [p]-th call
    of [load]: the rest of [load] runs ([setActiveAccountId(user.id)] when
    the scope it was called for is not [user.id]), then the [then]
    callback of [ensure] with [this.set(value, { scopeId })], then its
    [finally] callback.  Fails when [p] is not an outstanding fetch. *)
Definition user_loaded (p : PromiseId) (u : User) (now : Z) (w : World) : option World :=
  match ResourceStore.loads (user w) !! p with
  | Some (ResourceStore.mkLoad scopeId None) =>
      let w1 :=
        if decide (scopeId = Some (user_id u)) then w
        else setActiveAccountId (Some (user_id u)) w in
      let w2 :=
        set (Some u) (ResourceStore.mkSetOptions None (scope_arg scopeId)) now w1 in
      let us :=
        ResourceStore.modify scopeId
          (λ st, ResourceStore.mkState (ResourceStore.cache st) None
                                       (ResourceStore.updatedAt st))
          (user w2) in
      Some (with_user (ResourceStore.settle p (ResourceStore.Resolved u) us) w2)
  | _ => None
  end.

(** [getCurrentUser()] rejects: [load] rejects and only [finally] runs. *)
Definition user_load_failed (p : PromiseId) (e : Err) (w : World) : option World :=
  match ResourceStore.reject_load p e (user w) with
  | Some us => Some (with_user us w)
  | None => None
  end.

(** A call into the user store or the account scope, or the settlement
    of a request. *)
Inductive Op : Type :=
| SetActiveAccount (accountId : ScopeId)
| Set_ (value : option User) (options : ResourceStore.SetOptions) (now : Z)
| Clear (scopeArg : ScopeArg)
| MarkStale (scopeArg : ScopeArg)
| Ensure (options : ResourceStore.EnsureOptions) (now : Z)
| Subscribe (listener : Listener)
| Dispose (d : Listener)
| UserLoaded (p : PromiseId) (u : User) (now : Z)
| UserLoadFailed (p : PromiseId) (e : Err)
| SetFriends (value : option (list Friend)) (options : ResourceStore.SetOptions) (now : Z)
| ClearFriends (scopeArg : ScopeArg)
| MarkFriendsStale (scopeArg : ScopeArg)
| EnsureFriends (options : ResourceStore.EnsureOptions) (now : Z)
| SubscribeFriends (listener : Listener)
| FriendsLoaded (p : PromiseId) (value : list Friend) (now : Z)
| FriendsLoadFailed (p : PromiseId) (e : Err).

Definition step (op : Op) (w : World) : World :=
  match op with
  | SetActiveAccount accountId => setActiveAccountId accountId w
  | Set_ value options now => set value options now w
  | Clear scopeArg => clear scopeArg w
  | MarkStale scopeArg => with_user (ResourceStore.markStale truthy scopeArg (user w)) w
  | Ensure options now => with_user (ResourceStore.ensure truthy options now (user w)).2 w
  | Subscribe listener => with_user (ResourceStore.subscribe on_user listener (user w)).2 w
  | Dispose d => with_user (ResourceStore.dispose d (user w)) w
  | UserLoaded p u now => default w (user_loaded p u now w)
  | UserLoadFailed p e => default w (user_load_failed p e w)
  | SetFriends value options now =>
      with_friends (UserStore.setFriends on_friends value options now (friends w)) w
  | ClearFriends scopeArg =>
      with_friends (UserStore.clearFriends on_friends scopeArg (friends w)) w
  | MarkFriendsStale scopeArg =>
      with_friends (UserStore.markFriendsStale scopeArg (friends w)) w
  | EnsureFriends options now =>
      with_friends (UserStore.ensureFriends options now (friends w)).2 w
  | SubscribeFriends listener =>
      with_friends (UserStore.subscribeFriends on_friends listener (friends w)).2 w
  | FriendsLoaded p value now =>
      with_friends
        (default (friends w) (UserStore.resolve_fetch on_friends p value now (friends w))) w
  | FriendsLoadFailed p e =>
      with_friends (default (friends w) (UserStore.reject_fetch p e (friends w))) w
  end.

Definition run (ops : list Op) (w : World) : World :=
  fold_left (λ w op, step op w) ops w.

(** The store's private copy of the account id, and what
    [getCurrentScopeId()] answers in the friends code, agree with the
    account scope. *)
Definition in_sync (w : World) : Prop :=
  ResourceStore.activeAccountId (user w) = currentAccountId w ∧
  UserStore.currentScopeId (friends w) = currentAccountId w.
End World.
End UserWorld.

(** Worlds of the user store in which a user record is its own id. *)

(** No account is active; the first [ensure()] has called [load(null)]. *)
Definition login_world : @UserWorld.World string nat :=
  UserWorld.step id quiet quiet (UserWorld.Ensure ResourceStore.no_ensure_options 0)
    (UserWorld.step id quiet quiet (UserWorld.Subscribe 0%nat)
       (UserWorld.create quiet quiet None None)).

(** The account [usr_a] is active, has one subscriber, and [ensure()] has
    called [load("usr_a")]. *)
Definition world_of_a : @UserWorld.World string nat :=
  UserWorld.step id quiet quiet (UserWorld.Ensure ResourceStore.no_ensure_options 0)
    (UserWorld.step id quiet quiet (UserWorld.Subscribe 0%nat)
       (UserWorld.create quiet quiet None (Some "usr_a"))).

(** ** Accounts store (accounts-store.ts) *)

Module AccountsStore.
Section Store.
Context {Account : Type}.
(** [account.user_id] *)
Variable account_user_id : Account -> string.
Variable behaviour : Listener -> option (list Account) -> option Err.

Inductive Outcome : Type :=
| Resolved (v : list Account)
| Rejected (e : Err).

(** The fields of the store and the calls of
    [AccountService.getAllAccounts()] made so far, each with how the
    promise built on it settled, once known. *)
Record Store : Type := mkStore {
  bus : Bus (option (list Account));
  cache : option (list Account);
  inflight : option PromiseId;
  updatedAt : Z;
  staleTime : Z;
  requests : list (option Outcome)
}.

Inductive EnsureResult : Type :=
| Value (v : list Account)
| Pending (p : PromiseId).

Definition create (stale_time : option Z) : Store :=
  mkStore empty_bus None None 0 (default 60000 stale_time) [].

Definition with_bus (b : Bus (option (list Account))) (s : Store) : Store :=
  mkStore b (cache s) (inflight s) (updatedAt s) (staleTime s) (requests s).

Definition getSnapshot (s : Store) : option (list Account) := cache s.

Definition subscribe (listener : Listener) (s : Store) : Completion Listener * Store :=
  let '(r, b) := subscribe_bus behaviour listener (cache s) (bus s) in
  (r, with_bus b s).

Definition dispose (d : Listener) (s : Store) : Store :=
  with_bus (delete_listener d (bus s)) s.

Definition emit (value : option (list Account)) (s : Store) : Store :=
  with_bus (notify behaviour "AccountsStore listener error" value (bus s)) s.

(** An array is truthy, also when it is empty. *)
Definition isStale (s : Store) (now : Z) : bool :=
  match cache s with
  | None => true
  | Some _ => now - updatedAt s >? staleTime s
  end.

Definition set (value : option (list Account)) (stale : option bool) (now : Z) (s : Store)
  : Store :=
  let stamp :=
    if bool_decide (is_Some value) && negb (default false stale) then now else 0 in
  emit value (mkStore (bus s) value (inflight s) stamp (staleTime s) (requests s)).

(** [clear] writes [null] and never reads the clock. *)
Definition clear (s : Store) : Store := set None None 0 s.

Definition ensure (force : option bool) (now : Z) (s : Store) : EnsureResult * Store :=
  let frc := default false force in
  match cache s with
  | Some v =>
      if negb frc && negb (isStale s now) then (Value v, s)
      else
        match inflight s with
        | Some p => (Pending p, s)
        | None =>
            (Pending (length (requests s)),
             mkStore (bus s) (cache s) (Some (length (requests s))) (updatedAt s)
                     (staleTime s) (requests s ++ [None]))
        end
  | None =>
      match inflight s with
      | Some p => (Pending p, s)
      | None =>
          (Pending (length (requests s)),
           mkStore (bus s) (cache s) (Some (length (requests s))) (updatedAt s)
                   (staleTime s) (requests s ++ [None]))
      end
  end.

Definition refresh (now : Z) (s : Store) : EnsureResult * Store :=
  ensure (Some true) now s.

(** [getAllAccounts()] fulfils: [then] runs [set(accounts)], [finally]
    empties [inflight].  Fails when [p] is not an outstanding request. *)
Definition resolve (p : PromiseId) (accounts : list Account) (now : Z) (s : Store)
  : option Store :=
  match requests s !! p with
  | Some None =>
      let s1 := set (Some accounts) None now s in
      Some (mkStore (bus s1) (cache s1) None (updatedAt s1) (staleTime s1)
                    (<[p := Some (Resolved accounts)]> (requests s1)))
  | _ => None
  end.

Definition reject (p : PromiseId) (e : Err) (s : Store) : option Store :=
  match requests s !! p with
  | Some None =>
      Some (mkStore (bus s) (cache s) None (updatedAt s) (staleTime s)
                    (<[p := Some (Rejected e)]> (requests s)))
  | _ => None
  end.

(** [removeAccount(userId)] after [AccountService.removeAccount] has
    fulfilled. *)
Definition removeAccount_done (userId : string) (now : Z) (s : Store) : Store :=
  match cache s with
  | Some accounts =>
      set (Some (filter (λ account, account_user_id account ≠ userId) accounts)) None now s
  | None => s
  end.

(** [clearAll()] after [AccountService.clearAllAccounts] has fulfilled. *)
Definition clearAll_done (s : Store) : Store := clear s.

(** [saveFromUser(user)] after [AccountService.saveCurrentAccount] has
    fulfilled: [await this.refresh()]. *)
Definition saveFromUser_saved (now : Z) (s : Store) : EnsureResult * Store :=
  refresh now s.

(** A call into the store, or the completion of a service call. *)
Inductive Op : Type :=
| Ensure (force : option bool) (now : Z)
| Set_ (value : option (list Account)) (stale : option bool) (now : Z)
| Clear
| Subscribe (listener : Listener)
| Dispose (d : Listener)
| RequestResolved (p : PromiseId) (accounts : list Account) (now : Z)
| RequestRejected (p : PromiseId) (e : Err)
| AccountRemoved (userId : string) (now : Z)
| AllCleared
| UserSaved (now : Z).

Definition step (op : Op) (s : Store) : Store :=
  match op with
  | Ensure force now => (ensure force now s).2
  | Set_ value stale now => set value stale now s
  | Clear => clear s
  | Subscribe listener => (subscribe listener s).2
  | Dispose d => dispose d s
  | RequestResolved p accounts now => default s (resolve p accounts now s)
  | RequestRejected p e => default s (reject p e s)
  | AccountRemoved userId now => removeAccount_done userId now s
  | AllCleared => clearAll_done s
  | UserSaved now => (saveFromUser_saved now s).2
  end.

Definition run (ops : list Op) (s : Store) : Store :=
  fold_left (λ s op, step op s) ops s.

(** [inflight] names the one request that has not settled. *)
Definition one_request (s : Store) : Prop :=
  ∀ p, requests s !! p = Some None ↔ inflight s = Some p.
End Store.
End AccountsStore.

(** An accounts store holding two accounts, written at time 0 and stale
    since; accounts are their user ids. *)
Definition two_accounts : @AccountsStore.Store string :=
  AccountsStore.set quiet (Some ["usr_a"; "usr_b"]) None 0
    (AccountsStore.create (Some 1000)).

(** * Properties *)

(** ** Notification *)

Section NotifyFacts.
Context {V : Type}.
Variable behaviour : Listener -> V -> option Err.

Lemma guarded_loop msg v ls b :
  fold_left (call_guarded behaviour msg v) ls b =
  mkBus (listeners b)
        (calls b ++ map (λ l, (l, v)) ls)
        (errlog b ++ caught behaviour msg v ls).
Proof.
  revert b. induction ls as [|l ls IH]; intros b; simpl.
  - rewrite !app_nil_r. by destruct b.
  - rewrite IH. unfold call_guarded, call, caught. simpl.
    destruct (behaviour l v) as [e|]; simpl;
      rewrite <- ?app_assoc; reflexivity.
Qed.

Lemma notify_listeners msg v b :
  listeners (notify behaviour msg v b) = listeners b.
Proof. unfold notify. by rewrite guarded_loop. Qed.

Lemma notify_calls msg v b :
  calls (notify behaviour msg v b) = calls b ++ map (λ l, (l, v)) (listeners b).
Proof. unfold notify. by rewrite guarded_loop. Qed.

Lemma notify_errlog msg v b :
  errlog (notify behaviour msg v b) = errlog b ++ caught behaviour msg v (listeners b).
Proof. unfold notify. by rewrite guarded_loop. Qed.

Lemma add_listener_elem l (b : Bus V) : l ∈ listeners (add_listener l b).
Proof.
  unfold add_listener. case_decide; simpl; [done|].
  apply elem_of_app. right. by apply list_elem_of_singleton.
Qed.

Lemma delete_listener_gone l (b : Bus V) : l ∉ listeners (delete_listener l b).
Proof.
  unfold delete_listener. simpl. intros H.
  apply list_elem_of_filter in H. by destruct H.
Qed.

Lemma subscribe_bus_calls l v b :
  calls (subscribe_bus behaviour l v b).2 = calls b ++ [(l, v)].
Proof.
  unfold subscribe_bus, call, add_listener.
  destruct (behaviour l v); case_decide; reflexivity.
Qed.

Lemma subscribe_bus_listeners l v b :
  l ∈ listeners (subscribe_bus behaviour l v b).2.
Proof.
  unfold subscribe_bus, call.
  destruct (behaviour l v); simpl; apply add_listener_elem.
Qed.

Lemma subscribe_bus_result l v b :
  (subscribe_bus behaviour l v b).1 =
  match behaviour l v with None => Normal l | Some e => Throw e end.
Proof. unfold subscribe_bus, call. by destruct (behaviour l v). Qed.
End NotifyFacts.

(** ** Resource store: the frame of each operation *)

Section ResourceFacts.
Context {T : Type}.
Variable truthy : T -> bool.
Variable behaviour : Listener -> option T -> option Err.

Import ResourceStore.

Local Abbreviation Store := (@ResourceStore.Store T).
Local Abbreviation set := (ResourceStore.set truthy behaviour).
Local Abbreviation emit := (ResourceStore.emit behaviour).
Local Abbreviation ensure := (ResourceStore.ensure truthy).
Local Abbreviation isStale := (ResourceStore.isStale truthy).

Lemma getState_result scopeId (s : Store) :
  (getState scopeId s).1 = entry s scopeId.
Proof.
  unfold getState, entry. by destruct (states s !! scopeKey scopeId).
Qed.

Lemma getState_entry scopeId scopeId' (s : Store) :
  entry (getState scopeId s).2 scopeId' = entry s scopeId'.
Proof.
  unfold getState, entry.
  destruct (states s !! scopeKey scopeId) eqn:E; simpl; [done|].
  destruct (decide (scopeKey scopeId = scopeKey scopeId')) as [<-|Hne].
  - by rewrite lookup_insert_eq, E.
  - by rewrite lookup_insert_ne.
Qed.

Lemma getState_present scopeId (s : Store) :
  states (getState scopeId s).2 !! scopeKey scopeId = Some (entry s scopeId).
Proof.
  unfold getState, entry.
  destruct (states s !! scopeKey scopeId) eqn:E; simpl; [done|].
  by rewrite lookup_insert_eq.
Qed.

Lemma getState_frame scopeId (s : Store) :
  bus (getState scopeId s).2 = bus s ∧
  activeAccountId (getState scopeId s).2 = activeAccountId s ∧
  staleTime (getState scopeId s).2 = staleTime s ∧
  loads (getState scopeId s).2 = loads s.
Proof.
  unfold getState. by destruct (states s !! scopeKey scopeId).
Qed.

Lemma modify_entry_eq scopeId scopeId' f (s : Store) :
  scopeKey scopeId' = scopeKey scopeId ->
  is_Some (states s !! scopeKey scopeId) ->
  entry (modify scopeId f s) scopeId' = f (entry s scopeId).
Proof.
  intros Hk [st Hst]. unfold modify, entry. simpl.
  rewrite Hk, lookup_alter_eq, Hst. reflexivity.
Qed.

Lemma modify_entry_ne scopeId scopeId' f (s : Store) :
  scopeKey scopeId' ≠ scopeKey scopeId ->
  entry (modify scopeId f s) scopeId' = entry s scopeId'.
Proof.
  intros Hk. unfold modify, entry. simpl.
  by rewrite lookup_alter_ne.
Qed.

(** [set] seen through [entry]: the written partition. *)
Lemma set_entry_written value options now (s : Store) scopeId' :
  scopeKey scopeId' = scopeKey (nullish (set_scopeId options) (activeAccountId s)) ->
  entry (set value options now s) scopeId' =
  mkState value
    (inflight (entry s scopeId'))
    (if is_truthy truthy value && negb (default false (stale options)) then now else 0).
Proof.
  intros Hk. unfold ResourceStore.set.
  set (scopeId := nullish _ _) in *.
  destruct (getState scopeId s) as [st s1] eqn:E.
  assert (Hs1 : s1 = (getState scopeId s).2) by (by rewrite E).
  assert (Hw : entry (modify scopeId
             (λ st0, mkState value (inflight st0)
                (if is_truthy truthy value && negb (default false (stale options))
                 then now else 0)) s1) scopeId'
           = mkState value (inflight (entry s scopeId'))
                (if is_truthy truthy value && negb (default false (stale options))
                 then now else 0)).
  { rewrite (modify_entry_eq scopeId scopeId') by
      (try done; subst s1; rewrite getState_present; eauto).
    subst s1. rewrite getState_entry.
    unfold entry. by rewrite Hk. }
  case_decide; [|exact Hw].
  unfold ResourceStore.emit, entry in *. exact Hw.
Qed.

(** [set] seen through [entry]: every other partition. *)
Lemma set_entry_other value options now (s : Store) scopeId' :
  scopeKey scopeId' ≠ scopeKey (nullish (set_scopeId options) (activeAccountId s)) ->
  entry (set value options now s) scopeId' = entry s scopeId'.
Proof.
  intros Hk. unfold ResourceStore.set.
  set (scopeId := nullish _ _) in *.
  destruct (getState scopeId s) as [st s1] eqn:E.
  assert (Hs1 : s1 = (getState scopeId s).2) by (by rewrite E).
  assert (Hw : ∀ f, entry (modify scopeId f s1) scopeId' = entry s scopeId').
  { intros f. rewrite modify_entry_ne by done. subst s1. apply getState_entry. }
  case_decide; [|apply Hw].
  unfold ResourceStore.emit, entry in *. apply Hw.
Qed.

Lemma set_bus value options now (s : Store) :
  bus (set value options now s) =
  if decide (nullish (set_scopeId options) (activeAccountId s) = activeAccountId s)
  then notify behaviour "ResourceStore listener error" value (bus s)
  else bus s.
Proof.
  unfold ResourceStore.set.
  set (scopeId := nullish _ _) in *.
  destruct (getState scopeId s) as [st s1] eqn:E.
  assert (Hb : bus s1 = bus s).
  { replace s1 with (getState scopeId s).2 by (by rewrite E).
    apply getState_frame. }
  case_decide; simpl; by rewrite ?Hb.
Qed.

Lemma set_frame value options now (s : Store) :
  activeAccountId (set value options now s) = activeAccountId s ∧
  staleTime (set value options now s) = staleTime s ∧
  loads (set value options now s) = loads s.
Proof.
  unfold ResourceStore.set.
  set (scopeId := nullish _ _) in *.
  destruct (getState scopeId s) as [st s1] eqn:E.
  assert (Hf := getState_frame scopeId s). rewrite E in Hf. simpl in Hf.
  destruct Hf as (_ & Ha & Hs & Hl).
  case_decide; simpl; by rewrite ?Ha, ?Hs, ?Hl.
Qed.

Lemma getSnapshot_result arg (s : Store) :
  (getSnapshot arg s).1 = cache (entry s (default (activeAccountId s) arg)).
Proof.
  unfold getSnapshot.
  destruct (getState _ s) as [st s1] eqn:E. simpl.
  replace st with (getState (default (activeAccountId s) arg) s).1 by (by rewrite E).
  by rewrite getState_result.
Qed.

Lemma getSnapshot_frame arg (s : Store) scopeId :
  bus (getSnapshot arg s).2 = bus s ∧
  activeAccountId (getSnapshot arg s).2 = activeAccountId s ∧
  entry (getSnapshot arg s).2 scopeId = entry s scopeId.
Proof.
  unfold getSnapshot.
  destruct (getState _ s) as [st s1] eqn:E. simpl.
  replace s1 with (getState (default (activeAccountId s) arg) s).2 by (by rewrite E).
  rewrite getState_entry.
  destruct (getState_frame (default (activeAccountId s) arg) s) as (?&?&?&?).
  done.
Qed.
End ResourceFacts.

(** ** Resource store: staleness and scope isolation *)

Section ResourceClaims.
Context {T : Type}.
Variable truthy : T -> bool.
Variable behaviour : Listener -> option T -> option Err.

Import ResourceStore.

Local Abbreviation Store := (@ResourceStore.Store T).
Local Abbreviation set := (ResourceStore.set truthy behaviour).
Local Abbreviation isStale := (ResourceStore.isStale truthy).

(** A truthy value written by [set] at time [t0] without [stale] is
    reported fresh by [isStale] at every time [t <= t0 + staleTime] and
    stale at every time [t > t0 + staleTime]. *)
Lemma resource_staleness_boundary (v : T) (options : SetOptions) (t0 t : Z) (s : Store) :
  truthy v = true ->
  default false (stale options) = false ->
  let s' := set (Some v) options t0 s in
  let state := entry s' (nullish (set_scopeId options) (activeAccountId s)) in
  (t <= t0 + staleTime s -> isStale s' state t = false) ∧
  (t0 + staleTime s < t -> isStale s' state t = true).
Proof.
  intros Hv Hst s' state.
  assert (Hstate : state = mkState (Some v) (inflight (entry s (nullish (set_scopeId options) (activeAccountId s)))) t0).
  { unfold state, s'. rewrite set_entry_written by done.
    simpl. by rewrite Hv, Hst. }
  assert (HW : staleTime s' = staleTime s) by apply set_frame.
  unfold ResourceStore.isStale. rewrite Hstate, HW. simpl. rewrite Hv. simpl.
  split; intros Ht; lia.
Qed.

(** C4 (as amended).  Scope isolation: writing a non-null scope [a] whose
    storage key differs from the key of the active scope calls no
    subscriber, leaves the snapshot of the active scope unchanged and is
    read back by [getSnapshot(a)]; and for any [set], the subscribers
    called are exactly all of them when the scope written is the active
    one, and none otherwise. *)
Theorem set_inactive_scope_isolated (a : string) (v : option T) (st : option bool)
    (now : Z) (s : Store) :
  scopeKey (Some a) ≠ scopeKey (activeAccountId s) ->
  let s' := set v (mkSetOptions st (ScopeStr a)) now s in
  calls (bus s') = calls (bus s) ∧
  (getSnapshot (Some (activeAccountId s)) s').1 =
    (getSnapshot (Some (activeAccountId s)) s).1 ∧
  (getSnapshot (Some (Some a)) s').1 = v ∧
  ∀ options,
    calls (bus (set v options now s)) =
    calls (bus s) ++
      (if decide (nullish (set_scopeId options) (activeAccountId s) = activeAccountId s)
       then map (λ l, (l, v)) (listeners (bus s)) else []).
Proof.
  intros Hk s'.
  assert (Hne : Some a ≠ activeAccountId s) by (intros E; apply Hk; by rewrite E).
  repeat split.
  - unfold s'. rewrite set_bus. simpl. by rewrite decide_False.
  - rewrite !getSnapshot_result. simpl. unfold s'.
    rewrite set_entry_other; [done|]. simpl. intros E. apply Hk. by rewrite E.
  - rewrite getSnapshot_result. simpl. unfold s'.
    by rewrite set_entry_written.
  - intros options. rewrite set_bus. case_decide.
    + apply notify_calls.
    + by rewrite app_nil_r.
Qed.
End ResourceClaims.

(** C3, counterexample: with a window of 1000 ms a value written at 5 ms is
    still reported fresh at 1005 ms, the first instant the sentence calls
    stale. *)
Lemma staleness_from_window_fails :
  ¬ Claims.staleness_from_window any_truthy quiet
      store0 7%nat 5 1005.
Proof.
  intros [_ H]. vm_compute in H. specialize (H ltac:(discriminate)). discriminate H.
Qed.

(** C4, witness: a background write to [usr_a] while [usr_b] is active. *)
Lemma set_inactive_scope_isolated_witness :
  let s' :=
    ResourceStore.set any_truthy quiet (Some 7%nat)
      (ResourceStore.mkSetOptions None (ScopeStr "usr_a")) 5 store_of_b in
  calls (ResourceStore.bus s') = calls (ResourceStore.bus store_of_b) ∧
  (ResourceStore.getSnapshot (Some (Some "usr_b")) s').1 = None ∧
  (ResourceStore.getSnapshot (Some (Some "usr_a")) s').1 = Some 7%nat.
Proof.
  destruct (set_inactive_scope_isolated any_truthy quiet "usr_a" (Some 7%nat) None 5
              store_of_b ltac:(vm_compute; discriminate)) as (H1 & H2 & H3 & _).
  split; [exact H1|]. split; [|exact H3].
  etransitivity; [exact H2|]. reflexivity.
Defined.

(** C4, counterexample: the scope written is [null] and the active scope
    is [usr_b]; the two differ, yet the subscriber is called (and the value
    lands in the partition of [usr_b]). *)
Lemma write_is_isolated_fails :
  ¬ Claims.write_is_isolated any_truthy quiet store_of_b (Some 7%nat) None 5.
Proof.
  intros H. specialize (H ltac:(discriminate)). destruct H as [H _].
  vm_compute in H. discriminate H.
Qed.

(** ** Resource store: [ensure] and the settlement of a fetch *)

Section EnsureFacts.
Context {T : Type}.
Variable truthy : T -> bool.
Variable behaviour : Listener -> option T -> option Err.

Import ResourceStore.

Local Abbreviation Store := (@ResourceStore.Store T).
Local Abbreviation set := (ResourceStore.set truthy behaviour).
Local Abbreviation ensure := (ResourceStore.ensure truthy).
Local Abbreviation served := (ResourceStore.served truthy).
Local Abbreviation resolve_load := (ResourceStore.resolve_load truthy behaviour).

Import Runs.

Lemma served_frame frc (s s' : Store) state now :
  staleTime s' = staleTime s -> served frc s' state now = served frc s state now.
Proof.
  intros H. unfold ResourceStore.served, isStale. by rewrite H.
Qed.

(** A call that finds a value it may serve. *)
Lemma ensure_hit options now (s : Store) v :
  served (default false (force options)) s (entry s (ensure_target options s)) now = Some v ->
  ensure options now s = (Value v, (getState (ensure_target options s) s).2).
Proof.
  intros Hs. unfold ResourceStore.ensure. fold (ensure_target options s).
  destruct (getState (ensure_target options s) s) as [st s1] eqn:E.
  assert (st = entry s (ensure_target options s)) as ->.
  { rewrite <- getState_result. by rewrite E. }
  assert (Hf : staleTime s1 = staleTime s).
  { replace s1 with (getState (ensure_target options s) s).2 by (by rewrite E).
    apply getState_frame. }
  rewrite (served_frame _ s s1) by done. by rewrite Hs.
Qed.

(** A call that finds a fetch in flight joins it and changes nothing
    else. *)
Lemma ensure_join options now (s : Store) p :
  served (default false (force options)) s (entry s (ensure_target options s)) now = None ->
  inflight (entry s (ensure_target options s)) = Some p ->
  ensure options now s = (Pending p, s).
Proof.
  intros Hs Hp. unfold ResourceStore.ensure. fold (ensure_target options s).
  set (target := ensure_target options s) in *.
  assert (Hpres : is_Some (states s !! scopeKey target)).
  { unfold entry in Hp. destruct (states s !! scopeKey target); [eauto|done]. }
  destruct Hpres as [st0 Hst0].
  assert (E : getState target s = (entry s target, s)).
  { unfold getState, entry. by rewrite Hst0. }
  rewrite E. by rewrite Hs, Hp.
Qed.

(** A call that finds neither invokes [load] and fills the slot. *)
Lemma ensure_miss options now (s : Store) :
  served (default false (force options)) s (entry s (ensure_target options s)) now = None ->
  inflight (entry s (ensure_target options s)) = None ->
  ensure options now s =
    (Pending (length (loads s)),
     modify (ensure_target options s) (mark (length (loads s)))
       (with_loads (loads s ++ [mkLoad (ensure_target options s) None])
          (getState (ensure_target options s) s).2)).
Proof.
  intros Hs Hp. unfold ResourceStore.ensure. fold (ensure_target options s).
  set (target := ensure_target options s) in *.
  destruct (getState target s) as [st s1] eqn:E.
  assert (st = entry s target) as ->.
  { rewrite <- getState_result. by rewrite E. }
  assert (Hf := getState_frame target s). rewrite E in Hf. simpl in Hf.
  destruct Hf as (_ & _ & Hst & Hl).
  rewrite (served_frame _ s s1) by done. rewrite Hs, Hp, Hl. reflexivity.
Qed.

Lemma settle_frame p o (s : Store) scopeId :
  bus (settle p o s) = bus s ∧
  activeAccountId (settle p o s) = activeAccountId s ∧
  staleTime (settle p o s) = staleTime s ∧
  entry (settle p o s) scopeId = entry s scopeId.
Proof. unfold settle. by destruct (loads s !! p). Qed.

Lemma settle_outcome p o (s : Store) ld :
  loads s !! p = Some ld -> outcome_of (settle p o s) (Pending p) = Some o.
Proof.
  intros H. unfold settle, outcome_of. rewrite H. simpl.
  rewrite list_lookup_insert_eq; [done|]. by eapply lookup_lt_Some.
Qed.

Lemma modify_present scopeId scopeId' f (s : Store) :
  is_Some (states s !! scopeKey scopeId') ->
  is_Some (states (modify scopeId f s) !! scopeKey scopeId').
Proof.
  intros [st H]. unfold modify. simpl.
  destruct (decide (scopeKey scopeId = scopeKey scopeId')) as [E|E].
  - rewrite E, lookup_alter_eq, H. eauto.
  - rewrite lookup_alter_ne by done. eauto.
Qed.

Lemma set_present value options now (s : Store) scopeId' :
  is_Some (states s !! scopeKey scopeId') ->
  is_Some (states (set value options now s) !! scopeKey scopeId').
Proof.
  intros H. unfold ResourceStore.set.
  set (scopeId := nullish _ _).
  destruct (getState scopeId s) as [st s1] eqn:E.
  assert (H1 : is_Some (states s1 !! scopeKey scopeId')).
  { replace s1 with (getState scopeId s).2 by (by rewrite E).
    unfold getState. destruct (states s !! scopeKey scopeId) eqn:E'; simpl; [done|].
    destruct (decide (scopeKey scopeId = scopeKey scopeId')) as [<-|Hne].
    - rewrite lookup_insert_eq. eauto.
    - by rewrite lookup_insert_ne. }
  case_decide; simpl; by apply modify_present.
Qed.

(** The store after a call that invoked [load], seen through [entry]. *)
Lemma ensure_miss_entry options now (s : Store) scopeId :
  served (default false (force options)) s (entry s (ensure_target options s)) now = None ->
  inflight (entry s (ensure_target options s)) = None ->
  let s1 := (ensure options now s).2 in
  entry s1 scopeId =
    (if decide (scopeKey scopeId = scopeKey (ensure_target options s))
     then mark (length (loads s)) (entry s scopeId) else entry s scopeId) ∧
  is_Some (states s1 !! scopeKey (ensure_target options s)) ∧
  bus s1 = bus s ∧ activeAccountId s1 = activeAccountId s ∧
  staleTime s1 = staleTime s ∧
  loads s1 = loads s ++ [mkLoad (ensure_target options s) None].
Proof.
  intros Hs Hp. rewrite ensure_miss by done. simpl.
  set (target := ensure_target options s) in *.
  destruct (getState_frame target s) as (Hb & Ha & Hst & Hl).
  assert (Hpres : is_Some (states (with_loads (loads s ++ [mkLoad target None])
                                      (getState target s).2) !! scopeKey target)).
  { simpl. rewrite getState_present. eauto. }
  split; [|split; [by apply modify_present|done]].
  case_decide as Hk.
  - rewrite (modify_entry_eq target scopeId) by done.
    f_equal. change (entry (getState target s).2 target = entry s scopeId).
    rewrite getState_entry. unfold entry. by rewrite Hk.
  - rewrite modify_entry_ne by done.
    change (entry (getState target s).2 scopeId = entry s scopeId).
    apply getState_entry.
Qed.
End EnsureFacts.

Section SettleFacts.
Context {T : Type}.
Variable truthy : T -> bool.
Variable behaviour : Listener -> option T -> option Err.

Import ResourceStore Runs.

Local Abbreviation Store := (@ResourceStore.Store T).
Local Abbreviation set := (ResourceStore.set truthy behaviour).
Local Abbreviation ensure := (ResourceStore.ensure truthy).
Local Abbreviation served := (ResourceStore.served truthy).
Local Abbreviation resolve_load := (ResourceStore.resolve_load truthy behaviour).

(** [ensure] invokes [load] exactly when it finds neither a value to
    serve nor a fetch in flight. *)
Lemma ensure_invokes_load options now (s : Store) :
  length (loads (ensure options now s).2) = S (length (loads s)) ->
  served (default false (force options)) s (entry s (ensure_target options s)) now = None ∧
  inflight (entry s (ensure_target options s)) = None.
Proof.
  intros H.
  destruct (served (default false (force options)) s
              (entry s (ensure_target options s)) now) as [v|] eqn:Hs.
  - rewrite (ensure_hit truthy options now s v Hs) in H. simpl in H.
    destruct (getState_frame (ensure_target options s) s) as (_ & _ & _ & Hl).
    rewrite Hl in H. lia.
  - split; [done|].
    destruct (inflight (entry s (ensure_target options s))) as [p|] eqn:Hp; [|done].
    rewrite (ensure_join truthy options now s p Hs Hp) in H. simpl in H. lia.
Qed.

Lemma lookup_snoc {A} (l : list A) (x : A) : (l ++ [x]) !! length l = Some x.
Proof. rewrite lookup_app_r by lia. by rewrite Nat.sub_diag. Qed.

(** The fetch started by a call is rejected. *)
Lemma reject_after_miss options now e (s : Store) :
  served (default false (force options)) s (entry s (ensure_target options s)) now = None ->
  inflight (entry s (ensure_target options s)) = None ->
  let target := ensure_target options s in
  let p := length (loads s) in
  ∃ s2, reject_load p e (ensure options now s).2 = Some s2 ∧
    outcome_of s2 (Pending p) = Some (Rejected e) ∧
    (∀ scopeId, entry s2 scopeId =
       if decide (scopeKey scopeId = scopeKey target)
       then unmark (entry s scopeId) else entry s scopeId) ∧
    bus s2 = bus s ∧ activeAccountId s2 = activeAccountId s ∧
    staleTime s2 = staleTime s ∧ length (loads s2) = S (length (loads s)).
Proof.
  intros Hs Hp target p.
  pose proof (λ sc, ensure_miss_entry truthy options now s sc Hs Hp) as H1.
  simpl in H1. fold target in H1. fold p in H1.
  set (s1 := (ensure options now s).2) in *.
  destruct (H1 target) as (_ & Hpres & Hb & Ha & Hst & Hl).
  assert (Hlk : loads s1 !! p = Some (mkLoad target None)).
  { rewrite Hl. apply lookup_snoc. }
  set (s1' := modify target (λ st, mkState (cache st) None (updatedAt st)) s1).
  exists (settle p (Rejected e) s1').
  split; [unfold reject_load; by rewrite Hlk|].
  assert (Hlk' : loads s1' !! p = Some (mkLoad target None)) by exact Hlk.
  split; [by eapply settle_outcome|].
  split.
  { intros sc. destruct (settle_frame p (Rejected e) s1' sc) as (_ & _ & _ & ->).
    destruct (H1 sc) as (He & _). unfold s1'.
    case_decide as Hk.
    - rewrite (modify_entry_eq target sc) by done.
      destruct (H1 target) as (Het & _). rewrite decide_True in Het by done.
      rewrite Het. unfold mark, unmark, entry. simpl. by rewrite Hk.
    - rewrite modify_entry_ne by done. exact He. }
  destruct (settle_frame p (Rejected e) s1' target) as (-> & -> & -> & _).
  repeat split; try done.
  unfold settle. rewrite Hlk'. simpl. rewrite length_insert.
  change (length (loads s1) = S (length (loads s))). rewrite Hl, length_app. simpl. lia.
Qed.
End SettleFacts.

Section FanInFacts.
Context {T : Type}.
Variable truthy : T -> bool.
Variable behaviour : Listener -> option T -> option Err.

Import ResourceStore Runs.

Local Abbreviation Store := (@ResourceStore.Store T).
Local Abbreviation set := (ResourceStore.set truthy behaviour).
Local Abbreviation ensure := (ResourceStore.ensure truthy).
Local Abbreviation served := (ResourceStore.served truthy).
Local Abbreviation resolve_load := (ResourceStore.resolve_load truthy behaviour).
Local Abbreviation ensure_all := (Runs.ensure_all truthy).
Local Abbreviation unserved := (Runs.unserved truthy).

(** The fetch started by a call is fulfilled. *)
Lemma resolve_after_miss options now v now' (s : Store) :
  served (default false (force options)) s (entry s (ensure_target options s)) now = None ->
  inflight (entry s (ensure_target options s)) = None ->
  let target := ensure_target options s in
  let p := length (loads s) in
  let s1 := (ensure options now s).2 in
  let s2 :=
    settle p (Resolved v)
      (modify target unmark
         (set (Some v) (mkSetOptions None (scope_arg target)) now' s1)) in
  resolve_load p v now' s1 = Some s2 ∧
  outcome_of s2 (Pending p) = Some (Resolved v).
Proof.
  intros Hs Hp target p s1 s2.
  destruct (ensure_miss_entry truthy options now s target Hs Hp)
    as (_ & _ & _ & _ & _ & Hl).
  fold s1 target in Hl.
  assert (Hlk : loads s1 !! p = Some (mkLoad target None)).
  { rewrite Hl. apply lookup_snoc. }
  split.
  - unfold ResourceStore.resolve_load. by rewrite Hlk.
  - unfold s2. apply settle_outcome with (ld := mkLoad target None).
    change (loads (set (Some v) (mkSetOptions None (scope_arg target)) now' s1) !! p
            = Some (mkLoad target None)).
    destruct (set_frame truthy behaviour (Some v)
                (mkSetOptions None (scope_arg target)) now' s1) as (_ & _ & ->).
    exact Hlk.
Qed.

Lemma served_mark frc (s s' : Store) p state now :
  staleTime s' = staleTime s ->
  served frc s' (mark p state) now = served frc s state now.
Proof.
  intros H. unfold ResourceStore.served, isStale, mark. simpl. by rewrite H.
Qed.

(** Callers that arrive while the fetch is outstanding all receive its
    promise and leave the store as it is. *)
Lemma ensure_all_join cs scopeId p (s : Store) :
  Forall (unserved s scopeId) cs ->
  inflight (entry s scopeId) = Some p ->
  ensure_all cs s = (replicate (length cs) (Pending p), s).
Proof.
  intros Hcs Hp. induction Hcs as [|[options now] rest [Ht Hs] _ IH]; [done|].
  simpl in *. subst scopeId.
  rewrite (ensure_join truthy options now s p Hs Hp). by rewrite IH.
Qed.

Lemma fan_in_resource cs scopeId (s : Store) :
  cs ≠ [] ->
  Forall (unserved s scopeId) cs ->
  inflight (entry s scopeId) = None ->
  let p := length (loads s) in
  let rs := (ensure_all cs s).1 in
  let s' := (ensure_all cs s).2 in
  rs = replicate (length cs) (Pending p) ∧
  loads s' = loads s ++ [mkLoad scopeId None] ∧
  (∀ v now, ∃ s'', resolve_load p v now s' = Some s'' ∧
     Forall (λ r, outcome_of s'' r = Some (Resolved v)) rs) ∧
  (∀ e, ∃ s'', reject_load p e s' = Some s'' ∧
     Forall (λ r, outcome_of s'' r = Some (Rejected e)) rs).
Proof.
  intros Hne Hcs Hp p rs s'.
  destruct cs as [|[options now] rest]; [done|]. clear Hne.
  apply Forall_cons in Hcs. destruct Hcs as [[Ht Hs] Hrest].
  simpl in Ht, Hs. subst scopeId.
  set (target := ensure_target options s) in *.
  pose proof (λ sc, ensure_miss_entry truthy options now s sc Hs Hp) as H1.
  simpl in H1. fold target p in H1.
  destruct (H1 target) as (He & _ & _ & Ha & Hst & Hl).
  rewrite decide_True in He by done.
  assert (Hrest1 : Forall (unserved (ensure options now s).2 target) rest).
  { eapply Forall_impl; [exact Hrest|]. intros [o n] [Ht' Hs']. simpl in *.
    split; simpl.
    - rewrite <- Ht'. unfold ensure_target. by rewrite Ha.
    - rewrite He. by rewrite (served_mark _ s). }
  assert (Hp1 : inflight (entry (ensure options now s).2 target) = Some p).
  { by rewrite He. }
  assert (Hrun : ensure_all ((options, now) :: rest) s =
                 (replicate (length ((options, now) :: rest)) (Pending p),
                  (ensure options now s).2)).
  { simpl. rewrite (ensure_miss truthy options now s Hs Hp).
    fold target p.
    rewrite (ensure_miss truthy options now s Hs Hp) in Hrest1, Hp1.
    simpl in Hrest1, Hp1. fold target p in Hrest1, Hp1.
    by rewrite (ensure_all_join rest target p _ Hrest1 Hp1). }
  unfold rs, s'. rewrite Hrun. simpl.
  split; [done|]. split; [exact Hl|]. split.
  - intros v now'.
    destruct (resolve_after_miss options now v now' s Hs Hp) as [Hr Ho].
    eexists. split; [exact Hr|].
    constructor; [exact Ho|]. apply Forall_replicate. exact Ho.
  - intros e.
    destruct (reject_after_miss truthy options now e s Hs Hp) as (s2 & Hr & Ho & _).
    exists s2. split; [exact Hr|].
    constructor; [exact Ho|]. apply Forall_replicate. exact Ho.
Qed.
End FanInFacts.

(** ** Friends sub-cache: [ensureFriends] *)

Section FriendsFacts.
Context {Friend : Type}.
Variable behaviour : Listener -> option (list Friend) -> option Err.

Import UserStore FriendRuns.

Local Abbreviation Friends := (@UserStore.Friends Friend).
Local Abbreviation setFriends := (UserStore.setFriends behaviour).
Local Abbreviation resolve_fetch := (UserStore.resolve_fetch behaviour).

Lemma getOrCreate_result scopeId (s : Friends) :
  (getOrCreateFriendsState scopeId s).1 = entry s scopeId.
Proof.
  unfold getOrCreateFriendsState, entry.
  by destruct (friendStates s !! friendsScopeKey scopeId).
Qed.

Lemma getOrCreate_present scopeId (s : Friends) :
  friendStates (getOrCreateFriendsState scopeId s).2 !! friendsScopeKey scopeId
  = Some (entry s scopeId).
Proof.
  unfold getOrCreateFriendsState, entry.
  destruct (friendStates s !! friendsScopeKey scopeId) eqn:E; simpl; [done|].
  by rewrite lookup_insert_eq.
Qed.

Lemma getOrCreate_frame scopeId (s : Friends) :
  currentScopeId (getOrCreateFriendsState scopeId s).2 = currentScopeId s ∧
  fetches (getOrCreateFriendsState scopeId s).2 = fetches s.
Proof.
  unfold getOrCreateFriendsState.
  by destruct (friendStates s !! friendsScopeKey scopeId).
Qed.

Lemma ensureFriends_join options now (s : Friends) p :
  served (default false (ResourceStore.force options))
    (entry s (ensure_target options s)) now = None ->
  inflight (entry s (ensure_target options s)) = Some p ->
  ensureFriends options now s = (Pending p, s).
Proof.
  intros Hs Hp. unfold ensureFriends. fold (ensure_target options s).
  set (target := ensure_target options s) in *.
  assert (E : getOrCreateFriendsState target s = (entry s target, s)).
  { unfold getOrCreateFriendsState, entry in *.
    destruct (friendStates s !! friendsScopeKey target); [done|discriminate]. }
  rewrite E. by rewrite Hs, Hp.
Qed.

Lemma ensureFriends_miss options now (s : Friends) :
  served (default false (ResourceStore.force options))
    (entry s (ensure_target options s)) now = None ->
  inflight (entry s (ensure_target options s)) = None ->
  ensureFriends options now s =
    (Pending (length (fetches s)),
     modify (ensure_target options s) (mark (length (fetches s)))
       (with_fetches (fetches s ++ [mkFetch (ensure_target options s) None])
          (getOrCreateFriendsState (ensure_target options s) s).2)).
Proof.
  intros Hs Hp. unfold ensureFriends. fold (ensure_target options s).
  set (target := ensure_target options s) in *.
  destruct (getOrCreateFriendsState target s) as [st s1] eqn:E.
  assert (st = entry s target) as ->.
  { rewrite <- getOrCreate_result. by rewrite E. }
  assert (Hf := getOrCreate_frame target s). rewrite E in Hf. simpl in Hf.
  destruct Hf as (_ & Hl).
  rewrite Hs, Hp, Hl. reflexivity.
Qed.

Lemma ensureFriends_all_join cs scopeId p (s : Friends) :
  Forall (unserved s scopeId) cs ->
  inflight (entry s scopeId) = Some p ->
  ensureFriends_all cs s = (replicate (length cs) (Pending p), s).
Proof.
  intros Hcs Hp. induction Hcs as [|[options now] rest [Ht Hs] _ IH]; [done|].
  simpl in *. subst scopeId.
  rewrite (ensureFriends_join options now s p Hs Hp). by rewrite IH.
Qed.

Lemma setFriends_fetches value options now (s : Friends) :
  fetches (setFriends value options now s) = fetches s.
Proof.
  unfold UserStore.setFriends.
  set (scopeId := nullish _ _).
  destruct (getOrCreateFriendsState scopeId s) as [st s1] eqn:E.
  assert (Hf := getOrCreate_frame scopeId s). rewrite E in Hf. simpl in Hf.
  destruct Hf as (_ & Hl).
  case_decide; simpl; exact Hl.
Qed.

Lemma settle_fetch_outcome p o (s : Friends) f :
  fetches s !! p = Some f -> outcome_of (settle p o s) (Pending p) = Some o.
Proof.
  intros H. unfold settle, outcome_of. rewrite H. simpl.
  rewrite list_lookup_insert_eq; [done|]. by eapply lookup_lt_Some.
Qed.

Lemma fan_in_friends cs scopeId (s : Friends) :
  cs ≠ [] ->
  Forall (unserved s scopeId) cs ->
  inflight (entry s scopeId) = None ->
  let p := length (fetches s) in
  let rs := (ensureFriends_all cs s).1 in
  let s' := (ensureFriends_all cs s).2 in
  rs = replicate (length cs) (Pending p) ∧
  fetches s' = fetches s ++ [mkFetch scopeId None] ∧
  (∀ v now, ∃ s'', resolve_fetch p v now s' = Some s'' ∧
     Forall (λ r, outcome_of s'' r = Some (Resolved v)) rs) ∧
  (∀ e, ∃ s'', reject_fetch p e s' = Some s'' ∧
     Forall (λ r, outcome_of s'' r = Some (Rejected e)) rs).
Proof.
  intros Hne Hcs Hp p rs s'.
  destruct cs as [|[options now] rest]; [done|]. clear Hne.
  apply Forall_cons in Hcs. destruct Hcs as [[Ht Hs] Hrest].
  simpl in Ht, Hs. subst scopeId.
  set (target := ensure_target options s) in *.
  set (s1 := modify target (mark p)
               (with_fetches (fetches s ++ [mkFetch target None])
                  (getOrCreateFriendsState target s).2)).
  assert (He : entry s1 target = mark p (entry s target)).
  { unfold s1, entry at 1, modify. simpl.
    by rewrite lookup_alter_eq, getOrCreate_present. }
  assert (Hl : fetches s1 = fetches s ++ [mkFetch target None]) by done.
  assert (Ha : currentScopeId s1 = currentScopeId s).
  { unfold s1. simpl. apply getOrCreate_frame. }
  assert (Hrest1 : Forall (unserved s1 target) rest).
  { eapply Forall_impl; [exact Hrest|]. intros [o n] [Ht' Hs']. simpl in Ht', Hs'.
    split; simpl.
    - rewrite <- Ht'. unfold ensure_target. by rewrite Ha.
    - rewrite He. exact Hs'. }
  assert (Hp1 : inflight (entry s1 target) = Some p) by (by rewrite He).
  assert (Hrun : ensureFriends_all ((options, now) :: rest) s =
                 (replicate (length ((options, now) :: rest)) (Pending p), s1)).
  { simpl. rewrite (ensureFriends_miss options now s Hs Hp).
    fold target p s1.
    by rewrite (ensureFriends_all_join rest target p _ Hrest1 Hp1). }
  unfold rs, s'. rewrite Hrun. simpl.
  assert (Hlk : fetches s1 !! p = Some (mkFetch target None)).
  { rewrite Hl. apply lookup_snoc. }
  split; [done|]. split; [exact Hl|]. split.
  - intros v now'. unfold UserStore.resolve_fetch. rewrite Hlk.
    eexists. split; [reflexivity|].
    assert (Ho : ∀ o s0, fetches s0 = fetches s1 ->
               outcome_of (settle p o s0) (Pending p) = Some o).
    { intros o s0 E. eapply settle_fetch_outcome. rewrite E. exact Hlk. }
    pose proof (Ho (Resolved v)
      (modify target (λ st, mkFriendsState (cache st) None (updatedAt st))
         (setFriends (Some v)
            (ResourceStore.mkSetOptions None (scope_arg target)) now' s1))
      (setFriends_fetches (Some v)
         (ResourceStore.mkSetOptions None (scope_arg target)) now' s1)) as Ho'.
    constructor; [exact Ho'|]. apply Forall_replicate. exact Ho'.
  - intros e. unfold reject_fetch. rewrite Hlk.
    eexists. split; [reflexivity|].
    assert (Ho' := settle_fetch_outcome p (Rejected e)
                     (modify target
                        (λ st, mkFriendsState (cache st) None (updatedAt st)) s1)
                     _ Hlk).
    constructor; [exact Ho'|]. apply Forall_replicate. exact Ho'.
Qed.
End FriendsFacts.

(** ** Resource store: the claims on [ensure] *)

Section EnsureClaims.
Context {T : Type}.
Variable truthy : T -> bool.
Variable behaviour : Listener -> option T -> option Err.

Import ResourceStore Runs.

Local Abbreviation Store := (@ResourceStore.Store T).
Local Abbreviation set := (ResourceStore.set truthy behaviour).
Local Abbreviation clear := (ResourceStore.clear truthy behaviour).
Local Abbreviation markStale := (ResourceStore.markStale truthy).
Local Abbreviation ensure := (ResourceStore.ensure truthy).
Local Abbreviation served := (ResourceStore.served truthy).
Local Abbreviation resolve_load := (ResourceStore.resolve_load truthy behaviour).

(** C2 (as amended).  Fetch failure: when the [load()] invoked by an
    [ensure] call (or by [refresh], which is [ensure] with [force]) rejects
    with [e], the promise handed out rejects with [e], the value and
    [updatedAt] of every scope are as before the call, no subscriber is
    called and the in-flight slot is empty.  A later [ensure] on the scope
    never returns the failed promise: it invokes [load()] again, unless it
    is unforced and the scope holds a fresh value (which happens after a
    failed [refresh]), in which case it returns that value without a
    fetch. *)
Theorem failed_fetch_leaves_cache (options : EnsureOptions) (now : Z) (e : Err) (s : Store) :
  length (loads (ensure options now s).2) = S (length (loads s)) ->
  let target := ensure_target options s in
  ∃ p s2,
    (ensure options now s).1 = Pending p ∧
    reject_load p e (ensure options now s).2 = Some s2 ∧
    outcome_of s2 (Pending p) = Some (Rejected e) ∧
    (∀ scopeId,
       cache (entry s2 scopeId) = cache (entry s scopeId) ∧
       updatedAt (entry s2 scopeId) = updatedAt (entry s scopeId)) ∧
    calls (bus s2) = calls (bus s) ∧
    inflight (entry s2 target) = None ∧
    ∀ options' now',
      ensure_target options' s2 = target ->
      (ensure options' now' s2).1 ≠ Pending p ∧
      match served (default false (force options')) s2 (entry s2 target) now' with
      | Some v =>
          (ensure options' now' s2).1 = Value v ∧
          loads (ensure options' now' s2).2 = loads s2
      | None =>
          length (loads (ensure options' now' s2).2) = S (length (loads s2))
      end.
Proof.
  intros Hload target.
  destruct (ensure_invokes_load truthy options now s Hload) as [Hs Hp].
  destruct (reject_after_miss truthy options now e s Hs Hp)
    as (s2 & Hr & Ho & He & Hb & Ha & Hst & Hl).
  fold target in He.
  exists (length (loads s)), s2.
  split; [by rewrite (ensure_miss truthy options now s Hs Hp)|].
  split; [exact Hr|]. split; [exact Ho|]. split; [|split; [by rewrite Hb|]].
  { intros sc. rewrite He. by case_decide. }
  assert (Hin : inflight (entry s2 target) = None).
  { rewrite He. by rewrite decide_True. }
  split; [exact Hin|].
  intros options' now' Ht.
  destruct (served (default false (force options')) s2 (entry s2 target) now')
    as [v|] eqn:Hs'; rewrite <- Ht in Hs', Hin.
  - rewrite (ensure_hit truthy options' now' s2 v Hs'). simpl.
    split; [discriminate|]. split; [done|]. apply getState_frame.
  - rewrite (ensure_miss truthy options' now' s2 Hs' Hin). simpl.
    split.
    + rewrite Hl. intros [= E]. lia.
    + rewrite length_app. simpl. lia.
Qed.

(** C10 (as amended).  Null-scope aliasing: while the active account is
    a string [b], [set], [clear] and [markStale] called with
    [scopeId: null] do exactly what they do with [scopeId: b].  When
    moreover [b] is not the reserved key of the null scope and the
    null-scope entry is empty, [ensure({ scopeId: null })] invokes
    [load(null)], and once the fetch is fulfilled with [v] the value is
    stored under [b], every subscriber is called with [v], and the
    null-scope entry still has a null cache and [updatedAt] 0. *)
Theorem null_scope_aliasing (b : string) (s : Store) :
  activeAccountId s = Some b ->
  (∀ v st now,
     set v (mkSetOptions st ScopeNull) now s = set v (mkSetOptions st (ScopeStr b)) now s) ∧
  clear ScopeNull s = clear (ScopeStr b) s ∧
  markStale ScopeNull s = markStale (ScopeStr b) s ∧
  (b ≠ DEFAULT_SCOPE_KEY ->
   entry s None = mkState None None 0 ->
   ∀ frc now v now', ∃ s2,
     (ensure (mkEnsureOptions frc ScopeNull) now s).1 = Pending (length (loads s)) ∧
     loads (ensure (mkEnsureOptions frc ScopeNull) now s).2
       = loads s ++ [mkLoad None None] ∧
     resolve_load (length (loads s)) v now'
       (ensure (mkEnsureOptions frc ScopeNull) now s).2 = Some s2 ∧
     cache (entry s2 (Some b)) = Some v ∧
     updatedAt (entry s2 (Some b)) = (if truthy v then now' else 0) ∧
     calls (bus s2) = calls (bus s) ++ map (λ l, (l, Some v)) (listeners (bus s)) ∧
     cache (entry s2 None) = None ∧
     updatedAt (entry s2 None) = 0).
Proof.
  intros Hact.
  split; [|split; [|split]].
  - intros v st now. unfold ResourceStore.set. simpl. by rewrite Hact.
  - unfold ResourceStore.clear. simpl. by rewrite Hact.
  - unfold ResourceStore.markStale. simpl. by rewrite Hact.
  - intros Hb Hempty frc now v now'.
    set (options := mkEnsureOptions frc ScopeNull).
    assert (Htarget : ensure_target options s = None) by reflexivity.
    assert (Hs : served (default false (force options)) s
                   (entry s (ensure_target options s)) now = None).
    { rewrite Htarget, Hempty. reflexivity. }
    assert (Hp : inflight (entry s (ensure_target options s)) = None).
    { by rewrite Htarget, Hempty. }
    destruct (resolve_after_miss truthy behaviour options now v now' s Hs Hp) as [Hr _].
    pose proof (λ sc, ensure_miss_entry truthy options now s sc Hs Hp) as H1.
    simpl in H1. rewrite Htarget in Hr, H1.
    set (s1 := (ensure options now s).2) in *.
    destruct (H1 None) as (He0 & Hpres & Hbus & Ha & Hst & Hl).
    rewrite decide_True in He0 by done.
    set (s_set := set (Some v) (mkSetOptions None (scope_arg None)) now' s1) in *.
    assert (Hkey : scopeKey (Some b) ≠ scopeKey None) by exact Hb.
    assert (Hwritten : nullish (set_scopeId (mkSetOptions None (scope_arg None)))
                         (activeAccountId s1) = Some b).
    { simpl. by rewrite Ha. }
    eexists. split; [by rewrite (ensure_miss truthy options now s Hs Hp)|].
    split; [exact Hl|]. split; [exact Hr|].
    assert (Hb2 : entry (modify None unmark s_set) (Some b) =
                  mkState (Some v) (inflight (entry s1 (Some b)))
                          (if truthy v then now' else 0)).
    { rewrite modify_entry_ne by done. unfold s_set.
      rewrite set_entry_written by (by rewrite Hwritten).
      simpl. by rewrite andb_true_r. }
    assert (Hn2 : entry (modify None unmark s_set) None = unmark (mark (length (loads s)) (entry s None))).
    { rewrite (modify_entry_eq None None) by
        (try done; apply set_present; exact Hpres).
      unfold s_set. rewrite set_entry_other by (rewrite Hwritten; by apply not_eq_sym).
      by rewrite He0. }
    repeat split.
    + destruct (settle_frame (length (loads s)) (Resolved v)
                  (modify None unmark s_set) (Some b)) as (_ & _ & _ & ->).
      by rewrite Hb2.
    + destruct (settle_frame (length (loads s)) (Resolved v)
                  (modify None unmark s_set) (Some b)) as (_ & _ & _ & ->).
      by rewrite Hb2.
    + destruct (settle_frame (length (loads s)) (Resolved v)
                  (modify None unmark s_set) None) as (-> & _).
      change (calls (bus s_set) = calls (bus s) ++ map (λ l, (l, Some v)) (listeners (bus s))).
      unfold s_set. rewrite set_bus. rewrite Hwritten, Ha, Hact.
      rewrite decide_True by done. by rewrite notify_calls, Hbus.
    + destruct (settle_frame (length (loads s)) (Resolved v)
                  (modify None unmark s_set) None) as (_ & _ & _ & ->).
      by rewrite Hn2, Hempty.
    + destruct (settle_frame (length (loads s)) (Resolved v)
                  (modify None unmark s_set) None) as (_ & _ & _ & ->).
      by rewrite Hn2, Hempty.
Qed.

(** The [async] wrapper changes nothing but the promise object handed
    out: caller number [i] holds promise [made + i], resolved with what
    the body of its call returned. *)
Lemma ensure_async_all_spec (cs : list (EnsureOptions * Z)) (made : nat) (s : Store) :
  map ResourceStore.resolved_with (Runs.ensure_async_all truthy cs made s).1
    = (Runs.ensure_all truthy cs s).1 ∧
  map ResourceStore.promise (Runs.ensure_async_all truthy cs made s).1
    = seq made (length cs) ∧
  (Runs.ensure_async_all truthy cs made s).2
    = ((made + length cs)%nat, (Runs.ensure_all truthy cs s).2).
Proof.
  revert made s. induction cs as [|[options now] rest IH]; intros made s.
  - simpl. by rewrite Nat.add_0_r.
  - simpl. unfold ensure_async.
    destruct (ResourceStore.ensure truthy options now s) as [r s1].
    specialize (IH (S made) s1).
    destruct (Runs.ensure_async_all truthy rest (S made) s1) as [rs w2].
    destruct (Runs.ensure_all truthy rest s1) as [rs0 s2].
    simpl in *. destruct IH as (-> & -> & ->).
    repeat split. f_equal. f_equal. lia.
Qed.

Lemma ensureFriends_async_all_spec (cs : list (EnsureOptions * Z)) (made : nat)
    (s : @UserStore.Friends T) :
  map UserStore.resolved_with (FriendRuns.ensureFriends_async_all cs made s).1
    = (FriendRuns.ensureFriends_all cs s).1 ∧
  map UserStore.promise (FriendRuns.ensureFriends_async_all cs made s).1
    = seq made (length cs) ∧
  (FriendRuns.ensureFriends_async_all cs made s).2
    = ((made + length cs)%nat, (FriendRuns.ensureFriends_all cs s).2).
Proof.
  revert made s. induction cs as [|[options now] rest IH]; intros made s.
  - simpl. by rewrite Nat.add_0_r.
  - simpl. unfold UserStore.ensureFriends_async.
    destruct (UserStore.ensureFriends options now s) as [r s1].
    specialize (IH (S made) s1).
    destruct (FriendRuns.ensureFriends_async_all rest (S made) s1) as [rs w2].
    destruct (FriendRuns.ensureFriends_all rest s1) as [rs0 s2].
    simpl in *. destruct IH as (-> & -> & ->).
    repeat split. f_equal. f_equal. lia.
Qed.

Lemma Forall_resolved_with {A B} (f : A -> B) (P : B -> Prop) (l : list A) :
  Forall P (map f l) -> Forall (λ a, P (f a)) l.
Proof. induction l as [|a l IH]; simpl; intros H; [done|]. inversion H; subst. constructor; auto. Qed.

(** C1 (as amended).  Fan-in of concurrent fetches, in the generic store
    and in the friends sub-cache: when one or more [ensure] calls are made
    for the same scope, none of which finds a value it may serve, starting
    with no fetch in flight, then [load()] is invoked exactly once; every
    caller is handed a promise object of its own ([ensure] is an [async]
    function: caller [i] holds promise [made + i]), each of them resolved
    with the promise of that one fetch, and when the fetch is fulfilled or
    rejected every caller observes that one outcome.  Callers that arrive
    while a fetch [p] is outstanding are likewise each handed an own
    promise resolved with [p], and leave the store, and so the record of
    [load()] invocations, as it is. *)
Theorem fan_in_single_load :
  (∀ (cs : list (EnsureOptions * Z)) (scopeId : ScopeId) (made : nat) (s : Store),
     cs ≠ [] ->
     Forall (Runs.unserved truthy s scopeId) cs ->
     inflight (entry s scopeId) = None ->
     let p := length (loads s) in
     let rs := (Runs.ensure_async_all truthy cs made s).1 in
     let s' := (Runs.ensure_async_all truthy cs made s).2.2 in
     map ResourceStore.resolved_with rs = replicate (length cs) (Pending p) ∧
     map ResourceStore.promise rs = seq made (length cs) ∧
     loads s' = loads s ++ [mkLoad scopeId None] ∧
     (∀ v now, ∃ s'', resolve_load p v now s' = Some s'' ∧
        Forall (λ r, outcome_of s'' (ResourceStore.resolved_with r) = Some (Resolved v)) rs) ∧
     (∀ e, ∃ s'', reject_load p e s' = Some s'' ∧
        Forall (λ r, outcome_of s'' (ResourceStore.resolved_with r) = Some (Rejected e)) rs)) ∧
  (∀ (cs : list (EnsureOptions * Z)) (scopeId : ScopeId) (p : PromiseId) (made : nat)
     (s : Store),
     Forall (Runs.unserved truthy s scopeId) cs ->
     inflight (entry s scopeId) = Some p ->
     let rs := (Runs.ensure_async_all truthy cs made s).1 in
     map ResourceStore.resolved_with rs = replicate (length cs) (Pending p) ∧
     map ResourceStore.promise rs = seq made (length cs) ∧
     (Runs.ensure_async_all truthy cs made s).2.2 = s) ∧
  (∀ (cs : list (EnsureOptions * Z)) (scopeId : ScopeId) (p : PromiseId) (made : nat)
     (s : @UserStore.Friends T),
     Forall (FriendRuns.unserved s scopeId) cs ->
     UserStore.inflight (FriendRuns.entry s scopeId) = Some p ->
     let rs := (FriendRuns.ensureFriends_async_all cs made s).1 in
     map UserStore.resolved_with rs = replicate (length cs) (UserStore.Pending p) ∧
     map UserStore.promise rs = seq made (length cs) ∧
     (FriendRuns.ensureFriends_async_all cs made s).2.2 = s) ∧
  (∀ (cs : list (EnsureOptions * Z)) (scopeId : ScopeId) (made : nat)
     (s : @UserStore.Friends T)
     (friends_behaviour : Listener -> option (list T) -> option Err),
     cs ≠ [] ->
     Forall (FriendRuns.unserved s scopeId) cs ->
     UserStore.inflight (FriendRuns.entry s scopeId) = None ->
     let p := length (UserStore.fetches s) in
     let rs := (FriendRuns.ensureFriends_async_all cs made s).1 in
     let s' := (FriendRuns.ensureFriends_async_all cs made s).2.2 in
     map UserStore.resolved_with rs = replicate (length cs) (UserStore.Pending p) ∧
     map UserStore.promise rs = seq made (length cs) ∧
     UserStore.fetches s' = UserStore.fetches s ++ [UserStore.mkFetch scopeId None] ∧
     (∀ v now, ∃ s'', UserStore.resolve_fetch friends_behaviour p v now s' = Some s'' ∧
        Forall (λ r, UserStore.outcome_of s'' (UserStore.resolved_with r)
                     = Some (UserStore.Resolved v)) rs) ∧
     (∀ e, ∃ s'', UserStore.reject_fetch p e s' = Some s'' ∧
        Forall (λ r, UserStore.outcome_of s'' (UserStore.resolved_with r)
                     = Some (UserStore.Rejected e)) rs)).
Proof.
  split; [|split; [|split]].
  - intros cs scopeId made s Hne Hcs Hp p rs s'.
    destruct (ensure_async_all_spec cs made s) as (Hr & Hi & Hs).
    destruct (fan_in_resource truthy behaviour cs scopeId s Hne Hcs Hp)
      as (H1 & H2 & H3 & H4).
    fold p in H1, H3, H4.
    assert (Hs' : s' = (Runs.ensure_all truthy cs s).2) by (unfold s'; by rewrite Hs).
    fold rs in Hr, Hi.
    split; [by rewrite Hr|]. split; [exact Hi|]. rewrite Hs'.
    split; [exact H2|]. split.
    + intros v now. destruct (H3 v now) as (s'' & Ha & Hb).
      exists s''. split; [exact Ha|].
      apply (Forall_resolved_with ResourceStore.resolved_with
               (λ r, outcome_of s'' r = Some (Resolved v))). by rewrite Hr.
    + intros e. destruct (H4 e) as (s'' & Ha & Hb).
      exists s''. split; [exact Ha|].
      apply (Forall_resolved_with ResourceStore.resolved_with
               (λ r, outcome_of s'' r = Some (Rejected e))). by rewrite Hr.
  - intros cs scopeId p made s Hcs Hp rs.
    destruct (ensure_async_all_spec cs made s) as (Hr & Hi & Hs).
    fold rs in Hr, Hi.
    rewrite (ensure_all_join truthy cs scopeId p s Hcs Hp) in Hr, Hs.
    split; [exact Hr|]. split; [exact Hi|]. by rewrite Hs.
  - intros cs scopeId p made s Hcs Hp rs.
    destruct (ensureFriends_async_all_spec cs made s) as (Hr & Hi & Hs).
    fold rs in Hr, Hi.
    rewrite (ensureFriends_all_join cs scopeId p s Hcs Hp) in Hr, Hs.
    split; [exact Hr|]. split; [exact Hi|]. by rewrite Hs.
  - intros cs scopeId made s fb Hne Hcs Hp p rs s'.
    destruct (ensureFriends_async_all_spec cs made s) as (Hr & Hi & Hs).
    destruct (fan_in_friends fb cs scopeId s Hne Hcs Hp) as (H1 & H2 & H3 & H4).
    fold p in H1, H3, H4.
    assert (Hs' : s' = (FriendRuns.ensureFriends_all cs s).2)
      by (unfold s'; by rewrite Hs).
    fold rs in Hr, Hi.
    split; [by rewrite Hr|]. split; [exact Hi|]. rewrite Hs'.
    split; [exact H2|]. split.
    + intros v now. destruct (H3 v now) as (s'' & Ha & Hb).
      exists s''. split; [exact Ha|].
      apply (Forall_resolved_with UserStore.resolved_with
               (λ r, UserStore.outcome_of s'' r = Some (UserStore.Resolved v))).
      by rewrite Hr.
    + intros e. destruct (H4 e) as (s'' & Ha & Hb).
      exists s''. split; [exact Ha|].
      apply (Forall_resolved_with UserStore.resolved_with
               (λ r, UserStore.outcome_of s'' r = Some (UserStore.Rejected e))).
      by rewrite Hr.
Qed.
End EnsureClaims.

(** C1, witness: three callers on a new store and on a new friends cache,
    and three more that arrive while the fetch is outstanding. *)
Lemma fan_in_single_load_witness :
  (map ResourceStore.resolved_with (Runs.ensure_async_all any_truthy three_calls 0 store0).1
     = replicate 3 (ResourceStore.Pending 0) ∧
   map ResourceStore.promise (Runs.ensure_async_all any_truthy three_calls 0 store0).1
     = [0; 1; 2]%nat ∧
   ResourceStore.loads (Runs.ensure_async_all any_truthy three_calls 0 store0).2.2
     = [ResourceStore.mkLoad None None]) ∧
  (map ResourceStore.resolved_with
     (Runs.ensure_async_all any_truthy three_calls 3 store_fetching).1
     = replicate 3 (ResourceStore.Pending 0) ∧
   (Runs.ensure_async_all any_truthy three_calls 3 store_fetching).2.2 = store_fetching) ∧
  (map UserStore.resolved_with
     (FriendRuns.ensureFriends_async_all three_calls 3 friends_fetching).1
     = replicate 3 (UserStore.Pending 0) ∧
   (FriendRuns.ensureFriends_async_all three_calls 3 friends_fetching).2.2
     = friends_fetching) ∧
  (map UserStore.resolved_with (FriendRuns.ensureFriends_async_all three_calls 0 friends0).1
     = replicate 3 (UserStore.Pending 0) ∧
   UserStore.fetches (FriendRuns.ensureFriends_async_all three_calls 0 friends0).2.2
     = [UserStore.mkFetch None None]).
Proof.
  destruct (fan_in_single_load any_truthy quiet) as (HR & HJ & HJF & HF).
  split; [|split; [|split]].
  - destruct (HR three_calls None 0%nat store0 ltac:(discriminate)
                ltac:(repeat constructor) eq_refl) as (H1 & H2 & H3 & _).
    split; [exact H1 |]. split; [exact H2 | exact H3].
  - destruct (HJ three_calls None 0%nat 3%nat store_fetching
                ltac:(repeat constructor) eq_refl) as (H1 & _ & H3).
    split; [exact H1 | exact H3].
  - destruct (HJF three_calls None 0%nat 3%nat friends_fetching
                ltac:(repeat constructor) eq_refl) as (H1 & _ & H3).
    split; [exact H1 | exact H3].
  - destruct (HF three_calls None 0%nat friends0 quiet ltac:(discriminate)
                ltac:(repeat constructor) eq_refl) as (H1 & _ & H3 & _).
    split; [exact H1 | exact H3].
Defined.

(** C1, counterexample: three callers that arrive while fetch 0 is
    outstanding (its starter holds promise 0) are not handed one promise
    object: they hold promises 1, 2 and 3, each resolved with the promise
    of the fetch. *)
Lemma same_promise_fails :
  ResourceStore.inflight (ResourceStore.entry store_fetching None) = Some 0%nat ∧
  ¬ Runs.same_promise (Runs.ensure_async_all any_truthy three_calls 1 store_fetching).1.
Proof.
  split; [reflexivity|]. intros H.
  specialize (H (ResourceStore.mkReturned 1 (ResourceStore.Pending 0))
                (ResourceStore.mkReturned 2 (ResourceStore.Pending 0))).
  assert (Hrs : (Runs.ensure_async_all any_truthy three_calls 1 store_fetching).1
                = [ResourceStore.mkReturned 1 (ResourceStore.Pending 0);
                   ResourceStore.mkReturned 2 (ResourceStore.Pending 0);
                   ResourceStore.mkReturned 3 (ResourceStore.Pending 0)])
    by reflexivity.
  rewrite Hrs in H.
  assert (Habs : (1 = 2)%nat).
  { apply H; [apply list_elem_of_here | apply list_elem_of_further, list_elem_of_here]. }
  discriminate Habs.
Qed.

(** C2, witness: a forced refetch of a fresh value fails. *)
Lemma failed_fetch_leaves_cache_witness :
  ∃ p s2,
    (ResourceStore.ensure any_truthy
       (ResourceStore.mkEnsureOptions (Some true) ScopeAbsent) 1 store_with_7).1
      = ResourceStore.Pending p ∧
    ResourceStore.reject_load p "network"
      (ResourceStore.ensure any_truthy
         (ResourceStore.mkEnsureOptions (Some true) ScopeAbsent) 1 store_with_7).2
      = Some s2 ∧
    ResourceStore.cache (ResourceStore.entry s2 None) = Some 7%nat ∧
    ResourceStore.inflight (ResourceStore.entry s2 None) = None.
Proof.
  destruct (failed_fetch_leaves_cache any_truthy
              (ResourceStore.mkEnsureOptions (Some true) ScopeAbsent) 1 "network"
              store_with_7 eq_refl)
    as (p & s2 & H1 & H2 & _ & H4 & _ & H6 & _).
  exists p, s2. split; [exact H1|]. split; [exact H2|]. split; [|exact H6].
  destruct (H4 None) as [Hc _]. etransitivity; [exact Hc|]. reflexivity.
Defined.

(** C2, counterexample: the store holds a fresh value, [refresh()] at 1 ms
    invokes [load()], the fetch rejects, and [ensure()] at 2 ms returns the
    cached value without invoking [load()]. *)
Lemma failed_fetch_retries_fails :
  ¬ Claims.failed_fetch_retries any_truthy store_with_7
      (ResourceStore.mkEnsureOptions (Some true) ScopeAbsent) 1 "network"
      ResourceStore.no_ensure_options 2.
Proof.
  intros H. vm_compute in H.
  destruct (H eq_refl) as (_ & _ & _ & _ & H5).
  specialize (H5 eq_refl). discriminate H5.
Qed.

(** C10, witness: [usr_b] is active and one subscriber listens. *)
Lemma null_scope_aliasing_witness :
  ResourceStore.clear any_truthy quiet ScopeNull store_of_b
    = ResourceStore.clear any_truthy quiet (ScopeStr "usr_b") store_of_b ∧
  ∃ s2,
    ResourceStore.resolve_load any_truthy quiet 0 7%nat 9
      (ResourceStore.ensure any_truthy
         (ResourceStore.mkEnsureOptions None ScopeNull) 3 store_of_b).2 = Some s2 ∧
    ResourceStore.cache (ResourceStore.entry s2 (Some "usr_b")) = Some 7%nat ∧
    ResourceStore.cache (ResourceStore.entry s2 None) = None.
Proof.
  destruct (null_scope_aliasing any_truthy quiet "usr_b" store_of_b eq_refl)
    as (_ & Hclear & _ & Hensure).
  split; [exact Hclear|].
  destruct (Hensure ltac:(discriminate) eq_refl None 3 7%nat 9)
    as (s2 & _ & _ & Hr & Hc & _ & _ & Hn & _).
  exists s2. split; [exact Hr|]. split; [exact Hc | exact Hn].
Defined.

(** C10, counterexample: the active account id is the text
    [__no_active_account__]; the partition of that account is the
    null-scope partition, so the fetched value lands in the null-scope
    entry. *)
Lemma null_ensure_spares_null_entry_fails :
  ¬ Claims.null_ensure_spares_null_entry any_truthy quiet store_of_sentinel
      DEFAULT_SCOPE_KEY 0 7%nat 1.
Proof.
  intros H. specialize (H eq_refl eq_refl). vm_compute in H.
  destruct H as (_ & _ & H & _). discriminate H.
Qed.

(** ** Alert store *)

(** Boolean comparisons of hypotheses, turned into propositions. *)
Ltac zbool :=
  repeat match goal with
  | H : (_ =? _) = true |- _ => apply Z.eqb_eq in H
  | H : (_ =? _) = false |- _ => apply Z.eqb_neq in H
  | H : (_ <? _) = true |- _ => apply Z.ltb_lt in H
  | H : (_ <? _) = false |- _ => apply Z.ltb_ge in H
  | H : (_ >=? _) = true |- _ => rewrite Z.geb_leb in H; apply Z.leb_le in H
  | H : (_ >=? _) = false |- _ => rewrite Z.geb_leb in H; apply Z.leb_gt in H
  | H : (_ >? _) = true |- _ => rewrite Z.gtb_ltb in H; apply Z.ltb_lt in H
  | H : (_ >? _) = false |- _ => rewrite Z.gtb_ltb in H; apply Z.ltb_ge in H
  end.

(** A branch the arithmetic of the hypotheses excludes. *)
Ltac absurd_branch := exfalso; zbool; lia.

Section AlertFacts.
Variable to_string : AlertStore.Num -> string.
Variable behaviour : Listener -> AlertStore.AlertStoreState -> option Err.

Import AlertStore AlertRuns.

Local Abbreviation step := (AlertRuns.step to_string behaviour).
Local Abbreviation run := (AlertRuns.run to_string behaviour).

Lemma len_nil_iff (l : list Alert) : len l = 0 ↔ l = [].
Proof.
  unfold len. split.
  - intros H. destruct l; [done|]. simpl in H. lia.
  - by intros ->.
Qed.

Lemma len_pos (l : list Alert) : l ≠ [] -> 0 < len l.
Proof. unfold len. destruct l; [done|]. simpl. lia. Qed.

Lemma len_nonneg (l : list Alert) : 0 <= len l.
Proof. unfold len. lia. Qed.

(** A position of the list satisfies the range of the specification. *)
Lemma index_ok_in_range st : index_ok st -> index_in_range st.
Proof.
  intros (i & Hi & H0 & H1). unfold index_in_range. rewrite Hi. split.
  - intros Hnil. by rewrite (H0 Hnil).
  - intros Hne. destruct (H1 Hne) as [Hlo Hhi]. simpl. split.
    + rewrite Z.geb_leb. by apply Z.leb_le.
    + by apply Z.ltb_lt.
Qed.

(** The adjustment after a removal restores the invariant whatever the
    index was, provided it was a non-negative integer. *)
Lemma adjust_ok remaining i :
  0 <= i ->
  index_ok (mkAlertStoreState remaining (adjust remaining (Int i))).
Proof.
  intros Hi. unfold index_ok, adjust. simpl.
  pose proof (len_nonneg remaining) as Hnn.
  destruct (i >=? len remaining) eqn:E1;
    destruct (len remaining >? 0) eqn:E2; simpl.
  - exists (len remaining - 1). split; [done|]. split.
    + intros ->. change (len []) with 0 in E2. discriminate.
    + intros _. zbool. lia.
  - assert (E3 : len remaining = 0) by (zbool; lia).
    rewrite E3. simpl. exists 0. split; [done|]. split; [done|].
    intros Hne. apply len_pos in Hne. lia.
  - destruct (len remaining =? 0) eqn:E3; [absurd_branch|].
    exists i. split; [done|]. split.
    + intros ->. change (len []) with 0 in E3. discriminate.
    + intros _. zbool. lia.
  - assert (E3 : len remaining = 0) by (zbool; lia).
    rewrite E3. simpl. exists 0. split; [done|]. split; [done|].
    intros Hne. apply len_pos in Hne. lia.
Qed.

Lemma list_insert_nil_iff {A} (l : list A) i x : <[i:=x]> l = [] ↔ l = [].
Proof.
  split.
  - intros H. apply (f_equal length) in H. rewrite length_insert in H.
    by destruct l.
  - by intros ->.
Qed.

(** A filter that removes nothing leaves the invariant alone. *)
Lemma same_length_ok (P : Alert -> Prop) `{∀ a, Decision (P a)} st :
  index_ok st ->
  (len (filter P (alerts st)) <? len (alerts st)) = false ->
  index_ok (mkAlertStoreState (filter P (alerts st)) (currentIndex st)).
Proof.
  intros (i & Hi & H0 & H1) E.
  assert (Hlen : length (filter P (alerts st)) = length (alerts st)).
  { pose proof (length_filter P (alerts st)). unfold len in E. zbool. lia. }
  exists i. simpl. split; [done|]. split.
  - intros Hnil. apply H0. rewrite Hnil in Hlen.
    destruct (alerts st); [done|discriminate].
  - intros Hne. unfold len. rewrite Hlen. apply H1.
    intros Hnil. apply Hne. by rewrite Hnil.
Qed.

Lemma step_preserves_index op (s : Store) :
  integer_arg op = true ->
  index_ok (cache s) -> index_ok (cache (step op s)).
Proof.
  intros Harg Hok. pose proof Hok as (i & Hi & H0 & H1).
  assert (Hnn : 0 <= i).
  { destruct (alerts (cache s)) eqn:E; [rewrite H0 by done; lia|].
    destruct H1; [done|lia]. }
  destruct op; simpl.
  - (* addAlert *)
    unfold addAlert. simpl. exists i. simpl. split; [done|]. split.
    + intros H. by destruct (alerts (cache s)).
    + intros _. unfold len. rewrite length_app. simpl.
      destruct (alerts (cache s)) eqn:E.
      * rewrite H0 by done. simpl. lia.
      * destruct H1 as [? ?]; [done|]. unfold len in *. simpl in *. lia.
  - (* updateAlert *)
    unfold updateAlert.
    destruct (list_find _ _) as [[index found]|]; simpl; [|done].
    exists i. simpl. split; [done|]. split.
    + intros H. apply list_insert_nil_iff in H. by apply H0.
    + intros H. unfold len. rewrite length_insert. apply H1.
      intros E. apply H. by apply list_insert_nil_iff.
  - (* removeAlert *)
    unfold removeAlert.
    destruct (len (filter _ _) <? len (alerts (cache s))) eqn:E; simpl.
    + rewrite Hi. by apply adjust_ok.
    + by apply same_length_ok.
  - (* clearAll *)
    unfold clearAll. simpl. exists 0. split; [done|]. split; [done|].
    intros H. by destruct H.
  - (* clearDismissable *)
    unfold clearDismissable.
    destruct (len (filter _ _) <? len (alerts (cache s))) eqn:E; simpl.
    + rewrite Hi. by apply adjust_ok.
    + by apply same_length_ok.
  - (* nextAlert *)
    unfold nextAlert.
    destruct (len (alerts (cache s)) =? 0) eqn:E; [done|]. simpl.
    assert (Hne : alerts (cache s) ≠ []).
    { intros Hnil. apply len_nil_iff in Hnil. zbool. lia. }
    destruct (H1 Hne) as [Hlo Hhi].
    rewrite Hi. unfold num_rem. rewrite E. simpl.
    exists (Z.rem (i + 1) (len (alerts (cache s)))). split; [done|].
    split; [done|]. intros _. simpl.
    pose proof (Z.rem_bound_pos (i + 1) (len (alerts (cache s)))). lia.
  - (* previousAlert *)
    unfold previousAlert.
    destruct (len (alerts (cache s)) =? 0) eqn:E; [done|]. simpl.
    assert (Hne : alerts (cache s) ≠ []).
    { intros Hnil. apply len_nil_iff in Hnil. zbool. lia. }
    destruct (H1 Hne) as [Hlo Hhi].
    rewrite Hi. simpl. destruct (i =? 0) eqn:E0.
    + exists (len (alerts (cache s)) - 1). split; [done|]. split; [done|].
      intros _. simpl. lia.
    + exists (i - 1). split; [done|]. split; [done|]. intros _. simpl. zbool. lia.
  - (* setCurrentIndex *)
    destruct index as [z| |]; try discriminate.
    unfold setCurrentIndex. simpl.
    destruct ((z <? 0) || (z >=? len (alerts (cache s)))) eqn:E; simpl; [done|].
    apply orb_false_iff in E. destruct E as [E1 E2].
    exists z. split; [done|]. simpl. split.
    + intros Hnil. apply len_nil_iff in Hnil. zbool. lia.
    + intros _. zbool. lia.
Qed.

Lemma run_preserves_index ops (s : Store) :
  forallb integer_arg ops = true ->
  index_ok (cache s) -> index_ok (cache (run ops s)).
Proof.
  revert s. induction ops as [|op ops IH]; intros s Hargs Hok; simpl; [done|].
  simpl in Hargs. apply andb_true_iff in Hargs. destruct Hargs as [Harg Hargs].
  apply IH; [done|]. by apply step_preserves_index.
Qed.

Lemma init_index_ok : index_ok (cache init).
Proof. exists 0. split; [done|]. split; [done|]. intros H. by destruct H. Qed.
End AlertFacts.




(** The index 0.5 passes the range test; [previousAlert] then leaves
    -0.5. *)
Example half_index_goes_negative :
  AlertStore.currentIndex
    (AlertStore.cache
       (AlertRuns.run AlertRuns.show quiet
          [AlertRuns.SetCurrentIndex (AlertStore.Half 0); AlertRuns.PreviousAlert]
          one_alert))
  = AlertStore.Half (-1).
Proof. reflexivity. Qed.

(** The scenario of the specification: an info alert and an error alert,
    then [clearDismissable()], leave the error alert alone at index 0. *)
Example clear_dismissable_scenario :
  let s :=
    AlertRuns.run AlertRuns.show quiet
      [AlertRuns.AddAlert AlertRuns.alert_a 1 "x";
       AlertRuns.AddAlert AlertRuns.alert_b 2 "y";
       AlertRuns.ClearDismissable]
      AlertStore.init in
  map AlertStore.message (AlertStore.alerts (AlertStore.cache s)) = ["b"] ∧
  AlertStore.currentIndex (AlertStore.cache s) = AlertStore.Int 0.
Proof. vm_compute. by split. Qed.

(** Removing the last alert while the carousel shows it moves the index to
    the new last position; on a single alert [nextAlert] and
    [previousAlert] stay at 0. *)
Example removal_clamps_index :
  let s2 :=
    AlertRuns.run AlertRuns.show quiet
      [AlertRuns.AddAlert AlertRuns.alert_a 1 "x";
       AlertRuns.AddAlert AlertRuns.alert_b 2 "y";
       AlertRuns.SetCurrentIndex (AlertStore.Int 1);
       AlertRuns.RemoveAlert "alert-2-y"]
      AlertStore.init in
  AlertStore.currentIndex (AlertStore.cache s2) = AlertStore.Int 0 ∧
  AlertStore.currentIndex (AlertStore.cache (AlertStore.nextAlert quiet s2))
    = AlertStore.Int 0 ∧
  AlertStore.currentIndex (AlertStore.cache (AlertStore.previousAlert quiet s2))
    = AlertStore.Int 0.
Proof. vm_compute. by repeat split. Qed.

(** ** Subscription and notification, store by store *)

Lemma subscribe_bus_replayed {V : Type} (behaviour : Listener -> V -> option Err)
    (l : Listener) (v : V) (b : Bus V) :
  Subscriptions.replayed behaviour l v b (subscribe_bus behaviour l v b).2
    (subscribe_bus behaviour l v b).1
    (λ d, delete_listener d (subscribe_bus behaviour l v b).2).
Proof.
  split; [apply subscribe_bus_calls|]. split; [apply subscribe_bus_listeners|].
  rewrite subscribe_bus_result. destruct (behaviour l v) as [e|]; [done|].
  exists l. split; [done|]. apply delete_listener_gone.
Qed.

(** C7 (as amended).  Subscribe-then-replay in the resource store, the
    friends sub-cache, the accounts store, the alert store, the status
    store and the account scope: [subscribe(fn)] registers [fn] and calls
    it exactly once, with the current snapshot (of the active scope, the
    copy of the alert or status state, the current account id), whatever
    the cache holds; [fn] having returned, [subscribe] returns a disposer,
    and running the disposer removes [fn] from the listeners; when [fn]
    throws, [subscribe] throws.  The developer-mode store calls [fn] once
    as well, with [cache ?? false]. *)
Theorem subscribe_replays_snapshot :
  (∀ (T : Type) (behaviour : Listener -> option T -> option Err)
     (l : Listener) (s : @ResourceStore.Store T),
     let s' := (ResourceStore.subscribe behaviour l s).2 in
     Subscriptions.replayed behaviour l (ResourceStore.getSnapshot None s).1
       (ResourceStore.bus s) (ResourceStore.bus s')
       (ResourceStore.subscribe behaviour l s).1
       (λ d, ResourceStore.bus (ResourceStore.dispose d s'))) ∧
  (∀ (Friend : Type) (behaviour : Listener -> option (list Friend) -> option Err)
     (l : Listener) (s : @UserStore.Friends Friend),
     let s' := (UserStore.subscribeFriends behaviour l s).2 in
     Subscriptions.replayed behaviour l (UserStore.getFriendsSnapshot None s)
       (UserStore.friendListeners s) (UserStore.friendListeners s')
       (UserStore.subscribeFriends behaviour l s).1
       (λ d, UserStore.friendListeners (UserStore.disposeFriends d s'))) ∧
  (∀ (Account : Type) (behaviour : Listener -> option (list Account) -> option Err)
     (l : Listener) (s : @AccountsStore.Store Account),
     let s' := (AccountsStore.subscribe behaviour l s).2 in
     Subscriptions.replayed behaviour l (AccountsStore.getSnapshot s)
       (AccountsStore.bus s) (AccountsStore.bus s')
       (AccountsStore.subscribe behaviour l s).1
       (λ d, AccountsStore.bus (AccountsStore.dispose d s'))) ∧
  (∀ (behaviour : Listener -> AlertStore.AlertStoreState -> option Err)
     (l : Listener) (s : AlertStore.Store),
     let s' := (AlertStore.subscribe behaviour l s).2 in
     Subscriptions.replayed behaviour l (AlertStore.getSnapshot s)
       (AlertStore.bus s) (AlertStore.bus s')
       (AlertStore.subscribe behaviour l s).1
       (λ d, AlertStore.bus (AlertStore.dispose d s'))) ∧
  (∀ (SystemStatus : Type)
     (behaviour : Listener -> @VRChatStatusStore.VRChatStatusState SystemStatus -> option Err)
     (l : Listener) (s : VRChatStatusStore.Store),
     let s' := (VRChatStatusStore.subscribe behaviour l s).2 in
     Subscriptions.replayed behaviour l (VRChatStatusStore.getSnapshot s)
       (VRChatStatusStore.bus s) (VRChatStatusStore.bus s')
       (VRChatStatusStore.subscribe behaviour l s).1
       (λ d, VRChatStatusStore.bus (VRChatStatusStore.dispose d s'))) ∧
  (∀ (behaviour : Listener -> ScopeId -> option Err)
     (l : Listener) (s : AccountScope.State),
     let s' := (AccountScope.subscribeActiveAccount behaviour l s).2 in
     Subscriptions.replayed behaviour l (AccountScope.getActiveAccountId s)
       (AccountScope.bus s) (AccountScope.bus s')
       (AccountScope.subscribeActiveAccount behaviour l s).1
       (λ d, AccountScope.bus (AccountScope.dispose d s'))) ∧
  (∀ (behaviour : Listener -> bool -> option Err) (l : Listener)
     (s : DeveloperModeStore.Store),
     let s' := (DeveloperModeStore.subscribe behaviour l s).2 in
     calls (DeveloperModeStore.bus s') =
       calls (DeveloperModeStore.bus s) ++ [(l, default false (DeveloperModeStore.cache s))] ∧
     l ∈ listeners (DeveloperModeStore.bus s')).
Proof.
  split; [|split; [|split; [|split; [|split; [|split]]]]].
  - intros T behaviour l s s'.
    unfold s', Subscriptions.replayed, ResourceStore.subscribe.
    set (s1 := ResourceStore.with_bus (add_listener l (ResourceStore.bus s)) s).
    assert (Hsnap : (ResourceStore.getSnapshot None s1).1 = (ResourceStore.getSnapshot None s).1).
    { rewrite !getSnapshot_result. reflexivity. }
    destruct (getSnapshot_frame None s1 None) as (Hb & _).
    destruct (ResourceStore.getSnapshot None s1) as [snap s2]. simpl in Hsnap, Hb.
    subst snap. unfold call.
    destruct (behaviour l (ResourceStore.getSnapshot None s).1) as [e|] eqn:Hq;
      simpl; rewrite Hb; simpl.
    + split; [|split; [apply add_listener_elem | done]].
      unfold add_listener. by case_decide.
    + split; [|split; [apply add_listener_elem |]].
      * unfold add_listener. by case_decide.
      * exists l. split; [done|]. apply delete_listener_gone.
  - intros Friend behaviour l s s'. unfold s', UserStore.subscribeFriends.
    pose proof (subscribe_bus_replayed behaviour l (UserStore.getFriendsSnapshot None s)
                  (UserStore.friendListeners s)) as H.
    by destruct (subscribe_bus behaviour l _ _) as [r0 b].
  - intros Account behaviour l s s'. unfold s', AccountsStore.subscribe.
    pose proof (subscribe_bus_replayed behaviour l (AccountsStore.cache s)
                  (AccountsStore.bus s)) as H.
    by destruct (subscribe_bus behaviour l _ _) as [r0 b].
  - intros behaviour l s s'. unfold s', AlertStore.subscribe.
    pose proof (subscribe_bus_replayed behaviour l (AlertStore.getSnapshot s)
                  (AlertStore.bus s)) as H.
    by destruct (subscribe_bus behaviour l _ _) as [r0 b].
  - intros SystemStatus behaviour l s s'. unfold s', VRChatStatusStore.subscribe.
    pose proof (subscribe_bus_replayed behaviour l (VRChatStatusStore.getSnapshot s)
                  (VRChatStatusStore.bus s)) as H.
    by destruct (subscribe_bus behaviour l _ _) as [r0 b].
  - intros behaviour l s s'. unfold s', AccountScope.subscribeActiveAccount.
    pose proof (subscribe_bus_replayed behaviour l (AccountScope.currentAccountId s)
                  (AccountScope.bus s)) as H.
    by destruct (subscribe_bus behaviour l _ _) as [r0 b].
  - intros behaviour l s s'. unfold s', DeveloperModeStore.subscribe.
    pose proof (subscribe_bus_calls behaviour l (default false (DeveloperModeStore.cache s))
                  (DeveloperModeStore.bus s)) as Hc.
    pose proof (subscribe_bus_listeners behaviour l (default false (DeveloperModeStore.cache s))
                  (DeveloperModeStore.bus s)) as Hl.
    destruct (subscribe_bus behaviour l (default false (DeveloperModeStore.cache s))
                (DeveloperModeStore.bus s)) as [r0 b].
    simpl in *. split; [exact Hc | exact Hl].
Qed.

(** C7, witness: a first subscriber on a new resource store, a new alert
    store, a new accounts store and a new account scope. *)
Lemma subscribe_replays_snapshot_witness :
  (∃ d, (ResourceStore.subscribe quiet 4%nat store0).1 = Normal d ∧
        4%nat ∉ listeners (ResourceStore.bus
                  (ResourceStore.dispose d (ResourceStore.subscribe quiet 4%nat store0).2))) ∧
  (∃ d, (AlertStore.subscribe quiet 4%nat AlertStore.init).1 = Normal d ∧
        4%nat ∉ listeners (AlertStore.bus
                  (AlertStore.dispose d (AlertStore.subscribe quiet 4%nat AlertStore.init).2))) ∧
  calls (AccountsStore.bus
           (AccountsStore.subscribe quiet 4%nat (@AccountsStore.create string None)).2)
    = [(4%nat, None)] ∧
  (∃ d, (AccountScope.subscribeActiveAccount quiet 4%nat AccountScope.init).1 = Normal d ∧
        4%nat ∉ listeners (AccountScope.bus
                  (AccountScope.dispose d
                     (AccountScope.subscribeActiveAccount quiet 4%nat AccountScope.init).2))).
Proof.
  destruct subscribe_replays_snapshot as (HR & _ & HC & HA & _ & HS & _).
  split; [|split; [|split]].
  - destruct (HR nat quiet 4%nat store0) as (_ & _ & H). exact H.
  - destruct (HA quiet 4%nat AlertStore.init) as (_ & _ & H). exact H.
  - destruct (HC string quiet 4%nat (AccountsStore.create None)) as (H & _). exact H.
  - destruct (HS quiet 4%nat AccountScope.init) as (_ & _ & H). exact H.
Defined.

(** C7, counterexample.  The developer-mode store with nothing cached:
    its snapshot is [null], yet [subscribe] calls the listener with
    [false].  And a listener that throws when it is replayed: [subscribe]
    of the resource store throws and hands out no disposer. *)
Lemma subscribe_replay_fails :
  ¬ DevClaims.replays_snapshot quiet 0%nat DeveloperModeStore.init ∧
  ¬ DevClaims.returns_disposer first_throws 0%nat store0.
Proof.
  split.
  - intros H. vm_compute in H. discriminate H.
  - intros [d H]. vm_compute in H. discriminate H.
Qed.



Lemma caught_elem {V : Type} (behaviour : Listener -> V -> option Err) msg v ls l e :
  l ∈ ls -> behaviour l v = Some e -> (msg, e) ∈ caught behaviour msg v ls.
Proof.
  intros Hl He. unfold caught. apply list_elem_of_omap.
  exists l. split; [done|]. by rewrite He.
Qed.

(** ** Singleton registry *)

Section RegistryFacts.
Import SingletonRegistry.
Variable truthy : Factory -> bool.
Hypothesis all_truthy : ∀ f, truthy f = true.

Local Abbreviation registerSingleton := (SingletonRegistry.registerSingleton truthy).
Local Abbreviation register_all := (SingletonRegistry.register_all truthy).

Lemma consistent_init : consistent init.
Proof.
  split.
  - intros key. unfold constructed. simpl. by rewrite lookup_empty.
  - intros key _. apply lookup_empty.
Qed.

(** With truthy products a call constructs exactly when the key is
    neither an own property nor an inherited name. *)
Lemma registerSingleton_cases key factory r :
  registerSingleton key factory r =
  match read key r with
  | Some m => (m, r)
  | None => construct key factory r
  end.
Proof.
  unfold SingletonRegistry.registerSingleton.
  destruct (read key r) as [[inst|name]|]; simpl; [|done|done].
  by rewrite all_truthy.
Qed.

Lemma read_None key r :
  read key r = None ↔ slots r !! key = None ∧ key ∉ prototype_names.
Proof.
  unfold read. destruct (slots r !! key); [split; [discriminate|by intros [? _]]|].
  case_decide as Hd.
  - split; [discriminate|by intros [_ ?]].
  - by split.
Qed.

Lemma registerSingleton_consistent key factory r :
  consistent r -> consistent (registerSingleton key factory r).2.
Proof.
  intros [Hc Hp]. rewrite registerSingleton_cases.
  destruct (read key r) as [m|] eqn:E; simpl; [by split|].
  apply read_None in E. destruct E as [Es Ep]. split.
  - intros key'. unfold constructed. simpl. rewrite filter_app, length_app.
    fold (constructed key' r). rewrite (Hc key').
    destruct (decide (key = key')) as [<-|Hne].
    + rewrite lookup_insert_eq, Es. rewrite filter_cons_True by done. reflexivity.
    + rewrite lookup_insert_ne by done. rewrite filter_cons_False by done.
      simpl. lia.
  - intros key' Hin. simpl. rewrite lookup_insert_ne; [by apply Hp|]. by intros <-.
Qed.

Lemma registerSingleton_result key factory r :
  read key (registerSingleton key factory r).2 = Some (registerSingleton key factory r).1.
Proof.
  rewrite registerSingleton_cases.
  destruct (read key r) as [m|] eqn:E; simpl; [done|].
  unfold read. simpl. by rewrite lookup_insert_eq.
Qed.

Lemma registerSingleton_keeps key factory r key' m :
  read key' r = Some m ->
  read key' (registerSingleton key factory r).2 = Some m.
Proof.
  intros H. rewrite registerSingleton_cases.
  destruct (read key r) as [m0|] eqn:E; simpl; [done|].
  unfold read in *. simpl. rewrite lookup_insert_ne; [done|].
  intros <-. unfold read in E. congruence.
Qed.

Lemma registerSingleton_other key factory r key' :
  key ≠ key' ->
  read key' (registerSingleton key factory r).2 = read key' r.
Proof.
  intros Hne. rewrite registerSingleton_cases.
  destruct (read key r) as [m0|] eqn:E; simpl; [done|].
  unfold read. simpl. by rewrite lookup_insert_ne.
Qed.

Lemma register_all_spec cs r :
  consistent r ->
  consistent (register_all cs r).2 ∧
  length (register_all cs r).1 = length cs ∧
  (∀ key m, read key r = Some m -> read key (register_all cs r).2 = Some m) ∧
  (∀ key, key ∉ cs.*1 -> read key (register_all cs r).2 = read key r) ∧
  (∀ n key factory, cs !! n = Some (key, factory) ->
     (register_all cs r).1 !! n = read key (register_all cs r).2).
Proof.
  revert r. induction cs as [|[key factory] rest IH]; intros r Hr.
  - simpl. split; [exact Hr|]. split; [done|]. split; [done|]. split; [done|].
    intros n key factory H. by rewrite lookup_nil in H.
  - simpl.
    pose proof (registerSingleton_consistent key factory r Hr) as Hr1.
    pose proof (registerSingleton_result key factory r) as Hres.
    pose proof (registerSingleton_keeps key factory r) as Hkeep.
    pose proof (registerSingleton_other key factory r) as Hoth.
    destruct (SingletonRegistry.registerSingleton truthy key factory r) as [m r1].
    simpl in *.
    destruct (IH r1 Hr1) as (Hc & Hlen & Hk & Ho & Hn).
    destruct (SingletonRegistry.register_all truthy rest r1) as [ms r2]. simpl in *.
    split; [exact Hc|]. split; [by rewrite Hlen|]. split; [|split].
    + intros key' m' H. apply Hk. by apply Hkeep.
    + intros key' H. apply not_elem_of_cons in H. destruct H as [Hne Hnot].
      rewrite Ho by done. by apply Hoth.
    + intros [|n] key' factory' H; simpl in *.
      * injection H as <- <-. symmetry. by apply Hk.
      * by apply (Hn n key' factory').
Qed.

Lemma registry_pair key f1 f2 r :
  let r1 := (registerSingleton key f1 r).2 in
  let m1 := (registerSingleton key f1 r).1 in
  registerSingleton key f2 r1 = (m1, r1) ∧
  getSingleton key r1 = Some m1 ∧
  (getSingleton key r = None ->
   constructions r1 = constructions r ++ [(key, f1)] ∧
   ∃ inst, m1 = Own inst ∧ built_by inst = f1) ∧
  (is_Some (getSingleton key r) -> r1 = r ∧ getSingleton key r = Some m1).
Proof.
  intros r1 m1.
  pose proof (registerSingleton_result key f1 r) as Hres. fold r1 m1 in Hres.
  split; [|split; [exact Hres|split]].
  - rewrite registerSingleton_cases. by rewrite Hres.
  - intros Hnone. unfold r1, m1. rewrite registerSingleton_cases.
    unfold getSingleton in Hnone. rewrite Hnone. simpl. split; [done|]. eauto.
  - intros [m Hm]. unfold r1, m1. rewrite registerSingleton_cases.
    unfold getSingleton in *. by rewrite Hm.
Qed.

Lemma registry_runs cs key :
  key ∉ prototype_names ->
  let ms := (register_all cs init).1 in
  let r := (register_all cs init).2 in
  constructed key r = (if decide (key ∈ cs.*1) then 1%nat else 0%nat) ∧
  (key ∉ cs.*1 -> getSingleton key r = None) ∧
  (∀ n factory, cs !! n = Some (key, factory) ->
     ms !! n = getSingleton key r ∧
     ∃ inst, getSingleton key r = Some (Own inst)).
Proof.
  intros Hkey ms r.
  destruct (register_all_spec cs init consistent_init) as ([Hc Hp] & Hlen & Hk & Ho & Hn).
  fold ms r in Hc, Hp, Hlen, Hk, Ho, Hn.
  assert (Hinit : read key init = None).
  { apply read_None. split; [apply lookup_empty|done]. }
  assert (Hin : ∀ n factory, cs !! n = Some (key, factory) ->
            ms !! n = getSingleton key r ∧ ∃ inst, getSingleton key r = Some (Own inst)).
  { intros n factory H. pose proof (Hn n key factory H) as E.
    split; [exact E|]. unfold getSingleton.
    assert (Hs : is_Some (ms !! n)).
    { apply lookup_lt_is_Some. rewrite Hlen. by eapply lookup_lt_Some. }
    rewrite E in Hs. destruct Hs as [m Hm]. rewrite Hm.
    unfold read in Hm. destruct (slots r !! key) as [inst|]; [injection Hm as <-; eauto|].
    by rewrite decide_False in Hm. }
  split; [|split; [|exact Hin]].
  - rewrite (Hc key). case_decide as Hd.
    + apply list_elem_of_fmap in Hd. destruct Hd as ([k f] & Hkeq & Hd).
      simpl in Hkeq. subst k.
      apply list_elem_of_lookup in Hd. destruct Hd as [n Hd].
      destruct (Hin n f Hd) as [_ [inst Hi]].
      unfold getSingleton, read in Hi.
      destruct (slots r !! key); [done|]. by rewrite decide_False in Hi.
    + pose proof (Ho key Hd) as E. rewrite Hinit in E.
      apply read_None in E. by rewrite (proj1 E).
  - intros Hd. unfold getSingleton. by rewrite (Ho key Hd).
Qed.
End RegistryFacts.




(** ** Resource store: the in-flight slots along any run *)

Section SlotFacts.
Context {T : Type}.
Variable truthy : T -> bool.
Variable behaviour : Listener -> option T -> option Err.

Import ResourceStore Runs ResourceRuns.

Local Abbreviation Store := (@ResourceStore.Store T).
Local Abbreviation set := (ResourceStore.set truthy behaviour).
Local Abbreviation clear := (ResourceStore.clear truthy behaviour).
Local Abbreviation markStale := (ResourceStore.markStale truthy).
Local Abbreviation ensure := (ResourceStore.ensure truthy).
Local Abbreviation served := (ResourceStore.served truthy).
Local Abbreviation resolve_load := (ResourceStore.resolve_load truthy behaviour).
Local Abbreviation step := (ResourceRuns.step truthy behaviour).
Local Abbreviation run := (ResourceRuns.run truthy behaviour).

Lemma slot_present (s : Store) scopeId p :
  inflight (entry s scopeId) = Some p -> is_Some (states s !! scopeKey scopeId).
Proof.
  unfold entry. destruct (states s !! scopeKey scopeId); [eauto|discriminate].
Qed.

Lemma modify_entry scopeId scopeId' f (s : Store) :
  entry (modify scopeId f s) scopeId' =
  if decide (scopeKey scopeId' = scopeKey scopeId)
  then match states s !! scopeKey scopeId with
       | Some st => f st
       | None => entry s scopeId'
       end
  else entry s scopeId'.
Proof.
  case_decide as Hk.
  - unfold modify, entry. simpl. rewrite Hk, lookup_alter_eq.
    by destruct (states s !! scopeKey scopeId).
  - by apply modify_entry_ne.
Qed.

Lemma modify_slot scopeId scopeId' f (s : Store) :
  (∀ st, inflight (f st) = inflight st) ->
  inflight (entry (modify scopeId f s) scopeId') = inflight (entry s scopeId').
Proof.
  intros Hf. rewrite modify_entry. case_decide as Hk; [|done].
  unfold entry. rewrite Hk.
  destruct (states s !! scopeKey scopeId); simpl; [apply Hf|done].
Qed.

Lemma same_slots_refl (s : Store) : same_slots s s.
Proof. by split. Qed.

Lemma same_slots_trans (s1 s2 s3 : Store) :
  same_slots s1 s2 -> same_slots s2 s3 -> same_slots s1 s3.
Proof.
  intros [Hl1 He1] [Hl2 He2]. split; [congruence|].
  intros sc. by rewrite He2, He1.
Qed.

Lemma same_cache_slots (s s' : Store) : same_cache s s' -> same_slots s s'.
Proof.
  intros (Hl & _ & _ & He). split; [done|]. intros sc. by rewrite He.
Qed.

Lemma getState_same_cache scopeId (s : Store) : same_cache s (getState scopeId s).2.
Proof.
  destruct (getState_frame scopeId s) as (_ & Ha & Hst & Hl).
  split; [done|]. split; [done|]. split; [done|].
  intros sc. apply getState_entry.
Qed.

Lemma getSnapshot_same_cache arg (s : Store) : same_cache s (getSnapshot arg s).2.
Proof.
  unfold getSnapshot.
  pose proof (getState_same_cache (default (activeAccountId s) arg) s) as H.
  by destruct (getState (default (activeAccountId s) arg) s).
Qed.

Lemma with_bus_same_cache b (s : Store) : same_cache s (with_bus b s).
Proof. by repeat split. Qed.

Lemma same_cache_trans (s1 s2 s3 : Store) :
  same_cache s1 s2 -> same_cache s2 s3 -> same_cache s1 s3.
Proof.
  intros (Hl1 & Ha1 & Hs1 & He1) (Hl2 & Ha2 & Hs2 & He2).
  split; [congruence|]. split; [congruence|]. split; [congruence|].
  intros sc. by rewrite He2, He1.
Qed.

Lemma subscribe_same_cache l (s : Store) :
  same_cache s (subscribe behaviour l s).2.
Proof.
  unfold subscribe.
  set (s1 := with_bus (add_listener l (bus s)) s).
  pose proof (getSnapshot_same_cache None s1) as H.
  destruct (getSnapshot None s1) as [snap s2]. simpl in H.
  destruct (call behaviour l snap (bus s2)) as [[u|e] b]; simpl;
    (eapply same_cache_trans;
       [apply (with_bus_same_cache (add_listener l (bus s)) s)|]);
    (eapply same_cache_trans; [exact H|]); apply with_bus_same_cache.
Qed.

Lemma set_same_slots value options now (s : Store) :
  same_slots s (set value options now s).
Proof.
  split; [apply set_frame|]. intros sc.
  destruct (decide (scopeKey sc
              = scopeKey (nullish (set_scopeId options) (activeAccountId s)))) as [Hk|Hk].
  - by rewrite set_entry_written.
  - by rewrite set_entry_other.
Qed.

Lemma markStale_same_slots scopeArg (s : Store) :
  same_slots s (markStale scopeArg s).
Proof.
  unfold ResourceStore.markStale.
  set (scopeId := nullish scopeArg (activeAccountId s)).
  pose proof (getState_same_cache scopeId s) as H.
  destruct (getState scopeId s) as [st s1]. simpl in H.
  apply same_cache_slots in H.
  destruct (is_truthy truthy (cache st)); [|exact H].
  eapply same_slots_trans; [exact H|].
  split; [done|]. intros sc. by apply modify_slot.
Qed.

(** Settling [p]: the slot of its key is emptied, the fetch is closed. *)
Lemma settled_slots_ok p target o (s0 s : Store) :
  slots_ok s0 ->
  same_slots s0 s ->
  loads s0 !! p = Some (mkLoad target None) ->
  slots_ok (settle p o (modify target unmark s)).
Proof.
  intros [H1 H2] [Hl He] Hp.
  assert (Hin : inflight (entry s target) = Some p) by (rewrite He; by apply H2).
  destruct (slot_present s target p Hin) as [st Hst].
  assert (Hentry : ∀ sc, inflight (entry (settle p o (modify target unmark s)) sc) =
            if decide (scopeKey sc = scopeKey target) then None
            else inflight (entry s0 sc)).
  { intros sc. destruct (settle_frame p o (modify target unmark s) sc) as (_ & _ & _ & ->).
    rewrite modify_entry. case_decide; [by rewrite Hst|apply He]. }
  assert (Hloads : loads (settle p o (modify target unmark s))
                   = <[p := mkLoad target (Some o)]> (loads s0)).
  { unfold settle, modify. simpl. by rewrite Hl, Hp. }
  split.
  - intros sc q Hq. rewrite Hentry in Hq. case_decide as Hk; [discriminate|].
    destruct (H1 sc q Hq) as (tq & Hlq & Hkq).
    exists tq. split; [|done]. rewrite Hloads.
    rewrite list_lookup_insert_ne; [done|].
    intros <-. rewrite Hp in Hlq. injection Hlq as <-. by apply Hk.
  - intros q tq Hq. rewrite Hloads in Hq.
    destruct (decide (p = q)) as [<-|Hne].
    + rewrite list_lookup_insert_eq in Hq by (by eapply lookup_lt_Some). discriminate.
    + rewrite list_lookup_insert_ne in Hq by done.
      pose proof (H2 q tq Hq) as Hs. rewrite Hentry.
      case_decide as Hk; [|done].
      exfalso. apply Hne.
      pose proof (H2 p target Hp) as Hsp.
      unfold entry in Hs, Hsp. rewrite Hk in Hs. congruence.
Qed.

Lemma step_slots_ok op (s : Store) : slots_ok s -> slots_ok (step op s).
Proof.
  intros Hok.
  assert (Hsame : ∀ s', same_slots s s' -> slots_ok s').
  { intros s' [Hl He]. destruct Hok as [H1 H2]. split.
    - intros sc p Hp. rewrite He in Hp. rewrite Hl. by apply H1.
    - intros p target Hp. rewrite Hl in Hp. rewrite He. by apply H2. }
  destruct op; simpl.
  - (* ensure *)
    set (target := ensure_target options s).
    destruct (served (default false (force options)) s (entry s target) now)
      as [v|] eqn:Hs.
    { rewrite (ensure_hit truthy options now s v Hs). simpl.
      apply Hsame, same_cache_slots, getState_same_cache. }
    destruct (inflight (entry s target)) as [p|] eqn:Hp.
    { rewrite (ensure_join truthy options now s p Hs Hp). simpl. exact Hok. }
    pose proof (λ sc, ensure_miss_entry truthy options now s sc Hs Hp) as Hm.
    simpl in Hm. fold target in Hm.
    set (s1 := (ensure options now s).2) in *.
    destruct Hok as [H1 H2].
    destruct (Hm target) as (_ & _ & _ & _ & _ & Hl).
    split.
    + intros sc p Hq. destruct (Hm sc) as (He & _). rewrite He in Hq.
      case_decide as Hk.
      * simpl in Hq. injection Hq as <-. exists target. split; [|done].
        rewrite Hl. apply lookup_snoc.
      * destruct (H1 sc p Hq) as (tq & Hlq & Hkq). exists tq. split; [|done].
        rewrite Hl. rewrite lookup_app_l; [done|]. by eapply lookup_lt_Some.
    + intros p tq Hq. rewrite Hl in Hq.
      destruct (Hm tq) as (He & _). rewrite He.
      destruct (decide (p < length (loads s))%nat) as [Hlt|Hge].
      * rewrite lookup_app_l in Hq by done.
        pose proof (H2 p tq Hq) as Hslot.
        case_decide as Hk; [|done].
        exfalso. unfold entry in Hslot, Hp. rewrite Hk in Hslot. congruence.
      * rewrite lookup_app_r in Hq by lia.
        destruct (p - length (loads s))%nat as [|n] eqn:E; simpl in Hq; [|done].
        injection Hq as <-. rewrite decide_True by done. simpl. f_equal. lia.
  - apply Hsame, set_same_slots.
  - apply Hsame. unfold ResourceStore.clear. apply set_same_slots.
  - apply Hsame, markStale_same_slots.
  - apply Hsame, same_cache_slots, getSnapshot_same_cache.
  - apply Hsame, same_cache_slots, subscribe_same_cache.
  - apply Hsame, same_cache_slots. unfold dispose. apply with_bus_same_cache.
  - (* the account scope changes *)
    apply Hsame. unfold onActiveAccount.
    set (s1 := mkStore (bus s) (states s) accountId (staleTime s) (loads s)).
    pose proof (getSnapshot_same_cache None s1) as H.
    destruct (getSnapshot None s1) as [snap s2]. simpl in H.
    destruct H as (Hl & _ & _ & He). split; [exact Hl|]. intros sc.
    unfold emit. change (inflight (entry s2 sc) = inflight (entry s sc)).
    by rewrite He.
  - (* a fetch is fulfilled *)
    unfold ResourceStore.resolve_load.
    destruct (loads s !! p) as [[target [o|]]|] eqn:Hp; simpl; try exact Hok.
    apply (settled_slots_ok p target (Resolved value) s); [done| |done].
    apply set_same_slots.
  - (* a fetch is rejected *)
    unfold reject_load.
    destruct (loads s !! p) as [[target [o|]]|] eqn:Hp; simpl; try exact Hok.
    apply (settled_slots_ok p target (Rejected e) s); [done| |done].
    apply same_slots_refl.
Qed.

Lemma create_slots_ok stale_time accountId :
  slots_ok (create behaviour stale_time accountId).
Proof.
  unfold create.
  set (s0 := mkStore empty_bus ∅ accountId (default 60000 stale_time) []).
  assert (H0 : slots_ok s0).
  { split.
    - intros sc p. unfold entry. simpl. by rewrite lookup_empty.
    - intros p target. simpl. by rewrite lookup_nil. }
  exact (step_slots_ok (AccountChanged accountId) s0 H0).
Qed.

Lemma run_slots_ok ops (s : Store) : slots_ok s -> slots_ok (run ops s).
Proof.
  revert s. induction ops as [|op ops IH]; intros s Hok; simpl; [done|].
  apply IH. by apply step_slots_ok.
Qed.
End SlotFacts.

(** X1.  Along any sequence of calls and settlements on a new resource
    store, the in-flight slots match the outstanding fetches: a non-empty
    slot names an outstanding fetch that was made for the key of that
    slot, every outstanding fetch sits in the slot of its key, and hence
    two fetches outstanding at once are never for the same key. *)
Theorem one_fetch_per_scope :
  ∀ (T : Type) (truthy : T -> bool) (behaviour : Listener -> option T -> option Err)
    (stale_time : option Z) (accountId : ScopeId) (ops : list (@ResourceRuns.Op T)),
    let s := ResourceRuns.run truthy behaviour ops
               (ResourceStore.create behaviour stale_time accountId) in
    ResourceRuns.slots_ok s ∧
    ∀ p q target target',
      ResourceStore.loads s !! p = Some (ResourceStore.mkLoad target None) ->
      ResourceStore.loads s !! q = Some (ResourceStore.mkLoad target' None) ->
      scopeKey target = scopeKey target' ->
      p = q.
Proof.
  intros T truthy behaviour stale_time accountId ops s.
  assert (Hok : ResourceRuns.slots_ok s).
  { unfold s. apply run_slots_ok. apply (create_slots_ok truthy). }
  split; [exact Hok|].
  intros p q target target' Hp Hq Hk. destruct Hok as [_ H2].
  pose proof (H2 p target Hp) as Hsp. pose proof (H2 q target' Hq) as Hsq.
  unfold ResourceStore.entry in Hsp, Hsq. rewrite Hk in Hsp. congruence.
Qed.

(** X1, witness: after [busy_run] the slot of the null scope holds fetch
    2, which is outstanding and was made for that scope. *)
Lemma one_fetch_per_scope_witness :
  (∃ target,
     ResourceStore.loads busy_store !! 2%nat = Some (ResourceStore.mkLoad target None) ∧
     scopeKey target = scopeKey None) ∧
  ResourceStore.inflight (ResourceStore.entry busy_store (Some "usr_a")) = Some 1%nat.
Proof.
  destruct (one_fetch_per_scope nat any_truthy quiet (Some 1000) None busy_run)
    as [[H1 H2] _].
  split.
  - exact (H1 None 2%nat eq_refl).
  - exact (H2 1%nat (Some "usr_a") eq_refl).
Defined.

(** ** Resource store: what the operations do to a scope *)

Section ResourceExtras.
Context {T : Type}.
Variable truthy : T -> bool.
Variable behaviour : Listener -> option T -> option Err.

Import ResourceStore Runs ResourceRuns.

Local Abbreviation Store := (@ResourceStore.Store T).
Local Abbreviation set := (ResourceStore.set truthy behaviour).
Local Abbreviation clear := (ResourceStore.clear truthy behaviour).
Local Abbreviation markStale := (ResourceStore.markStale truthy).
Local Abbreviation ensure := (ResourceStore.ensure truthy).
Local Abbreviation refresh := (ResourceStore.refresh truthy).
Local Abbreviation served := (ResourceStore.served truthy).
Local Abbreviation resolve_load := (ResourceStore.resolve_load truthy behaviour).

(** X2.  A value written by [set] is served from the cache: after
    [set(v)] of a truthy value at [t0] without [stale], an unforced
    [ensure] on the same scope at any time [t] with [t - t0 <= staleTime]
    returns [v], invokes no [load()], calls no subscriber and changes no
    entry. *)
Theorem fresh_value_is_served (v : T) (options : SetOptions) (t0 : Z)
    (eo : EnsureOptions) (t : Z) (s : Store) :
  truthy v = true ->
  default false (stale options) = false ->
  default false (force eo) = false ->
  ensure_target eo s = nullish (set_scopeId options) (activeAccountId s) ->
  t - t0 <= staleTime s ->
  let s' := set (Some v) options t0 s in
  (ensure eo t s').1 = Value v ∧
  loads (ensure eo t s').2 = loads s' ∧
  bus (ensure eo t s').2 = bus s' ∧
  ∀ scopeId, entry (ensure eo t s').2 scopeId = entry s' scopeId.
Proof.
  intros Hv Hst Hf Ht Hfresh s'.
  destruct (set_frame truthy behaviour (Some v) options t0 s) as (Ha & Hw & Hl).
  fold s' in Ha, Hw, Hl.
  assert (Ht' : ensure_target eo s' = nullish (set_scopeId options) (activeAccountId s)).
  { rewrite <- Ht. unfold ensure_target. by rewrite Ha. }
  assert (He : entry s' (ensure_target eo s') =
               mkState (Some v) (inflight (entry s (ensure_target eo s'))) t0).
  { rewrite Ht'. unfold s'. rewrite set_entry_written by done.
    simpl. by rewrite Hv, Hst. }
  assert (Hs : served (default false (force eo)) s' (entry s' (ensure_target eo s')) t
               = Some v).
  { rewrite He, Hf. unfold ResourceStore.served, isStale. simpl. rewrite Hv, Hw. simpl.
    destruct (t - t0 >? staleTime s) eqn:E; [lia|done]. }
  rewrite (ensure_hit truthy eo t s' v Hs). simpl.
  destruct (getState_frame (ensure_target eo s') s') as (Hb & _ & _ & Hl').
  split; [done|]. split; [done|]. split; [done|].
  intros sc. apply getState_entry.
Qed.

(** X3.  [markStale] keeps every cached value, every slot and the record
    of calls, and after it no [ensure] on the scope made at a time later
    than [staleTime] (any real clock reading) is served from the cache. *)
Theorem markStale_forces_refetch (scopeArg : ScopeArg) (eo : EnsureOptions)
    (now : Z) (s : Store) :
  let scopeId := nullish scopeArg (activeAccountId s) in
  let s' := markStale scopeArg s in
  (∀ sc, cache (entry s' sc) = cache (entry s sc) ∧
         inflight (entry s' sc) = inflight (entry s sc)) ∧
  bus s' = bus s ∧ loads s' = loads s ∧
  (staleTime s < now ->
   ensure_target eo s' = scopeId ->
   ∀ v, (ensure eo now s').1 ≠ Value v).
Proof.
  intros scopeId s'.
  assert (Hshape : ∀ sc,
            entry s' sc = entry s sc ∨
            (scopeKey sc = scopeKey scopeId ∧
             entry s' sc = mkState (cache (entry s sc)) (inflight (entry s sc)) 0) ).
  { intros sc. unfold s', ResourceStore.markStale. fold scopeId.
    pose proof (getState_entry scopeId sc s) as He.
    pose proof (getState_present scopeId s) as Hp.
    destruct (getState scopeId s) as [st s1]. simpl in He, Hp.
    destruct (is_truthy truthy (cache st)); [|by left].
    rewrite modify_entry. case_decide as Hk; [|by left].
    right. split; [done|]. rewrite Hp. unfold entry. by rewrite Hk. }
  assert (Hframe : bus s' = bus s ∧ loads s' = loads s ∧ staleTime s' = staleTime s).
  { unfold s', ResourceStore.markStale. fold scopeId.
    destruct (getState_frame scopeId s) as (Hb & _ & Hst & Hl).
    destruct (getState scopeId s) as [st s1]. simpl in *.
    by destruct (is_truthy truthy (cache st)). }
  destruct Hframe as (Hb & Hl & Hw).
  assert (Hstamp : is_truthy truthy (cache (entry s scopeId)) = true ->
                   updatedAt (entry s' scopeId) = 0).
  { intros Htr. unfold s', ResourceStore.markStale. fold scopeId.
    pose proof (getState_result scopeId s) as Hr.
    pose proof (getState_present scopeId s) as Hp.
    destruct (getState scopeId s) as [st s1]. simpl in Hr, Hp. subst st.
    rewrite Htr. rewrite modify_entry, decide_True by done. by rewrite Hp. }
  split; [|split; [done|split; [done|]]].
  - intros sc. destruct (Hshape sc) as [->|[_ ->]]; by split.
  - intros Hnow Ht v Hval.
    assert (Hs : served (default false (force eo)) s' (entry s' (ensure_target eo s')) now
                 = None).
    { rewrite Ht. unfold ResourceStore.served.
      destruct (cache (entry s' scopeId)) as [w|] eqn:Hc; [|done].
      destruct (truthy w) eqn:Htw; [|by rewrite andb_false_r].
      assert (Htr : is_truthy truthy (cache (entry s scopeId)) = true).
      { destruct (Hshape scopeId) as [E|[_ E]]; rewrite E in Hc; simpl in Hc;
          rewrite Hc; exact Htw. }
      unfold isStale. rewrite Hc. simpl. rewrite Htw. simpl.
      rewrite (Hstamp Htr), Hw.
      destruct (now - 0 >? staleTime s) eqn:E; [by rewrite andb_false_r|lia]. }
    destruct (inflight (entry s' (ensure_target eo s'))) as [p|] eqn:Hp.
    + rewrite (ensure_join truthy eo now s' p Hs Hp) in Hval. discriminate.
    + rewrite (ensure_miss truthy eo now s' Hs Hp) in Hval. discriminate.
Qed.

(** X4.  Writing a value and then marking its scope stale is the same as
    writing it with [stale: true]. *)
Theorem set_then_markStale (value : option T) (st : option bool) (scopeArg : ScopeArg)
    (now : Z) (s : Store) :
  markStale scopeArg (set value (mkSetOptions st scopeArg) now s)
  = set value (mkSetOptions (Some true) scopeArg) now s.
Proof.
  unfold ResourceStore.markStale.
  destruct (set_frame truthy behaviour value (mkSetOptions st scopeArg) now s) as (Ha & _).
  rewrite Ha.
  set (scopeId := nullish scopeArg (activeAccountId s)).
  assert (Hset : ∀ st',
            set value (mkSetOptions st' scopeArg) now s =
            let m := modify scopeId
                       (λ st1, mkState value (inflight st1)
                          (if is_truthy truthy value && negb (default false st')
                           then now else 0))
                       (getState scopeId s).2 in
            if decide (scopeId = activeAccountId s) then emit behaviour value m else m).
  { intros st'. unfold ResourceStore.set. simpl. fold scopeId.
    by destruct (getState scopeId s). }
  rewrite !Hset. simpl. rewrite andb_false_r.
  set (stamp := if is_truthy truthy value && negb (default false st) then now else 0).
  set (s1 := (getState scopeId s).2).
  pose proof (getState_present scopeId s) as Hp. fold s1 in Hp.
  assert (Halter : alter (λ st1 : StoreState, mkState (cache st1) (inflight st1) 0)
                     (scopeKey scopeId)
                     (alter (λ st1, mkState value (inflight st1) stamp)
                        (scopeKey scopeId) (states s1))
                   = alter (λ st1, mkState value (inflight st1) 0)
                       (scopeKey scopeId) (states s1)).
  { rewrite alter_alter_eq. by apply alter_ext. }
  assert (Hfalsy : is_truthy truthy value = false -> stamp = 0).
  { intros E. unfold stamp. by rewrite E. }
  case_decide.
  - unfold getState at 1. simpl. rewrite lookup_alter_eq, Hp. simpl.
    destruct (is_truthy truthy value) eqn:Htr.
    + unfold modify, emit, with_states, with_bus. simpl. by rewrite Halter.
    + by rewrite (Hfalsy eq_refl).
  - unfold getState at 1. simpl. rewrite lookup_alter_eq, Hp. simpl.
    destruct (is_truthy truthy value) eqn:Htr.
    + unfold modify, with_states. simpl. by rewrite Halter.
    + by rewrite (Hfalsy eq_refl).
Qed.
End ResourceExtras.

Section ResourceExtras2.
Context {T : Type}.
Variable truthy : T -> bool.
Variable behaviour : Listener -> option T -> option Err.

Import ResourceStore Runs ResourceRuns.

Local Abbreviation Store := (@ResourceStore.Store T).
Local Abbreviation set := (ResourceStore.set truthy behaviour).
Local Abbreviation clear := (ResourceStore.clear truthy behaviour).
Local Abbreviation ensure := (ResourceStore.ensure truthy).
Local Abbreviation refresh := (ResourceStore.refresh truthy).
Local Abbreviation served := (ResourceStore.served truthy).
Local Abbreviation resolve_load := (ResourceStore.resolve_load truthy behaviour).
Local Abbreviation onActiveAccount := (ResourceStore.onActiveAccount behaviour).

Lemma set_written_present value options now (s : Store) :
  is_Some (states (set value options now s)
           !! scopeKey (nullish (set_scopeId options) (activeAccountId s))).
Proof.
  unfold ResourceStore.set.
  set (scopeId := nullish _ _).
  pose proof (getState_present scopeId s) as Hp.
  destruct (getState scopeId s) as [st s1]. simpl in Hp.
  case_decide; simpl; rewrite lookup_alter_eq, Hp; simpl; eauto.
Qed.

(** What [resolve_load] leaves for a fetch made for a non-null scope. *)
Lemma resolve_load_lands (p : PromiseId) (a : string) (v : T)
    (now : Z) (s : Store) :
  loads s !! p = Some (mkLoad (Some a) None) ->
  ∃ s2, resolve_load p v now s = Some s2 ∧
    entry s2 (Some a) = mkState (Some v) None (if truthy v then now else 0) ∧
    (∀ scopeId, scopeKey scopeId ≠ a -> entry s2 scopeId = entry s scopeId) ∧
    calls (bus s2) =
      calls (bus s) ++
      (if decide (Some a = activeAccountId s)
       then map (λ l, (l, Some v)) (listeners (bus s)) else []) ∧
    outcome_of s2 (Pending p) = Some (Resolved v) ∧
    activeAccountId s2 = activeAccountId s.
Proof.
  intros Hp. unfold ResourceStore.resolve_load. rewrite Hp.
  set (s1 := set (Some v) (mkSetOptions None (ScopeStr a)) now s).
  exists (settle p (Resolved v) (modify (Some a) unmark s1)).
  split; [reflexivity|].
  destruct (set_frame truthy behaviour (Some v) (mkSetOptions None (ScopeStr a)) now s)
    as (Ha & _ & Hl). fold s1 in Ha, Hl.
  pose proof (set_written_present (Some v) (mkSetOptions None (ScopeStr a)) now s) as Hpres.
  simpl in Hpres. fold s1 in Hpres.
  split; [|split; [|split; [|split]]].
  - destruct (settle_frame p (Resolved v) (modify (Some a) unmark s1) (Some a))
      as (_ & _ & _ & ->).
    rewrite (modify_entry_eq (Some a) (Some a)) by done.
    unfold s1. rewrite set_entry_written by done. simpl. by rewrite andb_true_r.
  - intros sc Hk.
    destruct (settle_frame p (Resolved v) (modify (Some a) unmark s1) sc)
      as (_ & _ & _ & ->).
    rewrite modify_entry_ne by done. unfold s1. by rewrite set_entry_other.
  - destruct (settle_frame p (Resolved v) (modify (Some a) unmark s1) None) as (-> & _).
    change (calls (bus s1) = calls (bus s) ++
              (if decide (Some a = activeAccountId s)
               then map (λ l, (l, Some v)) (listeners (bus s)) else [])).
    unfold s1. rewrite set_bus. simpl. case_decide.
    + apply notify_calls.
    + by rewrite app_nil_r.
  - apply settle_outcome with (ld := mkLoad (Some a) None).
    change (loads s1 !! p = Some (mkLoad (Some a) None)). by rewrite Hl.
  - destruct (settle_frame p (Resolved v) (modify (Some a) unmark s1) None)
      as (_ & -> & _). exact Ha.
Qed.

(** X5.  A fetch made for an account lands in the partition of that
    account: when the outstanding fetch [p] made for the non-null scope [a]
    is fulfilled with [v], the entry of [a] holds [v], stamped with the
    time of the fulfilment (0 for a falsy value), its slot is empty, every
    other partition is untouched, and the subscribers are called exactly
    when [a] is the active account at that moment. *)
Theorem fetched_value_lands_in_target (p : PromiseId) (a : string) (v : T)
    (now : Z) (s : Store) :
  loads s !! p = Some (mkLoad (Some a) None) ->
  ∃ s2, resolve_load p v now s = Some s2 ∧
    entry s2 (Some a) = mkState (Some v) None (if truthy v then now else 0) ∧
    (∀ scopeId, scopeKey scopeId ≠ a -> entry s2 scopeId = entry s scopeId) ∧
    calls (bus s2) =
      calls (bus s) ++
      (if decide (Some a = activeAccountId s)
       then map (λ l, (l, Some v)) (listeners (bus s)) else []) ∧
    outcome_of s2 (Pending p) = Some (Resolved v) ∧
    activeAccountId s2 = activeAccountId s.
Proof. apply resolve_load_lands. Qed.

(** X6.  [clear] does not cancel a fetch: while the fetch [p] made for
    the non-null scope [a] is outstanding, [clear({ scopeId: a })] empties
    the cached value but leaves the slot, so every later [ensure] on [a],
    forced or not, receives [p] without a second [load()], and the value
    [p] is fulfilled with is written into the cleared entry. *)
Theorem clear_keeps_fetch (p : PromiseId) (a : string) (s : Store) :
  slots_ok s ->
  loads s !! p = Some (mkLoad (Some a) None) ->
  let s' := clear (ScopeStr a) s in
  cache (entry s' (Some a)) = None ∧
  updatedAt (entry s' (Some a)) = 0 ∧
  (∀ eo now, ensure_target eo s' = Some a -> ensure eo now s' = (Pending p, s')) ∧
  (∀ v now, ∃ s2, resolve_load p v now s' = Some s2 ∧
     cache (entry s2 (Some a)) = Some v ∧ inflight (entry s2 (Some a)) = None).
Proof.
  intros [_ H2] Hp s'.
  assert (He : entry s' (Some a) = mkState None (Some p) 0).
  { unfold s', ResourceStore.clear. simpl. rewrite set_entry_written by done.
    simpl. by rewrite (H2 p (Some a) Hp). }
  assert (Hl : loads s' = loads s) by apply set_frame.
  split; [by rewrite He|]. split; [by rewrite He|]. split.
  - intros eo now Ht. apply ensure_join; rewrite Ht, He; reflexivity.
  - intros v now.
    destruct (resolve_load_lands p a v now s' ltac:(by rewrite Hl))
      as (s2 & Hr & He2 & _).
    exists s2. split; [exact Hr|]. by rewrite He2.
Qed.

(** X7.  An account switch only changes which partition is visible: the
    callback the store registers with the account scope stores the new id,
    leaves every entry as it is, and calls each listener once with the
    cached value of the new scope; switching away and back shows the same
    snapshot again. *)
Theorem account_switch_keeps_partitions (accountId : ScopeId) (s : Store) :
  let s' := onActiveAccount accountId s in
  activeAccountId s' = accountId ∧
  (∀ scopeId, entry s' scopeId = entry s scopeId) ∧
  loads s' = loads s ∧
  listeners (bus s') = listeners (bus s) ∧
  calls (bus s') =
    calls (bus s) ++ map (λ l, (l, cache (entry s accountId))) (listeners (bus s)) ∧
  (getSnapshot None (onActiveAccount (activeAccountId s) s')).1 = (getSnapshot None s).1.
Proof.
  assert (Hgen : ∀ id (s0 : Store),
            activeAccountId (onActiveAccount id s0) = id ∧
            (∀ scopeId, entry (onActiveAccount id s0) scopeId = entry s0 scopeId) ∧
            loads (onActiveAccount id s0) = loads s0 ∧
            bus (onActiveAccount id s0) =
              notify behaviour "ResourceStore listener error"
                (cache (entry s0 id)) (bus s0)).
  { intros id s0. unfold ResourceStore.onActiveAccount.
    set (s1 := mkStore (bus s0) (states s0) id (staleTime s0) (loads s0)).
    pose proof (getSnapshot_same_cache None s1) as (Hl & Ha & _ & He).
    pose proof (getSnapshot_result None s1) as Hr.
    destruct (getSnapshot_frame None s1 None) as (Hb & _).
    destruct (getSnapshot None s1) as [snap s2]. simpl in *.
    subst snap. split; [done|]. split; [done|]. split; [done|]. by rewrite Hb. }
  intros s'. destruct (Hgen accountId s) as (Ha & He & Hl & Hb). fold s' in Ha, He, Hl, Hb.
  split; [done|]. split; [done|]. split; [done|].
  split; [rewrite Hb; apply notify_listeners|].
  split; [rewrite Hb; apply notify_calls|].
  destruct (Hgen (activeAccountId s) s') as (Ha' & He' & _).
  rewrite !getSnapshot_result. simpl. by rewrite Ha', He', He.
Qed.

(** X8.  [refresh] never answers from the cache: it joins the fetch in
    flight for the active scope, or else invokes [load()] for it, however
    fresh the cached value is. *)
Theorem refresh_never_serves (now : Z) (s : Store) :
  match inflight (entry s (activeAccountId s)) with
  | Some p => refresh now s = (Pending p, s)
  | None =>
      (refresh now s).1 = Pending (length (loads s)) ∧
      loads (refresh now s).2 = loads s ++ [mkLoad (activeAccountId s) None] ∧
      ∀ scopeId, cache (entry (refresh now s).2 scopeId) = cache (entry s scopeId)
  end.
Proof.
  unfold ResourceStore.refresh.
  set (eo := mkEnsureOptions (Some true) ScopeAbsent).
  assert (Ht : ensure_target eo s = activeAccountId s) by reflexivity.
  assert (Hs : served (default false (force eo)) s (entry s (ensure_target eo s)) now = None).
  { unfold ResourceStore.served. simpl. by destruct (cache _). }
  destruct (inflight (entry s (activeAccountId s))) as [p|] eqn:Hp.
  - apply ensure_join; [exact Hs|]. by rewrite Ht.
  - rewrite <- Ht in Hp.
    pose proof (λ sc, ensure_miss_entry truthy eo now s sc Hs Hp) as Hm. simpl in Hm.
    split; [by rewrite (ensure_miss truthy eo now s Hs Hp)|].
    split; [apply (Hm None)|].
    intros sc. destruct (Hm sc) as (-> & _). by case_decide.
Qed.
End ResourceExtras2.

(** X2, witness: 7 written at 0 is still served at 1000. *)
Lemma fresh_value_is_served_witness :
  (ResourceStore.ensure any_truthy ResourceStore.no_ensure_options 1000 store_with_7).1
  = ResourceStore.Value 7%nat.
Proof.
  destruct (fresh_value_is_served any_truthy quiet 7%nat ResourceStore.no_set_options 0
              ResourceStore.no_ensure_options 1000 store0
              eq_refl eq_refl eq_refl eq_refl ltac:(vm_compute; discriminate))
    as [H _].
  exact H.
Defined.

(** X3, witness: the 7 of [store_with_7], marked stale, is not served at
    5000. *)
Lemma markStale_forces_refetch_witness :
  (ResourceStore.ensure any_truthy ResourceStore.no_ensure_options 5000
     (ResourceStore.markStale any_truthy ScopeAbsent store_with_7)).1
  ≠ ResourceStore.Value 7%nat.
Proof.
  destruct (markStale_forces_refetch any_truthy ScopeAbsent
              ResourceStore.no_ensure_options 5000 store_with_7) as (_ & _ & _ & H).
  exact (H eq_refl eq_refl 7%nat).
Defined.

(** X5, witness: fetch 1 of [busy_store], made for [usr_a], is fulfilled
    while no account is active. *)
Lemma fetched_value_lands_in_target_witness :
  ∃ s2,
    ResourceStore.resolve_load any_truthy quiet 1%nat 9%nat 50 busy_store = Some s2 ∧
    ResourceStore.entry s2 (Some "usr_a") = ResourceStore.mkState (Some 9%nat) None 50 ∧
    calls (ResourceStore.bus s2) = calls (ResourceStore.bus busy_store).
Proof.
  destruct (fetched_value_lands_in_target any_truthy quiet 1%nat "usr_a" 9%nat 50
              busy_store eq_refl) as (s2 & Hr & He & _ & Hc & _).
  exists s2. split; [exact Hr|]. split; [exact He|].
  etransitivity; [exact Hc|]. apply app_nil_r.
Defined.

(** X6, witness: [usr_a] is cleared while its fetch is outstanding. *)
Lemma clear_keeps_fetch_witness :
  let s' := ResourceStore.clear any_truthy quiet (ScopeStr "usr_a") busy_store in
  ResourceStore.ensure any_truthy
    (ResourceStore.mkEnsureOptions (Some true) (ScopeStr "usr_a")) 60 s'
  = (ResourceStore.Pending 1%nat, s').
Proof.
  intros s'.
  destruct (clear_keeps_fetch any_truthy quiet 1%nat "usr_a" busy_store
              (run_slots_ok any_truthy quiet busy_run store0
                 (create_slots_ok any_truthy quiet (Some 1000) None))
              eq_refl) as (_ & _ & H & _).
  exact (H (ResourceStore.mkEnsureOptions (Some true) (ScopeStr "usr_a")) 60 eq_refl).
Defined.

(** ** Listener sets: subscribing and disposing *)

Lemma filter_all {A} (P : A -> Prop) `{∀ x, Decision (P x)} (l : list A) :
  Forall P l -> filter P l = l.
Proof.
  induction 1 as [|x l Hx _ IH]; [done|].
  rewrite filter_cons_True by done. by rewrite IH.
Qed.

Lemma filter_none {A} (P : A -> Prop) `{∀ x, Decision (P x)} (l : list A) :
  Forall (λ x, ¬ P x) l -> filter P l = [].
Proof.
  induction 1 as [|x l Hx _ IH]; [done|].
  by rewrite filter_cons_False.
Qed.

Section ListenerSetFacts.
Context {V : Type}.
Variable behaviour : Listener -> V -> option Err.

Lemma delete_after_add l (b : Bus V) :
  l ∉ listeners b -> listeners (delete_listener l (add_listener l b)) = listeners b.
Proof.
  intros Hl. unfold delete_listener, add_listener. rewrite decide_False by done.
  simpl. rewrite filter_app. simpl.
  rewrite filter_cons_False by (intros H; by apply H). rewrite app_nil_r.
  apply filter_all. apply Forall_forall. intros x Hx ->. by apply Hl.
Qed.

Lemma add_existing l (b : Bus V) : l ∈ listeners b -> add_listener l b = b.
Proof. intros Hl. unfold add_listener. by rewrite decide_True. Qed.

Lemma add_listener_NoDup l (b : Bus V) :
  NoDup (listeners b) -> NoDup (listeners (add_listener l b)).
Proof.
  intros Hnd. unfold add_listener. case_decide; [done|]. simpl.
  apply NoDup_app. split; [done|]. split.
  - intros x Hx Hx'. apply list_elem_of_singleton in Hx'. by subst.
  - apply NoDup_singleton.
Qed.

Lemma subscribe_bus_set l v (b : Bus V) :
  listeners (subscribe_bus behaviour l v b).2 = listeners (add_listener l b).
Proof. unfold subscribe_bus, call. by destruct (behaviour l v). Qed.
End ListenerSetFacts.

(** X9.  The listeners of the resource store, of the alert store and of
    the account scope form a set: subscribing a callback that is already
    registered leaves the listeners as they are, so it is called once per
    notification, and one disposer removes it altogether; subscribing a
    new callback and running its disposer restores the listeners. *)
Theorem subscribe_dispose_round_trip :
  (∀ (T : Type) (behaviour : Listener -> option T -> option Err) (l : Listener)
     (s : @ResourceStore.Store T),
     let s' := (ResourceStore.subscribe behaviour l s).2 in
     (NoDup (listeners (ResourceStore.bus s)) -> NoDup (listeners (ResourceStore.bus s'))) ∧
     (l ∈ listeners (ResourceStore.bus s) ->
      listeners (ResourceStore.bus s') = listeners (ResourceStore.bus s)) ∧
     (l ∉ listeners (ResourceStore.bus s) ->
      listeners (ResourceStore.bus (ResourceStore.dispose l s'))
      = listeners (ResourceStore.bus s))) ∧
  (∀ (behaviour : Listener -> AlertStore.AlertStoreState -> option Err) (l : Listener)
     (s : AlertStore.Store),
     let s' := (AlertStore.subscribe behaviour l s).2 in
     (NoDup (listeners (AlertStore.bus s)) -> NoDup (listeners (AlertStore.bus s'))) ∧
     (l ∈ listeners (AlertStore.bus s) ->
      listeners (AlertStore.bus s') = listeners (AlertStore.bus s)) ∧
     (l ∉ listeners (AlertStore.bus s) ->
      listeners (AlertStore.bus (AlertStore.dispose l s')) = listeners (AlertStore.bus s))) ∧
  (∀ (behaviour : Listener -> ScopeId -> option Err) (l : Listener)
     (s : AccountScope.State),
     let s' := (AccountScope.subscribeActiveAccount behaviour l s).2 in
     (NoDup (listeners (AccountScope.bus s)) -> NoDup (listeners (AccountScope.bus s'))) ∧
     (l ∈ listeners (AccountScope.bus s) ->
      listeners (AccountScope.bus s') = listeners (AccountScope.bus s)) ∧
     (l ∉ listeners (AccountScope.bus s) ->
      listeners (AccountScope.bus (AccountScope.dispose l s'))
      = listeners (AccountScope.bus s))).
Proof.
  split; [|split].
  - intros T behaviour l s s'.
    assert (Hs' : listeners (ResourceStore.bus s')
                  = listeners (add_listener l (ResourceStore.bus s))).
    { unfold s', ResourceStore.subscribe.
      set (s1 := ResourceStore.with_bus (add_listener l (ResourceStore.bus s)) s).
      destruct (getSnapshot_frame None s1 None) as (Hb & _).
      destruct (ResourceStore.getSnapshot None s1) as [snap s2]. simpl in Hb.
      unfold call. destruct (behaviour l snap); simpl; by rewrite Hb. }
    split; [|split].
    + intros Hnd. rewrite Hs'. by apply add_listener_NoDup.
    + intros Hl. rewrite Hs'. by rewrite add_existing.
    + intros Hl. unfold ResourceStore.dispose, delete_listener. simpl. rewrite Hs'.
      apply (delete_after_add l (ResourceStore.bus s) Hl).
  - intros behaviour l s s'.
    assert (Hs' : listeners (AlertStore.bus s')
                  = listeners (add_listener l (AlertStore.bus s))).
    { unfold s', AlertStore.subscribe.
      pose proof (subscribe_bus_set behaviour l (AlertStore.getSnapshot s) (AlertStore.bus s)).
      by destruct (subscribe_bus behaviour l (AlertStore.getSnapshot s) (AlertStore.bus s)). }
    split; [|split].
    + intros Hnd. rewrite Hs'. by apply add_listener_NoDup.
    + intros Hl. rewrite Hs'. by rewrite add_existing.
    + intros Hl. unfold AlertStore.dispose, delete_listener. simpl. rewrite Hs'.
      apply (delete_after_add l (AlertStore.bus s) Hl).
  - intros behaviour l s s'.
    assert (Hs' : listeners (AccountScope.bus s')
                  = listeners (add_listener l (AccountScope.bus s))).
    { unfold s', AccountScope.subscribeActiveAccount.
      pose proof (subscribe_bus_set behaviour l (AccountScope.currentAccountId s)
                    (AccountScope.bus s)).
      by destruct (subscribe_bus behaviour l (AccountScope.currentAccountId s)
                     (AccountScope.bus s)). }
    split; [|split].
    + intros Hnd. rewrite Hs'. by apply add_listener_NoDup.
    + intros Hl. rewrite Hs'. by rewrite add_existing.
    + intros Hl. unfold AccountScope.dispose, delete_listener. simpl. rewrite Hs'.
      apply (delete_after_add l (AccountScope.bus s) Hl).
Qed.

(** X9, witness: listener 0 subscribes a second time to [store_of_b], and
    listener 5 subscribes and leaves. *)
Lemma subscribe_dispose_round_trip_witness :
  listeners (ResourceStore.bus (ResourceStore.subscribe quiet 0%nat store_of_b).2) = [0%nat] ∧
  listeners (ResourceStore.bus
               (ResourceStore.dispose 5%nat (ResourceStore.subscribe quiet 5%nat store_of_b).2))
  = [0%nat].
Proof.
  destruct subscribe_dispose_round_trip as (HR & _ & _).
  split.
  - destruct (HR nat quiet 0%nat store_of_b) as (_ & H & _).
    etransitivity; [apply H|reflexivity].
    vm_compute. apply list_elem_of_here.
  - destruct (HR nat quiet 5%nat store_of_b) as (_ & _ & H).
    etransitivity; [apply H|reflexivity].
    vm_compute. intros Hin. apply list_elem_of_singleton in Hin. discriminate Hin.
Defined.

(** ** Friends sub-cache: [setFriends] and [clearFriends] *)

Section FriendsExtras.
Context {Friend : Type}.
Variable behaviour : Listener -> option (list Friend) -> option Err.

Import UserStore FriendRuns.

Local Abbreviation Friends := (@UserStore.Friends Friend).
Local Abbreviation setFriends := (UserStore.setFriends behaviour).
Local Abbreviation clearFriends := (UserStore.clearFriends behaviour).

Lemma getOrCreate_entry scopeId scopeId' (s : Friends) :
  entry (getOrCreateFriendsState scopeId s).2 scopeId' = entry s scopeId'.
Proof.
  unfold getOrCreateFriendsState, entry.
  destruct (friendStates s !! friendsScopeKey scopeId) eqn:E; simpl; [done|].
  destruct (decide (friendsScopeKey scopeId = friendsScopeKey scopeId')) as [<-|Hne].
  - by rewrite lookup_insert_eq, E.
  - by rewrite lookup_insert_ne.
Qed.

Lemma emitFriends_frame value (s : Friends) :
  friendStates (emitFriends behaviour value s) = friendStates s ∧
  currentScopeId (emitFriends behaviour value s) = currentScopeId s ∧
  fetches (emitFriends behaviour value s) = fetches s.
Proof. done. Qed.

(** X10.  [setFriends] writes the partition of the scope it resolves to
    and no other, keeps the in-flight slot, and calls the friends
    listeners exactly when the key written is the key of the current
    scope. *)
Theorem setFriends_writes_one_partition (value : option (list Friend))
    (options : ResourceStore.SetOptions) (now : Z) (s : Friends) :
  let scopeId := nullish (ResourceStore.set_scopeId options) (currentScopeId s) in
  let s' := setFriends value options now s in
  getFriendsSnapshot (Some scopeId) s' = value ∧
  inflight (entry s' scopeId) = inflight (entry s scopeId) ∧
  (∀ sc, friendsScopeKey sc ≠ friendsScopeKey scopeId -> entry s' sc = entry s sc) ∧
  fetches s' = fetches s ∧
  calls (friendListeners s') =
    calls (friendListeners s) ++
    (if decide (friendsScopeKey scopeId = friendsScopeKey (currentScopeId s))
     then map (λ l, (l, value)) (listeners (friendListeners s)) else []).
Proof.
  intros scopeId s'.
  set (stamp := if bool_decide (is_Some value)
                   && negb (default false (ResourceStore.stale options))
                then now else 0).
  set (s1 := (getOrCreateFriendsState scopeId s).2).
  set (s2 := modify scopeId (λ st, mkFriendsState value (inflight st) stamp) s1).
  assert (Hs' : s' = if decide (friendsScopeKey scopeId = friendsScopeKey (currentScopeId s))
                     then emitFriends behaviour value s2 else s2).
  { unfold s', UserStore.setFriends. fold scopeId. unfold s2, s1, stamp.
    by destruct (getOrCreateFriendsState scopeId s). }
  assert (Hstates : friendStates s' = friendStates s2).
  { rewrite Hs'. by case_decide. }
  assert (Hat : friendStates s2 !! friendsScopeKey scopeId
                = Some (mkFriendsState value (inflight (entry s scopeId)) stamp)).
  { unfold s2, modify. simpl. rewrite lookup_alter_eq.
    unfold s1. by rewrite getOrCreate_present. }
  assert (Hframe1 : friendListeners s1 = friendListeners s ∧ fetches s1 = fetches s).
  { unfold s1, getOrCreateFriendsState.
    by destruct (friendStates s !! friendsScopeKey scopeId). }
  destruct Hframe1 as [Hb1 Hf1].
  split; [|split; [|split; [|split]]].
  - unfold getFriendsSnapshot. simpl. by rewrite Hstates, Hat.
  - unfold entry at 1. by rewrite Hstates, Hat.
  - intros sc Hk. unfold entry at 1. rewrite Hstates.
    unfold s2, modify. simpl. rewrite lookup_alter_ne by done.
    apply (getOrCreate_entry scopeId sc s).
  - rewrite Hs'. case_decide; simpl; exact Hf1.
  - rewrite Hs'. case_decide; simpl.
    + by rewrite notify_calls, Hb1.
    + by rewrite app_nil_r, Hb1.
Qed.

(** X11.  [clearFriends] forgets a fetch in flight: it empties the slot
    together with the cache, so the next [ensureFriends] on the scope
    always makes a new request, and when a request for the scope was
    still outstanding two of them are outstanding afterwards. *)
Theorem clearFriends_drops_fetch (scopeArg : ScopeArg) (eo : ResourceStore.EnsureOptions)
    (now : Z) (s : Friends) :
  let scopeId := nullish scopeArg (currentScopeId s) in
  let s' := clearFriends scopeArg s in
  ensure_target eo s' = scopeId ->
  entry s' scopeId = mkFriendsState None None 0 ∧
  (ensureFriends eo now s').1 = Pending (length (fetches s)) ∧
  fetches (ensureFriends eo now s').2 = fetches s ++ [mkFetch scopeId None] ∧
  ∀ p, fetches s !! p = Some (mkFetch scopeId None) ->
       fetches (ensureFriends eo now s').2 !! p = Some (mkFetch scopeId None) ∧
       fetches (ensureFriends eo now s').2 !! length (fetches s)
         = Some (mkFetch scopeId None) ∧
       p ≠ length (fetches s).
Proof.
  intros scopeId s' Ht.
  set (s1 := with_states (<[friendsScopeKey scopeId := mkFriendsState None None 0]>
                            (friendStates s)) s).
  assert (Hs' : s' = if decide (friendsScopeKey scopeId = friendsScopeKey (currentScopeId s))
                     then emitFriends behaviour None s1 else s1).
  { reflexivity. }
  assert (He : entry s' scopeId = mkFriendsState None None 0).
  { unfold entry. rewrite Hs'. case_decide; simpl; by rewrite lookup_insert_eq. }
  assert (Hf : fetches s' = fetches s).
  { rewrite Hs'. by case_decide. }
  assert (Hs : served (default false (ResourceStore.force eo))
                 (entry s' (ensure_target eo s')) now = None).
  { by rewrite Ht, He. }
  assert (Hp : inflight (entry s' (ensure_target eo s')) = None).
  { by rewrite Ht, He. }
  rewrite (ensureFriends_miss eo now s' Hs Hp). simpl. rewrite Ht, Hf.
  split; [done|]. split; [done|]. split; [done|].
  intros p Hlk. split; [|split].
  - rewrite lookup_app_l; [done|]. by eapply lookup_lt_Some.
  - apply lookup_snoc.
  - apply lookup_lt_Some in Hlk. lia.
Qed.
End FriendsExtras.

(** X10, witness: the friends of [usr_a] are written while nobody is
    logged in. *)
Lemma setFriends_writes_one_partition_witness :
  let s' :=
    UserStore.setFriends quiet (Some [3%nat])
      (ResourceStore.mkSetOptions None (ScopeStr "usr_a")) 5 friends0 in
  UserStore.getFriendsSnapshot (Some (Some "usr_a")) s' = Some [3%nat] ∧
  FriendRuns.entry s' None = FriendRuns.entry friends0 None.
Proof.
  destruct (setFriends_writes_one_partition quiet (Some [3%nat])
              (ResourceStore.mkSetOptions None (ScopeStr "usr_a")) 5 friends0)
    as (H1 & _ & H3 & _).
  split; [exact H1|]. apply H3. vm_compute. discriminate.
Defined.

(** X11, witness: [friends_fetching] has request 0 outstanding for the
    null scope; after [clearFriends()] a second one is made. *)
Lemma clearFriends_drops_fetch_witness :
  let s2 :=
    (UserStore.ensureFriends ResourceStore.no_ensure_options 9
       (UserStore.clearFriends quiet ScopeAbsent friends_fetching)).2 in
  UserStore.fetches s2 !! 0%nat = Some (UserStore.mkFetch None None) ∧
  UserStore.fetches s2 !! 1%nat = Some (UserStore.mkFetch None None).
Proof.
  destruct (clearFriends_drops_fetch quiet ScopeAbsent ResourceStore.no_ensure_options 9
              friends_fetching eq_refl) as (_ & _ & _ & H).
  destruct (H 0%nat eq_refl) as (H0 & H1 & _).
  split; [exact H0 | exact H1].
Defined.

(** ** Alert store: what each operation does to the list and the carousel *)

Section AlertExtras.
Variable to_string : AlertStore.Num -> string.
Variable behaviour : Listener -> AlertStore.AlertStoreState -> option Err.

Import AlertStore AlertRuns.

Local Abbreviation removeAlert := (AlertStore.removeAlert behaviour).
Local Abbreviation addAlert := (AlertStore.addAlert behaviour).
Local Abbreviation updateAlert := (AlertStore.updateAlert behaviour).
Local Abbreviation clearDismissable := (AlertStore.clearDismissable behaviour).
Local Abbreviation nextAlert := (AlertStore.nextAlert behaviour).
Local Abbreviation previousAlert := (AlertStore.previousAlert behaviour).
Local Abbreviation setCurrentIndex := (AlertStore.setCurrentIndex to_string behaviour).

Lemma filter_shorter_iff {A} (P : A -> Prop) `{∀ x, Decision (P x)} (l : list A) :
  (length (filter P l) < length l)%nat ↔ ∃ x, x ∈ l ∧ ¬ P x.
Proof.
  split.
  - intros Hlt. destruct (decide (Forall P l)) as [Hall|Hnot].
    + rewrite (filter_all P l Hall) in Hlt. lia.
    + apply not_Forall_Exists in Hnot; [|apply _].
      apply Exists_exists in Hnot. destruct Hnot as (x & Hx & HP). eauto.
  - intros (x & Hx & HP). by apply length_filter_lt with x.
Qed.

Lemma state_eta (st : AlertStoreState) :
  mkAlertStoreState (alerts st) (currentIndex st) = st.
Proof. by destruct st. Qed.

(** What [removeAlert] does, by whether an alert of that id exists. *)
Lemma removeAlert_cases (id' : string) (s : Store) :
  let r := (removeAlert id' s).1 in
  let s' := (removeAlert id' s).2 in
  (r = true ↔ ∃ a, a ∈ alerts (cache s) ∧ id a = id') ∧
  alerts (cache s') = filter (λ a, id a ≠ id') (alerts (cache s)) ∧
  (∀ a, a ∈ alerts (cache s') -> id a ≠ id') ∧
  (r = false -> s' = s) ∧
  (r = true ->
   calls (bus s') = calls (bus s) ++ map (λ l, (l, cache s')) (listeners (bus s))).
Proof.
  intros r s'. unfold r, s', AlertStore.removeAlert.
  pose proof (filter_shorter_iff (λ a, id a ≠ id') (alerts (cache s))) as Hiff.
  destruct (len (filter (λ a, id a ≠ id') (alerts (cache s))) <? len (alerts (cache s)))
    eqn:E; simpl.
  - assert (Hex : ∃ a, a ∈ alerts (cache s) ∧ id a = id').
    { assert (Hlt : (length (filter (λ a, id a ≠ id') (alerts (cache s)))
                     < length (alerts (cache s)))%nat).
      { apply Z.ltb_lt in E. unfold len in E. apply Nat2Z.inj_lt. exact E. }
      destruct (proj1 Hiff Hlt) as (a & Ha & Hn).
      exists a. split; [done|]. by destruct (decide (id a = id')). }
    split; [by split|]. split; [done|]. split.
    { intros a Ha. apply list_elem_of_filter in Ha. by destruct Ha. }
    split; [discriminate|]. intros _.
    rewrite notify_calls. unfold getSnapshot. simpl. reflexivity.
  - assert (Hno : ¬ ∃ a, a ∈ alerts (cache s) ∧ id a = id').
    { intros (a & Ha & Hid). assert (length (filter (λ a, id a ≠ id') (alerts (cache s)))
                                     < length (alerts (cache s)))%nat.
      { apply Hiff. exists a. split; [done|]. intros Hn. by apply Hn. }
      unfold len in E. zbool. lia. }
    assert (Hsame : filter (λ a, id a ≠ id') (alerts (cache s)) = alerts (cache s)).
    { apply filter_all. apply Forall_forall. intros a Ha Hid. apply Hno. eauto. }
    split; [split; [discriminate|by intros H; destruct (Hno H)]|].
    split; [done|]. split.
    { intros a Ha. apply list_elem_of_filter in Ha. by destruct Ha. }
    split; [|discriminate]. intros _. rewrite Hsame, state_eta. by destruct s.
Qed.

(** X12.  [removeAlert(id)] answers [true] exactly when an alert with
    that id exists; afterwards the list is the old one without the alerts
    of that id, in the same order; when it answers [false] nothing is
    changed and nobody is notified, and otherwise every listener is called
    once with the new state. *)
Theorem removeAlert_removes_by_id (id' : string) (s : Store) :
  let r := (removeAlert id' s).1 in
  let s' := (removeAlert id' s).2 in
  (r = true ↔ ∃ a, a ∈ alerts (cache s) ∧ id a = id') ∧
  alerts (cache s') = filter (λ a, id a ≠ id') (alerts (cache s)) ∧
  (∀ a, a ∈ alerts (cache s') -> id a ≠ id') ∧
  (r = false -> s' = s) ∧
  (r = true ->
   calls (bus s') = calls (bus s) ++ map (λ l, (l, cache s')) (listeners (bus s))).
Proof. apply removeAlert_cases. Qed.



Lemma rem_step (i n : Z) :
  0 <= i < n ->
  Z.rem (i + 1) n = if i + 1 =? n then 0 else i + 1.
Proof.
  intros Hi. destruct (i + 1 =? n) eqn:E.
  - apply Z.eqb_eq in E. rewrite E. apply Z.rem_same. lia.
  - apply Z.rem_small. zbool. lia.
Qed.

(** X15.  On a store whose index is in order, [nextAlert] and
    [previousAlert] undo each other: the carousel is a cycle. *)
Theorem next_previous_round_trip (s : Store) :
  index_ok (cache s) ->
  cache (previousAlert (nextAlert s)) = cache s ∧
  cache (nextAlert (previousAlert s)) = cache s.
Proof.
  intros (i & Hi & H0 & H1). unfold AlertStore.nextAlert, AlertStore.previousAlert.
  destruct (len (alerts (cache s)) =? 0) eqn:E.
  { rewrite E. by split. }
  assert (Hne : alerts (cache s) ≠ []).
  { intros Hnil. rewrite Hnil in E. discriminate. }
  destruct (H1 Hne) as [Hlo Hhi]. simpl. rewrite E. simpl.
  rewrite Hi. unfold num_rem. rewrite E. simpl.
  rewrite (rem_step _ _ (conj Hlo Hhi)).
  assert (Heta : ∀ k, k = i -> mkAlertStoreState (alerts (cache s)) (Int k) = cache s).
  { intros k ->. rewrite <- Hi. apply state_eta. }
  split.
  - destruct (i + 1 =? len (alerts (cache s))) eqn:E1; simpl.
    + apply Heta. zbool. lia.
    + destruct (i + 1 =? 0) eqn:E2; [absurd_branch|]. apply Heta. lia.
  - destruct (i =? 0) eqn:E1; simpl.
    + assert (Hr : Z.rem (len (alerts (cache s)) - 1 + 1) (len (alerts (cache s))) = 0).
      { replace (len (alerts (cache s)) - 1 + 1) with (len (alerts (cache s))) by lia.
        apply Z.rem_same. lia. }
      rewrite Hr. apply Heta. zbool. lia.
    + rewrite Z.rem_small by (zbool; lia). apply Heta. lia.
Qed.

(** X16.  [clearDismissable] leaves exactly the alerts that are not
    dismissable, in their order, and a second call changes nothing and
    notifies nobody. *)
Theorem clearDismissable_keeps_sticky (s : Store) :
  let s' := clearDismissable s in
  alerts (cache s') = filter (λ a, dismissable a = false) (alerts (cache s)) ∧
  (∀ a, a ∈ alerts (cache s') -> dismissable a = false ∧ a ∈ alerts (cache s)) ∧
  clearDismissable s' = s'.
Proof.
  intros s'.
  assert (Ha : alerts (cache s') = filter (λ a, dismissable a = false) (alerts (cache s))).
  { unfold s', AlertStore.clearDismissable. by destruct (_ <? _). }
  split; [exact Ha|]. split.
  { intros a Hin. rewrite Ha in Hin. by apply list_elem_of_filter in Hin. }
  unfold AlertStore.clearDismissable at 1.
  assert (Hid : filter (λ a, dismissable a = false) (alerts (cache s')) = alerts (cache s')).
  { apply filter_all. apply Forall_forall. intros a Hin. rewrite Ha in Hin.
    apply list_elem_of_filter in Hin. by destruct Hin. }
  rewrite Hid. rewrite Z.ltb_irrefl, state_eta. by destruct s'.
Qed.

(** X17.  [setCurrentIndex] stores exactly the numbers for which
    [index < 0 || index >= alerts.length] is false, and tells every
    listener; any other number leaves the state as it is, calls no
    listener and logs one warning.  An integer passes the test exactly
    when it is a position of the list, and the carousel then shows the
    alert at that position.  [NaN] passes the test too: it is stored, and
    the carousel shows nothing. *)
Theorem setCurrentIndex_guards_range (index : Num) (s : Store) :
  let s' := setCurrentIndex index s in
  let refused := num_lt index 0 || num_ge index (len (alerts (cache s))) in
  (refused = false ->
   currentIndex (cache s') = index ∧
   alerts (cache s') = alerts (cache s) ∧
   calls (bus s') = calls (bus s) ++ map (λ l, (l, cache s')) (listeners (bus s))) ∧
  (refused = true ->
   cache s' = cache s ∧ calls (bus s') = calls (bus s) ∧
   errlog (bus s') = errlog (bus s) ++ [("warn", "Invalid index: " +:+ to_string index)]) ∧
  (∀ z, index = Int z ->
     (refused = false ↔ 0 <= z < len (alerts (cache s))) ∧
     (refused = false -> getCurrentAlert s' = alerts (cache s) !! Z.to_nat z)) ∧
  (index = NaN -> refused = false ∧ getCurrentAlert s' = None).
Proof.
  intros s' refused. unfold s', AlertStore.setCurrentIndex. fold refused.
  split; [|split; [|split]].
  - intros ->. simpl. split; [done|]. split; [done|]. by rewrite notify_calls.
  - intros ->. by repeat split.
  - intros z ->. unfold refused. simpl. split.
    + rewrite orb_false_iff. split.
      * intros [E1 E2]. zbool. lia.
      * intros [Hlo Hhi]. split; [by apply Z.ltb_ge|].
        rewrite Z.geb_leb. apply Z.leb_gt. lia.
    + intros E. unfold refused in E. simpl in E. rewrite E.
      apply orb_false_iff in E. destruct E as [E1 E2].
      unfold getCurrentAlert. simpl.
      destruct (len (alerts (cache s)) =? 0) eqn:E0; [absurd_branch|].
      by rewrite E1.
  - intros ->. unfold refused. simpl. split; [done|].
    unfold getCurrentAlert. simpl. by destruct (len (alerts (cache s)) =? 0).
Qed.

(** On a position of the list the carousel has an alert to show exactly
    when there are alerts. *)
Lemma shown_on_position (s : Store) :
  index_ok (cache s) ->
  if hasAlerts s
  then ∃ a i, getCurrentAlert s = Some a ∧ a ∈ alerts (cache s) ∧
              currentIndex (cache s) = Int i ∧
              alerts (cache s) !! Z.to_nat i = Some a
  else getCurrentAlert s = None ∧ alerts (cache s) = [].
Proof.
  intros (i & Hi & H0 & H1).
  unfold hasAlerts, getCurrentAlert. rewrite Hi. simpl.
  destruct (len (alerts (cache s)) >? 0) eqn:E.
  - assert (Hne : alerts (cache s) ≠ []).
    { intros Hnil. rewrite Hnil in E. discriminate. }
    destruct (H1 Hne) as [Hlo Hhi].
    destruct (len (alerts (cache s)) =? 0) eqn:E0; [absurd_branch|].
    destruct (i <? 0) eqn:E1; [absurd_branch|].
    assert (Hlt : (Z.to_nat i < length (alerts (cache s)))%nat).
    { unfold len in Hhi. lia. }
    destruct (lookup_lt_is_Some_2 _ _ Hlt) as [a Ha].
    exists a, i. split; [done|]. split; [by eapply list_elem_of_lookup_2|]. by split.
  - assert (Hnil : alerts (cache s) = []).
    { destruct (alerts (cache s)) eqn:Ha; [done|].
      unfold len in E. cbn [length] in E. absurd_branch. }
    rewrite Hnil. by split.
Qed.

(** What each operation tells the listeners, whatever they do. *)
Lemma listed_iff (id' : string) (l : list Alert) :
  id' ∈ map id l ↔ ∃ a, a ∈ l ∧ id a = id'.
Proof.
  change (id' ∈ id <$> l ↔ ∃ a, a ∈ l ∧ id a = id').
  rewrite list_elem_of_fmap. split.
  - intros (a & -> & Ha). eauto.
  - intros (a & Ha & <-). eauto.
Qed.

Lemma step_notifies op (s : Store) :
  let s' := step to_string behaviour op s in
  cache s' = cache (step to_string quiet op s) ∧
  listeners (bus s') = listeners (bus s) ∧
  calls (bus s') =
    calls (bus s) ++
    (if notifies op s then map (λ l, (l, cache s')) (listeners (bus s)) else []) ∧
  errlog (bus s') =
    errlog (bus s) ++
    (if notifies op s
     then caught behaviour "Listener error" (cache s') (listeners (bus s))
     else warning to_string op s).
Proof.
  intros s'. unfold s'. clear s'.
  assert (Hemit : ∀ st (s1 : Store),
    bus s1 = bus s ->
    listeners (bus (emit behaviour st s1)) = listeners (bus s) ∧
    calls (bus (emit behaviour st s1))
      = calls (bus s) ++ map (λ l, (l, st)) (listeners (bus s)) ∧
    errlog (bus (emit behaviour st s1))
      = errlog (bus s) ++ caught behaviour "Listener error" st (listeners (bus s))).
  { intros st s1 Hb. unfold emit. simpl. rewrite Hb.
    split; [apply notify_listeners|]. split; [apply notify_calls | apply notify_errlog]. }
  destruct op as [alert now rnd|id' updates|id'| | | | |index]; simpl.
  - (* addAlert *)
    unfold AlertStore.addAlert. simpl. split; [done|]. by apply Hemit.
  - (* updateAlert *)
    unfold AlertStore.updateAlert.
    destruct (list_find (λ a, id a = id') (alerts (cache s))) as [[n a]|] eqn:E; simpl.
    + apply list_find_Some in E. destruct E as (Hn & Hid & _).
      rewrite bool_decide_eq_true_2.
      2:{ apply listed_iff. exists a. split; [by eapply list_elem_of_lookup_2|done]. }
      split; [done|]. by apply Hemit.
    + apply list_find_None in E.
      rewrite bool_decide_eq_false_2.
      2:{ rewrite listed_iff. intros (a & Ha & Hid).
          rewrite Forall_forall in E. by destruct (E a Ha). }
      rewrite app_nil_r. by repeat split.
  - (* removeAlert *)
    destruct (removeAlert_cases id' s) as (Hr & _ & _ & Hf & _).
    rewrite <- listed_iff in Hr.
    unfold AlertStore.removeAlert in *.
    destruct (len (filter _ _) <? len (alerts (cache s))) eqn:E; simpl in *.
    + rewrite bool_decide_eq_true_2 by (by apply Hr).
      split; [done|]. by apply Hemit.
    + rewrite bool_decide_eq_false_2.
      2:{ intros Hin. apply Hr in Hin. discriminate. }
      rewrite !app_nil_r. by repeat split.
  - (* clearAll *)
    unfold AlertStore.clearAll. simpl. split; [done|]. by apply Hemit.
  - (* clearDismissable *)
    pose proof (filter_shorter_iff (λ a, dismissable a = false) (alerts (cache s))) as Hiff.
    assert (Hd : true ∈ map dismissable (alerts (cache s))
                 ↔ ∃ a, a ∈ alerts (cache s) ∧ ¬ dismissable a = false).
    { change (true ∈ dismissable <$> alerts (cache s)
              ↔ ∃ a, a ∈ alerts (cache s) ∧ ¬ dismissable a = false).
      rewrite list_elem_of_fmap. split.
      - intros (a & Ht & Ha). exists a. split; [done|]. by rewrite <- Ht.
      - intros (a & Ha & Hn). exists a. split; [|done]. by destruct (dismissable a). }
    unfold AlertStore.clearDismissable.
    destruct (len (filter _ _) <? len (alerts (cache s))) eqn:E; simpl.
    + rewrite bool_decide_eq_true_2.
      2:{ apply Hd, Hiff. unfold len in E. zbool. lia. }
      split; [done|]. by apply Hemit.
    + rewrite bool_decide_eq_false_2.
      2:{ intros Hin. apply Hd, Hiff in Hin. unfold len in E. zbool. lia. }
      rewrite !app_nil_r. by repeat split.
  - (* nextAlert *)
    unfold AlertStore.nextAlert.
    destruct (len (alerts (cache s)) =? 0) eqn:E; simpl.
    + rewrite bool_decide_eq_false_2.
      2:{ intros Hne. apply len_pos in Hne. zbool. lia. }
      rewrite !app_nil_r. by repeat split.
    + rewrite bool_decide_eq_true_2.
      2:{ intros Hnil. rewrite Hnil in E. discriminate. }
      split; [done|]. by apply Hemit.
  - (* previousAlert *)
    unfold AlertStore.previousAlert.
    destruct (len (alerts (cache s)) =? 0) eqn:E; simpl.
    + rewrite bool_decide_eq_false_2.
      2:{ intros Hne. apply len_pos in Hne. zbool. lia. }
      rewrite !app_nil_r. by repeat split.
    + rewrite bool_decide_eq_true_2.
      2:{ intros Hnil. rewrite Hnil in E. discriminate. }
      split; [done|]. by apply Hemit.
  - (* setCurrentIndex *)
    unfold AlertStore.setCurrentIndex.
    destruct (num_lt index 0 || num_ge index (len (alerts (cache s)))) eqn:E; simpl.
    + rewrite app_nil_r. by repeat split.
    + split; [done|]. by apply Hemit.
Qed.
End AlertExtras.

(** X18.  After any sequence of operations on a new alert store in which
    [setCurrentIndex] is given integers, the carousel has an alert to show
    exactly when there are alerts: [getCurrentAlert()] is the alert at
    [currentIndex] when [hasAlerts()], and [null] otherwise. *)
Theorem current_alert_defined :
  ∀ (to_string : AlertStore.Num -> string)
    (behaviour : Listener -> AlertStore.AlertStoreState -> option Err)
    (ops : list AlertRuns.Op),
    forallb AlertRuns.integer_arg ops = true ->
    let s := AlertRuns.run to_string behaviour ops AlertStore.init in
    if AlertStore.hasAlerts s
    then ∃ a i, AlertStore.getCurrentAlert s = Some a ∧
                a ∈ AlertStore.alerts (AlertStore.cache s) ∧
                AlertStore.currentIndex (AlertStore.cache s) = AlertStore.Int i ∧
                AlertStore.alerts (AlertStore.cache s) !! Z.to_nat i = Some a
    else AlertStore.getCurrentAlert s = None ∧
         AlertStore.alerts (AlertStore.cache s) = [].
Proof.
  intros to_string behaviour ops Hargs s.
  apply shown_on_position. unfold s.
  apply run_preserves_index; [done | apply init_index_ok].
Qed.

(** X18, witness: two alerts, the carousel moved to the second. *)
Lemma current_alert_defined_witness :
  ∃ a, AlertStore.getCurrentAlert
         (AlertRuns.run AlertRuns.show quiet
            [AlertRuns.AddAlert AlertRuns.alert_a 1 "x";
             AlertRuns.AddAlert AlertRuns.alert_b 2 "y";
             AlertRuns.SetCurrentIndex (AlertStore.Int 1)]
            AlertStore.init) = Some a ∧
       AlertStore.message a = "b".
Proof.
  pose proof (current_alert_defined AlertRuns.show quiet
                [AlertRuns.AddAlert AlertRuns.alert_a 1 "x";
                 AlertRuns.AddAlert AlertRuns.alert_b 2 "y";
                 AlertRuns.SetCurrentIndex (AlertStore.Int 1)] eq_refl) as H.
  destruct H as (a & i & Ha & _).
  exists a. split; [exact Ha|]. vm_compute in Ha. by injection Ha as <-.
Defined.

Lemma two_alerts_index_ok : AlertRuns.index_ok (AlertStore.cache two_alerts).
Proof.
  exists 0. split; [reflexivity|]. split; [discriminate|]. intros _. by vm_compute.
Qed.

(** X12, witness: an unknown id and the id of alert [b]. *)
Lemma removeAlert_removes_by_id_witness :
  (AlertStore.removeAlert quiet "nope" two_alerts).2 = two_alerts ∧
  map AlertStore.message
    (AlertStore.alerts (AlertStore.cache (AlertStore.removeAlert quiet "alert-2-y" two_alerts).2))
  = ["a"].
Proof.
  split.
  - destruct (removeAlert_removes_by_id quiet "nope" two_alerts) as (_ & _ & _ & H & _).
    exact (H eq_refl).
  - destruct (removeAlert_removes_by_id quiet "alert-2-y" two_alerts) as (_ & H & _).
    etransitivity; [exact (f_equal (map AlertStore.message) H)|]. reflexivity.
Defined.



(** The status store updates its alert with [onClick: undefined] when the
    status page has no address: a handler set before is gone. *)
Example update_clears_handler :
  let a := AlertStore.mkAlert "alert-1-x" AlertStore.warning "m" false None 1 (Some 7%nat) in
  AlertStore.onClick
    (AlertStore.merge a
       (AlertStore.mkAlertUpdates (Some AlertStore.error) (Some "n") None
          (Some (Some "status")) (Some None)))
  = None.
Proof. reflexivity. Qed.

(** X15, witness: forth and back on two alerts. *)
Lemma next_previous_round_trip_witness :
  AlertStore.cache (AlertStore.previousAlert quiet (AlertStore.nextAlert quiet two_alerts))
  = AlertStore.cache two_alerts.
Proof. exact (proj1 (next_previous_round_trip quiet two_alerts two_alerts_index_ok)). Defined.

(** X16, witness: only the sticky alert [b] is left of [two_alerts]. *)
Lemma clearDismissable_keeps_sticky_witness :
  map AlertStore.message
    (AlertStore.alerts (AlertStore.cache (AlertStore.clearDismissable quiet two_alerts)))
  = ["b"] ∧
  AlertStore.clearDismissable quiet (AlertStore.clearDismissable quiet two_alerts)
  = AlertStore.clearDismissable quiet two_alerts.
Proof.
  destruct (clearDismissable_keeps_sticky quiet two_alerts) as (H1 & _ & H3).
  split; [|exact H3].
  etransitivity; [exact (f_equal (map AlertStore.message) H1)|]. reflexivity.
Defined.

(** X17, witness: on two alerts index 1 is accepted, index 2 is not, and
    [NaN] is stored. *)
Lemma setCurrentIndex_guards_range_witness :
  AlertStore.currentIndex
    (AlertStore.cache
       (AlertStore.setCurrentIndex AlertRuns.show quiet (AlertStore.Int 1) two_alerts))
    = AlertStore.Int 1 ∧
  AlertStore.cache
    (AlertStore.setCurrentIndex AlertRuns.show quiet (AlertStore.Int 2) two_alerts)
    = AlertStore.cache two_alerts ∧
  AlertStore.getCurrentAlert
    (AlertStore.setCurrentIndex AlertRuns.show quiet AlertStore.NaN two_alerts) = None.
Proof.
  split; [|split].
  - destruct (setCurrentIndex_guards_range AlertRuns.show quiet (AlertStore.Int 1) two_alerts)
      as [H _].
    exact (proj1 (H eq_refl)).
  - destruct (setCurrentIndex_guards_range AlertRuns.show quiet (AlertStore.Int 2) two_alerts)
      as (_ & H & _).
    exact (proj1 (H eq_refl)).
  - destruct (setCurrentIndex_guards_range AlertRuns.show quiet AlertStore.NaN two_alerts)
      as (_ & _ & _ & H).
    exact (proj2 (H eq_refl)).
Defined.

(** ** Notification when listeners throw *)

Section InterceptedFacts.
Variable unprintable : Err -> bool.
Variable behaviour : Listener -> ScopeId -> option Err.

Import AccountScope.

(** While every thrown value can be turned into text the loop with the
    intercepted console is the guarded loop. *)
Lemma notify_all_guarded ls accountId (b : Bus ScopeId) :
  (∀ l e, l ∈ ls -> behaviour l accountId = Some e -> unprintable e = false) ->
  Intercepted.notify_all unprintable behaviour ls accountId b
  = (Normal tt,
     fold_left (call_guarded behaviour "Account scope listener error" accountId) ls b).
Proof.
  revert b. induction ls as [|l rest IH]; intros b Hok; simpl; [done|].
  assert (Hrest : ∀ l' e, l' ∈ rest -> behaviour l' accountId = Some e
                          -> unprintable e = false).
  { intros l' e Hin. apply Hok. by apply list_elem_of_further. }
  unfold call_guarded, call, Intercepted.console_error.
  destruct (behaviour l accountId) as [e|] eqn:E.
  - rewrite (Hok l e (list_elem_of_here _ _) E). by apply IH.
  - by apply IH.
Qed.

Lemma intercepted_setActiveAccountId accountId (s : State) :
  (∀ l e, l ∈ listeners (bus s) -> behaviour l accountId = Some e ->
          unprintable e = false) ->
  Intercepted.setActiveAccountId unprintable behaviour accountId s
  = (Normal tt, setActiveAccountId behaviour accountId s).
Proof.
  intros Hok. unfold Intercepted.setActiveAccountId, setActiveAccountId.
  case_decide; [done|]. by rewrite notify_all_guarded.
Qed.
End InterceptedFacts.




(** ** Staleness, store by store *)

Section FriendsStaleness.
Context {Friend : Type}.
Variable behaviour : Listener -> option (list Friend) -> option Err.

Import UserStore FriendRuns.

Lemma setFriends_entry_written value options now (s : @Friends Friend) :
  let scopeId := nullish (ResourceStore.set_scopeId options) (currentScopeId s) in
  entry (setFriends behaviour value options now s) scopeId
  = mkFriendsState value (inflight (entry s scopeId))
      (if bool_decide (is_Some value) && negb (default false (ResourceStore.stale options))
       then now else 0).
Proof.
  intros scopeId.
  set (stamp := if bool_decide (is_Some value)
                   && negb (default false (ResourceStore.stale options))
                then now else 0).
  set (s1 := (getOrCreateFriendsState scopeId s).2).
  set (s2 := modify scopeId (λ st, mkFriendsState value (inflight st) stamp) s1).
  assert (Hs' : friendStates (setFriends behaviour value options now s) = friendStates s2).
  { unfold UserStore.setFriends. fold scopeId. unfold s2, s1, stamp.
    destruct (getOrCreateFriendsState scopeId s). by case_decide. }
  unfold entry at 1. rewrite Hs'.
  unfold s2, modify. simpl. rewrite lookup_alter_eq.
  unfold s1. by rewrite getOrCreate_present.
Qed.
End FriendsStaleness.

(** C3 (as amended).  Staleness boundary, in each of the three stores
    that have a staleness window: the resource store ([staleTime]), the
    friends sub-cache of the user store (30 s) and the accounts store
    ([staleTime]).  A truthy value (an object or an array) written at time
    [t0] without [stale] is reported fresh by the staleness check at
    every time [t <= t0 + W] and stale at every time [t > t0 + W]; the
    instant [t0 + W] itself is still fresh. *)
Theorem staleness_boundary :
  (∀ (T : Type) (truthy : T -> bool) (behaviour : Listener -> option T -> option Err)
     (v : T) (options : ResourceStore.SetOptions) (t0 t : Z) (s : @ResourceStore.Store T),
     truthy v = true ->
     default false (ResourceStore.stale options) = false ->
     let s' := ResourceStore.set truthy behaviour (Some v) options t0 s in
     let state :=
       ResourceStore.entry s'
         (nullish (ResourceStore.set_scopeId options) (ResourceStore.activeAccountId s)) in
     (t <= t0 + ResourceStore.staleTime s -> ResourceStore.isStale truthy s' state t = false) ∧
     (t0 + ResourceStore.staleTime s < t -> ResourceStore.isStale truthy s' state t = true)) ∧
  (∀ (Friend : Type) (behaviour : Listener -> option (list Friend) -> option Err)
     (v : list Friend) (options : ResourceStore.SetOptions) (t0 t : Z)
     (s : @UserStore.Friends Friend),
     default false (ResourceStore.stale options) = false ->
     let s' := UserStore.setFriends behaviour (Some v) options t0 s in
     let state :=
       FriendRuns.entry s'
         (nullish (ResourceStore.set_scopeId options) (UserStore.currentScopeId s)) in
     (t <= t0 + 30000 -> UserStore.isFriendsStale state t = false) ∧
     (t0 + 30000 < t -> UserStore.isFriendsStale state t = true)) ∧
  (∀ (Account : Type) (behaviour : Listener -> option (list Account) -> option Err)
     (v : list Account) (stale : option bool) (t0 t : Z) (s : @AccountsStore.Store Account),
     default false stale = false ->
     let s' := AccountsStore.set behaviour (Some v) stale t0 s in
     (t <= t0 + AccountsStore.staleTime s -> AccountsStore.isStale s' t = false) ∧
     (t0 + AccountsStore.staleTime s < t -> AccountsStore.isStale s' t = true)).
Proof.
  split; [|split].
  - intros T truthy behaviour v options t0 t s. apply resource_staleness_boundary.
  - intros Friend behaviour v options t0 t s Hst s' state.
    unfold state, s'. rewrite setFriends_entry_written. rewrite Hst. simpl.
    unfold UserStore.isFriendsStale, UserStore.friendsStaleTime. simpl.
    split; intros Ht; lia.
  - intros Account behaviour v stale t0 t s Hst s'.
    unfold s', AccountsStore.isStale, AccountsStore.set. simpl. rewrite Hst. simpl.
    split; intros Ht; lia.
Qed.

(** C3, witness: a one-second window, a value written at 5 ms, read at the
    boundary and one millisecond later; a friends list at the boundary of
    its 30 s; and two accounts in an accounts store with a window of one
    second. *)
Lemma staleness_boundary_witness :
  (let s := ResourceStore.create quiet (Some 1000) None in
   let s' := ResourceStore.set any_truthy quiet (Some 7%nat) ResourceStore.no_set_options 5 s in
   ResourceStore.isStale any_truthy s' (ResourceStore.entry s' None) 1005 = false ∧
   ResourceStore.isStale any_truthy s' (ResourceStore.entry s' None) 1006 = true) ∧
  (let s' := UserStore.setFriends quiet (Some [3%nat]) ResourceStore.no_set_options 5 friends0 in
   UserStore.isFriendsStale (FriendRuns.entry s' None) 30005 = false ∧
   UserStore.isFriendsStale (FriendRuns.entry s' None) 30006 = true) ∧
  (let s' :=
     AccountsStore.set quiet (Some ["usr_a"; "usr_b"]) None 5
       (AccountsStore.create (Some 1000)) in
   AccountsStore.isStale s' 1005 = false ∧
   AccountsStore.isStale s' 1006 = true).
Proof.
  destruct staleness_boundary as (HR & HF & HA).
  split; [|split]; split.
  - destruct (HR nat any_truthy quiet 7%nat ResourceStore.no_set_options 5 1005
                store0 eq_refl eq_refl) as [H _].
    apply H. vm_compute. discriminate.
  - destruct (HR nat any_truthy quiet 7%nat ResourceStore.no_set_options 5 1006
                store0 eq_refl eq_refl) as [_ H].
    apply H. reflexivity.
  - destruct (HF nat quiet [3%nat] ResourceStore.no_set_options 5 30005 friends0 eq_refl)
      as [H _].
    apply H. vm_compute. discriminate.
  - destruct (HF nat quiet [3%nat] ResourceStore.no_set_options 5 30006 friends0 eq_refl)
      as [_ H].
    apply H. reflexivity.
  - destruct (HA string quiet ["usr_a"; "usr_b"] None 5 1005
                (AccountsStore.create (Some 1000)) eq_refl) as [H _].
    apply H. vm_compute. discriminate.
  - destruct (HA string quiet ["usr_a"; "usr_b"] None 5 1006
                (AccountsStore.create (Some 1000)) eq_refl) as [_ H].
    apply H. reflexivity.
Defined.

(** ** Logger *)

Section LoggerFacts.
Variable behaviour : Listener -> Logger.LogEntry -> option Err.

Import Logger.

Local Abbreviation run := (Logger.run behaviour).
Local Abbreviation step := (Logger.step behaviour).

Lemma slice_push {A} (k : nat) (h : list A) (e : A) :
  (0 < k)%nat ->
  (if Nat.ltb k (length (slice_last k h ++ [e]))
   then slice_last k (slice_last k h ++ [e])
   else slice_last k h ++ [e])
  = slice_last k (h ++ [e]).
Proof.
  intros Hk. unfold slice_last.
  rewrite !length_app, !length_drop. simpl.
  destruct (decide (length h < k)%nat) as [Hlt|Hge].
  - replace (length h - k)%nat with 0%nat by lia. simpl.
    replace (length h - 0 + 1)%nat with (length h + 1)%nat by lia.
    destruct (Nat.ltb_spec k (length h + 1)); [lia|].
    by replace (length h + 1 - k)%nat with 0%nat by lia.
  - replace (length h - (length h - k) + 1)%nat with (k + 1)%nat by lia.
    destruct (Nat.ltb_spec k (k + 1)); [|lia].
    replace (k + 1 - k)%nat with 1%nat by lia.
    rewrite drop_app_le by (rewrite length_drop; lia).
    rewrite drop_drop.
    rewrite drop_app_le by lia.
    by replace (length h - k + 1)%nat with (length h + 1 - k)%nat by lia.
Qed.

Lemma step_logs op (s : State) h :
  logs s = slice_last maxLogs h ->
  logs (step op s) = slice_last maxLogs (written h op).
Proof.
  intros Hl. destruct op as [m lv msg d now| | |]; simpl; try done.
  assert (Hadd : logs (addLog behaviour (mkLogEntry now lv frontend m msg d) s)
                 = slice_last maxLogs (h ++ [mkLogEntry now lv frontend m msg d])).
  { unfold addLog. simpl. rewrite Hl. apply slice_push. unfold maxLogs. lia. }
  unfold log. by destruct lv.
Qed.

Lemma run_logs ops (s : State) h :
  logs s = slice_last maxLogs h ->
  logs (run ops s) = slice_last maxLogs (fold_left written ops h).
Proof.
  revert s h. induction ops as [|op ops IH]; intros s h Hl; simpl; [done|].
  apply IH. by apply step_logs.
Qed.

Lemma heard_once (l : Listener) (e : LogEntry) (ls : list Listener) :
  NoDup ls ->
  filter (λ c : Listener * LogEntry, c.1 = l) (map (λ l', (l', e)) ls)
  = if decide (l ∈ ls) then [(l, e)] else [].
Proof.
  induction 1 as [|x ls Hx Hnd IH].
  - destruct (decide (l ∈ [])) as [Hin|_]; [by apply elem_of_nil in Hin|done].
  - cbn [map]. destruct (decide (x = l)) as [->|Hne].
    + rewrite filter_cons_True by done. rewrite IH.
      destruct (decide (l ∈ ls)) as [|_]; [done|].
      destruct (decide (l ∈ l :: ls)) as [_|Hn]; [done|].
      destruct Hn. apply list_elem_of_here.
    + rewrite filter_cons_False by done. rewrite IH.
      destruct (decide (l ∈ ls)) as [Hin|Hin];
        destruct (decide (l ∈ x :: ls)) as [Hin'|Hin']; try done.
      * destruct Hin'. by apply list_elem_of_further.
      * apply elem_of_cons in Hin'. destruct Hin' as [->|Hin']; [by destruct Hne|by destruct Hin].
Qed.

Lemma step_hears l op (s : State) acc :
  hears l s acc -> hears l (step op s) (hearing l acc op).
Proof.
  intros (Hnd & Hsub & Hcalls).
  destruct op as [m lv msg d now| |l'|l']; simpl.
  - set (e := mkLogEntry now lv frontend m msg d).
    assert (Hb : bus (log behaviour m lv msg d now s)
                 = notify behaviour "Logger listener error:" e (bus s)).
    { unfold log, addLog. by destruct lv. }
    unfold hears. rewrite Hb, notify_listeners, notify_calls.
    rewrite filter_app, Hcalls, (heard_once l e _ Hnd).
    destruct acc as [[|] heard]; simpl in *.
    + rewrite decide_True by (by apply Hsub).
      split; [done|]. split; [done|]. by rewrite map_app.
    + rewrite decide_False by (intros Hin; apply Hsub in Hin; discriminate).
      split; [done|]. split; [done|]. by rewrite app_nil_r.
  - done.
  - assert (Hmem : ∀ x, x ∈ listeners (add_listener l' (bus s))
                        ↔ x = l' ∨ x ∈ listeners (bus s)).
    { intros x. unfold add_listener. case_decide as Hd; simpl.
      - split; [by right|]. intros [->|H']; done.
      - rewrite elem_of_app, list_elem_of_singleton. tauto. }
    assert (Hc : calls (add_listener l' (bus s)) = calls (bus s)).
    { unfold add_listener. by case_decide. }
    unfold hears. simpl. split; [by apply add_listener_NoDup|].
    rewrite Hc, Hmem. destruct (decide (l' = l)) as [->|Hne]; simpl.
    + split; [|done]. split; [by left|done].
    + split; [|done]. rewrite Hsub. split; [by right|].
      intros [->|H']; [by destruct Hne|done].
  - unfold hears. simpl. split; [by apply NoDup_filter|].
    rewrite list_elem_of_filter.
    destruct (decide (l' = l)) as [->|Hne]; simpl.
    + split; [|done]. split; [discriminate|]. by intros [Hn _].
    + split; [|done]. rewrite Hsub. split.
      * intros Hin. split; [by apply not_eq_sym|done].
      * by intros [_ Hin].
Qed.

Lemma run_hears l ops (s : State) acc :
  hears l s acc -> hears l (run ops s) (fold_left (hearing l) ops acc).
Proof.
  revert s acc. induction ops as [|op ops IH]; intros s acc H; simpl; [done|].
  apply IH. by apply step_hears.
Qed.
End LoggerFacts.

(** X19.  The logger keeps the last 1000 entries: after any sequence of
    calls ([log] and its four shorthands, [clearLogs], [subscribe] and its
    disposer) on a new logger, [getLogs()] is the entries written since the
    last [clearLogs()], oldest first, cut down to the final 1000, and so
    never holds more than 1000. *)
Theorem logger_keeps_last_entries :
  ∀ (behaviour : Listener -> Logger.LogEntry -> option Err) (ops : list Logger.Op),
    let s := Logger.run behaviour ops Logger.init in
    let all := fold_left Logger.written ops [] in
    Logger.getLogs s = drop (length all - 1000) all ∧
    (length (Logger.getLogs s) <= 1000)%nat.
Proof.
  intros behaviour ops s all.
  assert (H : Logger.logs s = Logger.slice_last Logger.maxLogs all).
  { unfold s, all. by apply run_logs. }
  split; [exact H|].
  unfold Logger.getLogs. rewrite H. unfold Logger.slice_last, Logger.maxLogs.
  rewrite length_drop. lia.
Qed.

(** X20.  A logger listener is told, once each and in order, exactly the
    entries written while it was subscribed: [subscribe] does not replay
    anything, an entry reaches every current listener, and after the
    disposer has run nothing more arrives. *)
Theorem logger_listener_hears_its_window :
  ∀ (behaviour : Listener -> Logger.LogEntry -> option Err) (l : Listener)
    (ops : list Logger.Op),
    let s := Logger.run behaviour ops Logger.init in
    let heard := (fold_left (Logger.hearing l) ops (false, [])).2 in
    let subscribed := (fold_left (Logger.hearing l) ops (false, [])).1 in
    filter (λ c : Listener * Logger.LogEntry, c.1 = l) (calls (Logger.bus s))
      = map (λ e, (l, e)) heard ∧
    (subscribed = true ↔ l ∈ listeners (Logger.bus s)).
Proof.
  intros behaviour l ops s heard subscribed.
  assert (H0 : Logger.hears l Logger.init (false, [])).
  { split; [apply NoDup_nil_2|]. split; [|done]. split; [discriminate|].
    intros Hin. by apply elem_of_nil in Hin. }
  destruct (run_hears behaviour l ops Logger.init (false, []) H0) as (_ & Hsub & Hcalls).
  split; [exact Hcalls | exact Hsub].
Qed.

(** ** Developer-mode store: requests and toggles *)

Section DeveloperModeFacts.
Variable behaviour : Listener -> bool -> option Err.

Import DeveloperMode.

Local Abbreviation run := (DeveloperMode.run behaviour).
Local Abbreviation step := (DeveloperMode.step behaviour).

Lemma dev_set_fields v (s : DeveloperModeStore.Store) :
  DeveloperModeStore.cache (DeveloperModeStore.set behaviour v s) = Some v ∧
  DeveloperModeStore.inflight (DeveloperModeStore.set behaviour v s)
    = DeveloperModeStore.inflight s.
Proof. done. Qed.

Lemma dev_subscribe_fields l (s : DeveloperModeStore.Store) :
  DeveloperModeStore.cache (DeveloperModeStore.subscribe behaviour l s).2
    = DeveloperModeStore.cache s ∧
  DeveloperModeStore.inflight (DeveloperModeStore.subscribe behaviour l s).2
    = DeveloperModeStore.inflight s.
Proof.
  unfold DeveloperModeStore.subscribe.
  by destruct (subscribe_bus _ _ _ _) as [r b].
Qed.

Lemma settled_one_request p (o : Outcome) (w : World) s' :
  one_request w ->
  requests w !! p = Some None ->
  DeveloperModeStore.inflight s' = None ->
  one_request (mkWorld s' (<[p := Some o]> (requests w)) (toggles w)).
Proof.
  intros Hinv Hp Hs' q. simpl. rewrite Hs'. split; [|done].
  intros Hq. destruct (decide (p = q)) as [->|Hne].
  - rewrite list_lookup_insert_eq in Hq by (by eapply lookup_lt_Some). discriminate.
  - rewrite list_lookup_insert_ne in Hq by done.
    apply Hinv in Hq. apply Hinv in Hp. congruence.
Qed.

Lemma ensure_one_request (w : World) :
  one_request w -> one_request (ensure w).2.
Proof.
  intros Hinv. unfold ensure.
  destruct (DeveloperModeStore.cache (store w)) as [v|] eqn:Ec; [done|].
  destruct (DeveloperModeStore.inflight (store w)) as [p|] eqn:Ei; [done|].
  intros q. simpl. split.
  - intros Hq. destruct (decide (q < length (requests w))%nat) as [Hlt|Hge].
    + rewrite lookup_app_l in Hq by done. apply Hinv in Hq. congruence.
    + assert (Hlen : (q < length (requests w ++ [None]))%nat)
        by (by eapply lookup_lt_Some).
      rewrite length_app in Hlen. simpl in Hlen. f_equal. lia.
  - intros [= <-]. rewrite lookup_app_r by lia.
    by replace (length (requests w) - length (requests w))%nat with 0%nat by lia.
Qed.

Lemma step_one_request op (w : World) :
  one_request w -> one_request (step op w).
Proof.
  intros Hinv. destruct op as [| |v| |i|i|l|d|p v|p e]; simpl.
  - by apply ensure_one_request.
  - unfold refresh. apply ensure_one_request. exact Hinv.
  - exact Hinv.
  - exact Hinv.
  - unfold toggle_saved. destruct (toggles w !! i) as [[nv [|]]|]; try done.
  - unfold toggle_failed. destruct (toggles w !! i) as [[nv [|]]|]; try done.
  - intros q. simpl. rewrite (proj2 (dev_subscribe_fields l (store w))). apply Hinv.
  - exact Hinv.
  - unfold resolve. destruct (requests w !! p) as [[o|]|] eqn:Ep; try done.
    simpl. by apply settled_one_request.
  - unfold reject. destruct (requests w !! p) as [[o|]|] eqn:Ep; try done.
    simpl. by apply settled_one_request.
Qed.

Lemma run_one_request ops (w : World) :
  one_request w -> one_request (run ops w).
Proof.
  revert w. induction ops as [|op ops IH]; intros w Hinv; simpl; [done|].
  apply IH. by apply step_one_request.
Qed.

Lemma init_one_request : one_request init.
Proof. intros p. simpl. rewrite lookup_nil. split; discriminate. Qed.
End DeveloperModeFacts.

(** X21.  The developer-mode store never has two settings requests
    outstanding: after any sequence of calls and settlements on a new
    store, a request is unsettled exactly when [inflight] names it, so two
    unsettled requests are the same one. *)
Theorem developer_mode_single_request :
  ∀ (behaviour : Listener -> bool -> option Err) (ops : list DeveloperMode.Op),
    let w := DeveloperMode.run behaviour ops DeveloperMode.init in
    (∀ p, DeveloperMode.requests w !! p = Some None
          ↔ DeveloperModeStore.inflight (DeveloperMode.store w) = Some p) ∧
    (∀ p q, DeveloperMode.requests w !! p = Some None ->
            DeveloperMode.requests w !! q = Some None -> p = q).
Proof.
  intros behaviour ops w.
  assert (Hinv : DeveloperMode.one_request w).
  { apply run_one_request, init_one_request. }
  split; [exact Hinv|].
  intros p q Hp Hq. apply Hinv in Hp. apply Hinv in Hq. congruence.
Qed.

(** X22.  [refresh()] of the developer-mode store drops the cached value
    before it fetches: it always returns a pending request, and when that
    request fails the store is left empty (snapshot [null], nothing in
    flight) with no subscriber told, whatever was cached before; the next
    [ensure()] then issues a new request. *)
Theorem developer_mode_failed_refresh_empties :
  ∀ (behaviour : Listener -> bool -> option Err) (ops : list DeveloperMode.Op) (e : Err),
    let w := DeveloperMode.run behaviour ops DeveloperMode.init in
    ∃ p w2,
      (DeveloperMode.refresh w).1 = DeveloperMode.Pending p ∧
      DeveloperMode.reject p e (DeveloperMode.refresh w).2 = Some w2 ∧
      DeveloperModeStore.getSnapshot (DeveloperMode.store w2) = None ∧
      DeveloperModeStore.inflight (DeveloperMode.store w2) = None ∧
      calls (DeveloperModeStore.bus (DeveloperMode.store w2))
        = calls (DeveloperModeStore.bus (DeveloperMode.store w)) ∧
      (DeveloperMode.ensure w2).1 = DeveloperMode.Pending (length (DeveloperMode.requests w2)).
Proof.
  intros behaviour ops e w.
  assert (Hinv : DeveloperMode.one_request w).
  { apply run_one_request, init_one_request. }
  unfold DeveloperMode.refresh, DeveloperMode.ensure. simpl.
  destruct (DeveloperModeStore.inflight (DeveloperMode.store w)) as [p|] eqn:Ei.
  - assert (Hp : DeveloperMode.requests w !! p = Some None) by (by apply Hinv).
    exists p. eexists. split; [done|]. unfold DeveloperMode.reject. simpl.
    rewrite Hp. split; [done|]. simpl. done.
  - exists (length (DeveloperMode.requests w)). eexists. split; [done|].
    unfold DeveloperMode.reject. simpl.
    rewrite lookup_app_r by lia.
    replace (length (DeveloperMode.requests w) - length (DeveloperMode.requests w))%nat
      with 0%nat by lia.
    simpl. split; [done|]. simpl. done.
Qed.

(** X23.  [toggle()] computes the new value from the cache when it is
    called, not when the setting has been saved.  Two toggles that overlap
    (both called before either save completes) therefore write the same
    value, and the flag ends up flipped once; two toggles run one after
    the other flip it twice. *)
Theorem developer_mode_toggle_overlap :
  ∀ (behaviour : Listener -> bool -> option Err) (w : DeveloperMode.World),
    let before := default false (DeveloperModeStore.cache (DeveloperMode.store w)) in
    let w1 := (DeveloperMode.toggle w).2 in
    let i := (DeveloperMode.toggle w).1 in
    (∃ w3 w4,
        DeveloperMode.toggle_saved behaviour i (DeveloperMode.toggle w1).2 = Some w3 ∧
        DeveloperMode.toggle_saved behaviour (DeveloperMode.toggle w1).1 w3 = Some w4 ∧
        DeveloperModeStore.cache (DeveloperMode.store w4) = Some (negb before)) ∧
    (∃ w2 w4,
        DeveloperMode.toggle_saved behaviour i w1 = Some w2 ∧
        DeveloperMode.toggle_saved behaviour (DeveloperMode.toggle w2).1
          (DeveloperMode.toggle w2).2 = Some w4 ∧
        DeveloperModeStore.cache (DeveloperMode.store w4) = Some before).
Proof.
  intros behaviour w before w1 i.
  assert (Hlast : ∀ (l : list (bool * bool)) x, (l ++ [x]) !! length l = Some x).
  { intros l x. rewrite lookup_app_r by lia.
    by replace (length l - length l)%nat with 0%nat by lia. }
  split.
  - unfold DeveloperMode.toggle_saved, w1, i, DeveloperMode.toggle. simpl.
    rewrite lookup_app_l by (rewrite length_app; simpl; lia).
    rewrite Hlast. eexists. eexists. split; [done|]. simpl.
    rewrite list_lookup_insert_ne by (rewrite length_app; simpl; lia).
    rewrite Hlast. split; [done|]. simpl. done.
  - unfold DeveloperMode.toggle_saved, w1, i, DeveloperMode.toggle. simpl.
    rewrite Hlast. eexists. eexists. split; [done|]. simpl.
    rewrite Hlast. split; [done|]. simpl.
    unfold before. by rewrite negb_involutive.
Qed.

(** ** The user store and the account scope *)

Section UserWorldFacts.
Context {User Friend : Type}.
Variable user_id : User -> string.
Variable on_user : Listener -> option User -> option Err.
Variable on_friends : Listener -> option (list Friend) -> option Err.

Import UserWorld.

Local Abbreviation truthy := (@UserWorld.truthy User).
Local Abbreviation World := (@UserWorld.World User Friend).
Local Abbreviation setActiveAccountId := (UserWorld.setActiveAccountId on_user on_friends).
Local Abbreviation set_target := (UserWorld.set_target user_id).
Local Abbreviation uset := (UserWorld.set user_id on_user on_friends).
Local Abbreviation user_loaded := (UserWorld.user_loaded user_id on_user on_friends).
Local Abbreviation step := (UserWorld.step user_id on_user on_friends).
Local Abbreviation run := (UserWorld.run user_id on_user on_friends).

Lemma modify_cache scopeId scopeId' f (s : @ResourceStore.Store User) :
  (∀ st, ResourceStore.cache (f st) = ResourceStore.cache st) ->
  ResourceStore.cache (ResourceStore.entry (ResourceStore.modify scopeId f s) scopeId')
  = ResourceStore.cache (ResourceStore.entry s scopeId').
Proof.
  intros Hf. rewrite modify_entry. case_decide as Hk; [|done].
  unfold ResourceStore.entry. rewrite Hk.
  destruct (ResourceStore.states s !! scopeKey scopeId); simpl; [apply Hf|done].
Qed.

Lemma modify_stamp scopeId scopeId' f (s : @ResourceStore.Store User) :
  (∀ st, ResourceStore.updatedAt (f st) = ResourceStore.updatedAt st) ->
  ResourceStore.updatedAt (ResourceStore.entry (ResourceStore.modify scopeId f s) scopeId')
  = ResourceStore.updatedAt (ResourceStore.entry s scopeId').
Proof.
  intros Hf. rewrite modify_entry. case_decide as Hk; [|done].
  unfold ResourceStore.entry. rewrite Hk.
  destruct (ResourceStore.states s !! scopeKey scopeId); simpl; [apply Hf|done].
Qed.

Lemma onActiveAccount_active accountId (s : @ResourceStore.Store User) :
  ResourceStore.activeAccountId (ResourceStore.onActiveAccount on_user accountId s)
  = accountId.
Proof.
  unfold ResourceStore.onActiveAccount.
  set (s1 := ResourceStore.mkStore _ _ _ _ _).
  destruct (getSnapshot_frame None s1 None) as (_ & Ha & _).
  destruct (ResourceStore.getSnapshot None s1) as [snap s2]. simpl in *. exact Ha.
Qed.

Lemma markStale_active scopeArg (s : @ResourceStore.Store User) :
  ResourceStore.activeAccountId (ResourceStore.markStale truthy scopeArg s)
  = ResourceStore.activeAccountId s.
Proof.
  unfold ResourceStore.markStale.
  set (scopeId := nullish _ _).
  destruct (getState_frame scopeId s) as (_ & Ha & _).
  destruct (ResourceStore.getState scopeId s) as [st s1]. simpl in *.
  by destruct (ResourceStore.is_truthy truthy (ResourceStore.cache st)).
Qed.

Lemma ensure_active options now (s : @ResourceStore.Store User) :
  ResourceStore.activeAccountId (ResourceStore.ensure truthy options now s).2
  = ResourceStore.activeAccountId s.
Proof.
  unfold ResourceStore.ensure.
  set (target := if hasOwnScope _ then _ else _).
  destruct (getState_frame target s) as (_ & Ha & _).
  destruct (ResourceStore.getState target s) as [st s1]. simpl in *.
  destruct (ResourceStore.served _ _ _ _ _); [done|].
  by destruct (ResourceStore.inflight st).
Qed.

Lemma subscribe_active l (s : @ResourceStore.Store User) :
  ResourceStore.activeAccountId (ResourceStore.subscribe on_user l s).2
  = ResourceStore.activeAccountId s.
Proof. by destruct (subscribe_same_cache on_user l s) as (_ & Ha & _). Qed.

Lemma reject_load_active p e (s s' : @ResourceStore.Store User) :
  ResourceStore.reject_load p e s = Some s' ->
  ResourceStore.activeAccountId s' = ResourceStore.activeAccountId s.
Proof.
  unfold ResourceStore.reject_load.
  destruct (ResourceStore.loads s !! p) as [[sc [o|]]|]; try discriminate.
  intros [= <-].
  by destruct (settle_frame p (ResourceStore.Rejected e)
    (ResourceStore.modify sc
       (λ st, ResourceStore.mkState (ResourceStore.cache st) None
                                    (ResourceStore.updatedAt st)) s) None) as (_ & -> & _).
Qed.

Lemma setFriends_scope value options now (fr : @UserStore.Friends Friend) :
  UserStore.currentScopeId (UserStore.setFriends on_friends value options now fr)
  = UserStore.currentScopeId fr.
Proof.
  unfold UserStore.setFriends.
  set (scopeId := nullish _ _).
  destruct (getOrCreate_frame scopeId fr) as (Hc & _).
  destruct (UserStore.getOrCreateFriendsState scopeId fr) as [st s1]. simpl in *.
  by case_decide.
Qed.

Lemma clearFriends_scope scopeArg (fr : @UserStore.Friends Friend) :
  UserStore.currentScopeId (UserStore.clearFriends on_friends scopeArg fr)
  = UserStore.currentScopeId fr.
Proof. unfold UserStore.clearFriends. by case_decide. Qed.

Lemma markFriendsStale_scope scopeArg (fr : @UserStore.Friends Friend) :
  UserStore.currentScopeId (UserStore.markFriendsStale scopeArg fr)
  = UserStore.currentScopeId fr.
Proof.
  unfold UserStore.markFriendsStale.
  by destruct (UserStore.friendStates fr !! _) as [[[c|] i t]|].
Qed.

Lemma ensureFriends_scope options now (fr : @UserStore.Friends Friend) :
  UserStore.currentScopeId (UserStore.ensureFriends options now fr).2
  = UserStore.currentScopeId fr.
Proof.
  unfold UserStore.ensureFriends.
  set (target := if hasOwnScope _ then _ else _).
  destruct (getOrCreate_frame target fr) as (Hc & _).
  destruct (UserStore.getOrCreateFriendsState target fr) as [st s1]. simpl in *.
  destruct (UserStore.served _ _ _); [done|].
  by destruct (UserStore.inflight st).
Qed.

Lemma subscribeFriends_scope l (fr : @UserStore.Friends Friend) :
  UserStore.currentScopeId (UserStore.subscribeFriends on_friends l fr).2
  = UserStore.currentScopeId fr.
Proof.
  unfold UserStore.subscribeFriends.
  by destruct (subscribe_bus _ _ _ _) as [r b].
Qed.

Lemma settle_fetch_scope p o (fr : @UserStore.Friends Friend) :
  UserStore.currentScopeId (UserStore.settle p o fr) = UserStore.currentScopeId fr.
Proof. unfold UserStore.settle. by destruct (UserStore.fetches fr !! p). Qed.

Lemma resolve_fetch_scope p v now (fr : @UserStore.Friends Friend) :
  UserStore.currentScopeId
    (default fr (UserStore.resolve_fetch on_friends p v now fr))
  = UserStore.currentScopeId fr.
Proof.
  unfold UserStore.resolve_fetch.
  destruct (UserStore.fetches fr !! p) as [[sc [o|]]|]; try done.
  simpl. rewrite settle_fetch_scope. simpl. apply setFriends_scope.
Qed.

Lemma reject_fetch_scope p e (fr : @UserStore.Friends Friend) :
  UserStore.currentScopeId (default fr (UserStore.reject_fetch p e fr))
  = UserStore.currentScopeId fr.
Proof.
  unfold UserStore.reject_fetch.
  destruct (UserStore.fetches fr !! p) as [[sc [o|]]|]; try done.
  simpl. by rewrite settle_fetch_scope.
Qed.

Lemma setActiveAccountId_sync accountId (w : World) :
  in_sync w ->
  in_sync (setActiveAccountId accountId w) ∧
  currentAccountId (setActiveAccountId accountId w) = accountId.
Proof.
  intros [Hu Hf]. unfold UserWorld.setActiveAccountId.
  case_decide as Hd; [by split|].
  split; [|done]. split; simpl; [apply onActiveAccount_active|done].
Qed.

(** Under the invariant the call of [setActiveAccountId] in [set] finds
    the account already active: [set] is the inherited [set] on the scope
    it computed. *)
Lemma set_is_inherited value options now (w : World) :
  in_sync w ->
  uset value options now w =
  with_user
    (ResourceStore.set truthy on_user value
       (ResourceStore.mkSetOptions (ResourceStore.stale options)
          (scope_arg (set_target value options w))) now (user w)) w.
Proof.
  intros [Hu Hf]. unfold UserWorld.set, UserWorld.set_target, ResourceStore.getCurrentScopeId.
  set (scopeId := match ResourceStore.set_scopeId options with
                  | ScopeNull => _ | _ => _ end).
  destruct (_ && _ && bool_decide (scopeId = _)) eqn:Ec; [|done].
  apply andb_true_iff in Ec. destruct Ec as [_ Ec]. apply bool_decide_eq_true in Ec.
  unfold UserWorld.setActiveAccountId.
  rewrite decide_True; [done|]. by rewrite Ec, Hu.
Qed.

Lemma set_sync value options now (w : World) :
  in_sync w -> in_sync (uset value options now w).
Proof.
  intros Hs. rewrite set_is_inherited by done. destruct Hs as [Hu Hf].
  split; simpl; [|done]. by rewrite (proj1 (set_frame _ _ _ _ _ _)).
Qed.

Lemma user_loaded_sync p u now (w w' : World) :
  in_sync w -> user_loaded p u now w = Some w' -> in_sync w'.
Proof.
  intros Hs. unfold UserWorld.user_loaded.
  destruct (ResourceStore.loads (user w) !! p) as [[sc [o|]]|]; try discriminate.
  set (w1 := if decide (sc = Some (user_id u)) then w else _).
  assert (Hs1 : in_sync w1).
  { unfold w1. case_decide; [done|]. by apply setActiveAccountId_sync. }
  pose proof (set_sync (Some u) (ResourceStore.mkSetOptions None (scope_arg sc)) now w1 Hs1)
    as [Hu Hf].
  intros [= <-]. split; simpl; [|done].
  by rewrite (proj1 (proj2 (settle_frame _ _ _ None))).
Qed.

Lemma step_sync op (w : World) : in_sync w -> in_sync (step op w).
Proof.
  intros Hs. pose proof Hs as [Hu Hf].
  destruct op; simpl.
  - by apply setActiveAccountId_sync.
  - by apply set_sync.
  - by apply set_sync.
  - split; simpl; [by rewrite markStale_active|done].
  - split; simpl; [by rewrite ensure_active|done].
  - split; simpl; [by rewrite subscribe_active|done].
  - done.
  - destruct (UserWorld.user_loaded _ _ _ p u now w) as [w'|] eqn:E; simpl; [|done].
    by eapply user_loaded_sync.
  - unfold UserWorld.user_load_failed.
    destruct (ResourceStore.reject_load p e (user w)) as [us|] eqn:E; simpl; [|done].
    split; simpl; [|done]. by rewrite (reject_load_active _ _ _ _ E).
  - split; simpl; [done|by rewrite setFriends_scope].
  - split; simpl; [done|by rewrite clearFriends_scope].
  - split; simpl; [done|by rewrite markFriendsStale_scope].
  - split; simpl; [done|by rewrite ensureFriends_scope].
  - split; simpl; [done|by rewrite subscribeFriends_scope].
  - split; simpl; [done|by rewrite resolve_fetch_scope].
  - split; simpl; [done|by rewrite reject_fetch_scope].
Qed.

Lemma run_sync ops (w : World) : in_sync w -> in_sync (run ops w).
Proof.
  revert w. induction ops as [|op ops IH]; intros w Hs; simpl; [done|].
  apply IH. by apply step_sync.
Qed.

Lemma create_sync stale_time accountId :
  in_sync (UserWorld.create on_user on_friends stale_time accountId).
Proof.
  split; simpl; [|done]. unfold ResourceStore.create. apply onActiveAccount_active.
Qed.
End UserWorldFacts.

Section UserWorldExtras.
Context {User Friend : Type}.
Variable user_id : User -> string.
Variable on_user : Listener -> option User -> option Err.
Variable on_friends : Listener -> option (list Friend) -> option Err.

Import UserWorld.

Local Abbreviation truthy := (@UserWorld.truthy User).
Local Abbreviation World := (@UserWorld.World User Friend).
Local Abbreviation setActiveAccountId := (UserWorld.setActiveAccountId on_user on_friends).
Local Abbreviation set_target := (UserWorld.set_target user_id).
Local Abbreviation uset := (UserWorld.set user_id on_user on_friends).
Local Abbreviation user_loaded := (UserWorld.user_loaded user_id on_user on_friends).

Lemma onActiveAccount_same accountId (s : @ResourceStore.Store User) :
  ResourceStore.loads (ResourceStore.onActiveAccount on_user accountId s)
    = ResourceStore.loads s ∧
  ∀ scopeId,
    ResourceStore.entry (ResourceStore.onActiveAccount on_user accountId s) scopeId
    = ResourceStore.entry s scopeId.
Proof.
  unfold ResourceStore.onActiveAccount.
  set (s1 := ResourceStore.mkStore _ _ _ _ _).
  destruct (getSnapshot_same_cache None s1) as (Hl & _ & _ & He).
  destruct (ResourceStore.getSnapshot None s1) as [snap s2]. simpl in *.
  split; [exact Hl|]. intros sc.
  transitivity (ResourceStore.entry s2 sc); [done|]. by rewrite He.
Qed.

Lemma setActiveAccountId_same accountId (w : World) :
  ResourceStore.loads (user (setActiveAccountId accountId w))
    = ResourceStore.loads (user w) ∧
  ∀ scopeId,
    ResourceStore.entry (user (setActiveAccountId accountId w)) scopeId
    = ResourceStore.entry (user w) scopeId.
Proof.
  unfold UserWorld.setActiveAccountId. case_decide; [done|]. simpl.
  apply onActiveAccount_same.
Qed.

(** What [user_loaded] leaves, in terms of the world after the rest of
    [load] has run. *)
Lemma user_loaded_spec p sc u now (w : World) :
  in_sync w ->
  ResourceStore.loads (user w) !! p = Some (ResourceStore.mkLoad sc None) ->
  let w1 := if decide (sc = Some (user_id u)) then w
            else setActiveAccountId (Some (user_id u)) w in
  let written :=
    ResourceStore.set truthy on_user (Some u)
      (ResourceStore.mkSetOptions None (scope_arg sc)) now (user w1) in
  ∃ w', user_loaded p u now w = Some w' ∧
    currentAccountId w' = currentAccountId w1 ∧
    ResourceStore.activeAccountId (user w') = currentAccountId w1 ∧
    ResourceStore.bus (user w') = ResourceStore.bus written ∧
    (∀ scopeId, ResourceStore.cache (ResourceStore.entry (user w') scopeId)
                = ResourceStore.cache (ResourceStore.entry written scopeId)) ∧
    (∀ scopeId, ResourceStore.updatedAt (ResourceStore.entry (user w') scopeId)
                = ResourceStore.updatedAt (ResourceStore.entry written scopeId)) ∧
    ResourceStore.inflight (ResourceStore.entry (user w') sc) = None ∧
    ResourceStore.outcome_of (user w') (ResourceStore.Pending p)
      = Some (ResourceStore.Resolved u).
Proof.
  intros Hs Hp w1 written.
  assert (Hs1 : in_sync w1).
  { unfold w1. case_decide; [done|]. by apply setActiveAccountId_sync. }
  assert (Hl1 : ResourceStore.loads (user w1) = ResourceStore.loads (user w)).
  { unfold w1. case_decide; [done|]. apply setActiveAccountId_same. }
  unfold UserWorld.user_loaded. rewrite Hp. fold w1.
  rewrite (set_is_inherited user_id on_user on_friends _ _ _ _ Hs1).
  assert (Ht : UserWorld.set_target user_id (Some u)
                 (ResourceStore.mkSetOptions None (scope_arg sc)) w1 = sc).
  { unfold UserWorld.set_target. simpl. by destruct sc. }
  rewrite Ht. simpl. fold written.
  set (f := λ st : ResourceStore.StoreState,
         ResourceStore.mkState (ResourceStore.cache st) None (ResourceStore.updatedAt st)).
  eexists. split; [done|]. simpl.
  destruct Hs1 as [Hu1 Hf1].
  destruct (set_frame truthy on_user (Some u)
              (ResourceStore.mkSetOptions None (scope_arg sc)) now (user w1))
    as (Ha & _ & Hl).
  fold written in Ha, Hl.
  split; [done|].
  split. { rewrite (proj1 (proj2 (settle_frame _ _ _ None))). simpl. by rewrite Ha. }
  split. { by rewrite (proj1 (settle_frame _ _ _ None)). }
  split. { intros sc'. rewrite (proj2 (proj2 (proj2 (settle_frame _ _ _ sc')))).
           by apply modify_cache. }
  split. { intros sc'. rewrite (proj2 (proj2 (proj2 (settle_frame _ _ _ sc')))).
           by apply modify_stamp. }
  split.
  { rewrite (proj2 (proj2 (proj2 (settle_frame _ _ _ sc)))).
    rewrite modify_entry. rewrite decide_True by done.
    unfold ResourceStore.entry.
    by destruct (ResourceStore.states written !! scopeKey sc). }
  eapply settle_outcome. simpl. rewrite Hl, Hl1. exact Hp.
Qed.
End UserWorldExtras.

(** X24.  The user store follows the account scope: after any sequence of
    calls, account switches and settlements on a new user store, the
    store's own copy of the active account id and the scope the friends
    code reads are the id held by the account scope. *)
Theorem user_store_follows_account_scope :
  ∀ {User Friend : Type} (user_id : User -> string)
    (on_user : Listener -> option User -> option Err)
    (on_friends : Listener -> option (list Friend) -> option Err)
    (ops : list (@UserWorld.Op User Friend)) (stale_time : option Z) (accountId : ScopeId),
    let w :=
      UserWorld.run user_id on_user on_friends ops
        (UserWorld.create on_user on_friends stale_time accountId) in
    ResourceStore.activeAccountId (UserWorld.user w) = UserWorld.currentAccountId w ∧
    UserStore.currentScopeId (UserWorld.friends w) = UserWorld.currentAccountId w.
Proof.
  intros User Friend user_id on_user on_friends ops stale_time accountId w.
  apply run_sync, create_sync.
Qed.

(** X25.  [UserStore.set] never switches the active account, although it
    calls [setActiveAccountId]: on every reachable state the call finds
    the id already active, so [set] is the inherited [set] applied to the
    scope it computed ([options.scopeId] when defined, else the id of the
    user written, else the active account), and the friends cache is
    untouched. *)
Theorem user_set_never_switches_account :
  ∀ {User Friend : Type} (user_id : User -> string)
    (on_user : Listener -> option User -> option Err)
    (on_friends : Listener -> option (list Friend) -> option Err)
    (ops : list (@UserWorld.Op User Friend)) (stale_time : option Z) (accountId : ScopeId)
    (value : option User) (options : ResourceStore.SetOptions) (now : Z),
    let w :=
      UserWorld.run user_id on_user on_friends ops
        (UserWorld.create on_user on_friends stale_time accountId) in
    let w' := UserWorld.set user_id on_user on_friends value options now w in
    UserWorld.currentAccountId w' = UserWorld.currentAccountId w ∧
    UserWorld.friends w' = UserWorld.friends w ∧
    UserWorld.user w' =
      ResourceStore.set UserWorld.truthy on_user value
        (ResourceStore.mkSetOptions (ResourceStore.stale options)
           (scope_arg (UserWorld.set_target user_id value options w)))
        now (UserWorld.user w).
Proof.
  intros User Friend user_id on_user on_friends ops stale_time accountId value options now
    w w'.
  assert (Hs : UserWorld.in_sync w) by apply run_sync, create_sync.
  unfold w'. by rewrite (set_is_inherited user_id on_user on_friends _ _ _ _ Hs).
Qed.

(** X26.  [set(user)] without a [scopeId] option, for a user who is not
    the active account, caches the record under [user.id] and is silent:
    no subscriber is called, the account stays, and every partition with
    another key is unchanged. *)
Theorem user_set_other_account_is_silent :
  ∀ {User Friend : Type} (user_id : User -> string)
    (on_user : Listener -> option User -> option Err)
    (on_friends : Listener -> option (list Friend) -> option Err)
    (w : @UserWorld.World User Friend) (u : User) (st : option bool) (now : Z),
    UserWorld.in_sync w ->
    Some (user_id u) ≠ UserWorld.currentAccountId w ->
    let w' :=
      UserWorld.set user_id on_user on_friends (Some u)
        (ResourceStore.mkSetOptions st ScopeAbsent) now w in
    UserWorld.currentAccountId w' = UserWorld.currentAccountId w ∧
    ResourceStore.bus (UserWorld.user w') = ResourceStore.bus (UserWorld.user w) ∧
    ResourceStore.cache (ResourceStore.entry (UserWorld.user w') (Some (user_id u)))
      = Some u ∧
    ∀ scopeId, scopeKey scopeId ≠ user_id u ->
      ResourceStore.entry (UserWorld.user w') scopeId
      = ResourceStore.entry (UserWorld.user w) scopeId.
Proof.
  intros User Friend user_id on_user on_friends w u st now Hs Hne w'.
  unfold w'. rewrite (set_is_inherited user_id on_user on_friends _ _ _ _ Hs).
  destruct Hs as [Hu Hf]. simpl.
  split; [done|]. split.
  - rewrite set_bus. simpl. rewrite decide_False; [done|]. by rewrite Hu.
  - split.
    + by rewrite set_entry_written.
    + intros sc Hk. by rewrite set_entry_other.
Qed.

(** X27.  Logging in through the store: when [ensure()] was called with
    no active account and [getCurrentUser()] answers [u], the account
    scope switches to [u.id], the record is cached under [u.id] with the
    time of arrival, every subscriber is told [u] last, the snapshot of
    the active account is [u], the slot of the null scope is free again
    and the caller's promise fulfils with [u]. *)
Theorem login_fetch_activates_user :
  ∀ {User Friend : Type} (user_id : User -> string)
    (on_user : Listener -> option User -> option Err)
    (on_friends : Listener -> option (list Friend) -> option Err)
    (w : @UserWorld.World User Friend) (p : PromiseId) (u : User) (now : Z),
    UserWorld.in_sync w ->
    ResourceStore.loads (UserWorld.user w) !! p = Some (ResourceStore.mkLoad None None) ->
    ∃ w',
      UserWorld.user_loaded user_id on_user on_friends p u now w = Some w' ∧
      UserWorld.currentAccountId w' = Some (user_id u) ∧
      (ResourceStore.getSnapshot None (UserWorld.user w')).1 = Some u ∧
      ResourceStore.updatedAt (ResourceStore.entry (UserWorld.user w') (Some (user_id u)))
        = now ∧
      (∃ earlier,
          calls (ResourceStore.bus (UserWorld.user w'))
          = earlier ++ map (λ l, (l, Some u))
                           (listeners (ResourceStore.bus (UserWorld.user w')))) ∧
      ResourceStore.inflight (ResourceStore.entry (UserWorld.user w') None) = None ∧
      ResourceStore.outcome_of (UserWorld.user w') (ResourceStore.Pending p)
        = Some (ResourceStore.Resolved u).
Proof.
  intros User Friend user_id on_user on_friends w p u now Hs Hp.
  destruct (user_loaded_spec user_id on_user on_friends p None u now w Hs Hp)
    as (w' & Hw' & Hcur & Hact & Hbus & Hcache & Hstamp & Hslot & Hout).
  rewrite decide_False in Hcur, Hact, Hbus, Hcache, Hstamp by discriminate.
  destruct (setActiveAccountId_sync on_user on_friends (Some (user_id u)) w Hs)
    as [[Hu1 Hf1] Hc1].
  set (w1 := UserWorld.setActiveAccountId on_user on_friends (Some (user_id u)) w) in *.
  assert (Ha1 : ResourceStore.activeAccountId (UserWorld.user w1) = Some (user_id u))
    by (by rewrite Hu1).
  exists w'. split; [exact Hw'|].
  split; [by rewrite Hcur|].
  split.
  { rewrite getSnapshot_result, Hact, Hc1. simpl. rewrite Hcache.
    rewrite set_entry_written; [done|]. simpl. by rewrite Ha1. }
  split.
  { rewrite Hstamp. rewrite set_entry_written; [done|]. simpl. by rewrite Ha1. }
  split.
  { exists (calls (ResourceStore.bus (UserWorld.user w1))).
    rewrite Hbus, set_bus. simpl. rewrite decide_True by done.
    by rewrite notify_calls, notify_listeners. }
  split; [exact Hslot|exact Hout].
Qed.

(** X28.  A fetch made for account [a] that answers with another user
    [u]: the account scope switches to [u.id], but the [then] callback of
    [ensure] still writes to the scope the fetch was made for.  The record
    of [u] is cached under [a], and the snapshot of the now active account
    [u.id] is what its partition held before. *)
Theorem fetch_for_other_user_is_misfiled :
  ∀ {User Friend : Type} (user_id : User -> string)
    (on_user : Listener -> option User -> option Err)
    (on_friends : Listener -> option (list Friend) -> option Err)
    (w : @UserWorld.World User Friend) (p : PromiseId) (a : string) (u : User) (now : Z),
    UserWorld.in_sync w ->
    ResourceStore.loads (UserWorld.user w) !! p
      = Some (ResourceStore.mkLoad (Some a) None) ->
    a ≠ user_id u ->
    ∃ w',
      UserWorld.user_loaded user_id on_user on_friends p u now w = Some w' ∧
      UserWorld.currentAccountId w' = Some (user_id u) ∧
      ResourceStore.cache (ResourceStore.entry (UserWorld.user w') (Some a)) = Some u ∧
      (ResourceStore.getSnapshot None (UserWorld.user w')).1
        = ResourceStore.cache (ResourceStore.entry (UserWorld.user w) (Some (user_id u))).
Proof.
  intros User Friend user_id on_user on_friends w p a u now Hs Hp Hne.
  destruct (user_loaded_spec user_id on_user on_friends p (Some a) u now w Hs Hp)
    as (w' & Hw' & Hcur & Hact & Hbus & Hcache & Hstamp & Hslot & Hout).
  rewrite decide_False in Hcur, Hact, Hbus, Hcache, Hstamp by congruence.
  destruct (setActiveAccountId_sync on_user on_friends (Some (user_id u)) w Hs)
    as [[Hu1 Hf1] Hc1].
  destruct (setActiveAccountId_same on_user on_friends (Some (user_id u)) w) as [_ He1].
  set (w1 := UserWorld.setActiveAccountId on_user on_friends (Some (user_id u)) w) in *.
  exists w'. split; [exact Hw'|].
  split; [by rewrite Hcur|].
  split.
  { rewrite Hcache. by rewrite set_entry_written. }
  rewrite getSnapshot_result, Hact, Hc1. simpl. rewrite Hcache.
  rewrite set_entry_other by (simpl; congruence).
  by rewrite He1.
Qed.

Lemma login_world_in_sync : UserWorld.in_sync login_world.
Proof. split; vm_compute; reflexivity. Qed.

Lemma world_of_a_in_sync : UserWorld.in_sync world_of_a.
Proof. split; vm_compute; reflexivity. Qed.

(** X26, witness: while [usr_a] is active, [set] of the record of [usr_b]
    calls nobody and files the record under [usr_b]. *)
Lemma user_set_other_account_is_silent_witness :
  let w' :=
    UserWorld.set id quiet quiet (Some "usr_b")
      (ResourceStore.mkSetOptions None ScopeAbsent) 7 world_of_a in
  UserWorld.currentAccountId w' = Some "usr_a" ∧
  ResourceStore.bus (UserWorld.user w') = ResourceStore.bus (UserWorld.user world_of_a) ∧
  ResourceStore.cache (ResourceStore.entry (UserWorld.user w') (Some "usr_b"))
    = Some "usr_b".
Proof.
  destruct (user_set_other_account_is_silent id quiet quiet world_of_a "usr_b" None 7
              world_of_a_in_sync ltac:(vm_compute; discriminate))
    as (H1 & H2 & H3 & _).
  split; [exact H1|]. split; [exact H2|exact H3].
Defined.

(** X27, witness: the first [ensure()] of a new store, answered with the
    record of [usr_a]. *)
Lemma login_fetch_activates_user_witness :
  ∃ w',
    UserWorld.user_loaded id quiet quiet 0%nat "usr_a" 5 login_world = Some w' ∧
    UserWorld.currentAccountId w' = Some "usr_a" ∧
    (ResourceStore.getSnapshot None (UserWorld.user w')).1 = Some "usr_a".
Proof.
  destruct (login_fetch_activates_user id quiet quiet login_world 0%nat "usr_a" 5
              login_world_in_sync eq_refl)
    as (w' & H1 & H2 & H3 & _).
  exists w'. split; [exact H1|]. split; [exact H2|exact H3].
Defined.

(** X28, witness: the fetch made for [usr_a] answers with the record of
    [usr_b]; [usr_b] becomes active with an empty snapshot. *)
Lemma fetch_for_other_user_is_misfiled_witness :
  ∃ w',
    UserWorld.user_loaded id quiet quiet 0%nat "usr_b" 5 world_of_a = Some w' ∧
    UserWorld.currentAccountId w' = Some "usr_b" ∧
    ResourceStore.cache (ResourceStore.entry (UserWorld.user w') (Some "usr_a"))
      = Some "usr_b" ∧
    (ResourceStore.getSnapshot None (UserWorld.user w')).1 = None.
Proof.
  destruct (fetch_for_other_user_is_misfiled id quiet quiet world_of_a 0%nat "usr_a"
              "usr_b" 5 world_of_a_in_sync eq_refl ltac:(discriminate))
    as (w' & H1 & H2 & H3 & H4).
  exists w'. split; [exact H1|]. split; [exact H2|]. split; [exact H3|exact H4].
Defined.

(** ** Accounts store *)

Section AccountsFacts.
Context {Account : Type}.
Variable account_user_id : Account -> string.
Variable behaviour : Listener -> option (list Account) -> option Err.

Import AccountsStore.

Local Abbreviation Store := (@AccountsStore.Store Account).
Local Abbreviation step := (AccountsStore.step account_user_id behaviour).
Local Abbreviation run := (AccountsStore.run account_user_id behaviour).

Lemma accounts_set_requests value stale now (s : Store) :
  requests (set behaviour value stale now s) = requests s ∧
  inflight (set behaviour value stale now s) = inflight s.
Proof. done. Qed.

Lemma accounts_ensure_one_request force now (s : Store) :
  one_request s -> one_request (ensure force now s).2.
Proof.
  intros Hinv.
  assert (Hnew : inflight s = None ->
    one_request
      (mkStore (bus s) (cache s) (Some (length (requests s))) (updatedAt s)
               (staleTime s) (requests s ++ [None]))).
  { intros Hi q. simpl. split.
    - intros Hq. destruct (decide (q < length (requests s))%nat) as [Hlt|Hge].
      + rewrite lookup_app_l in Hq by done. apply Hinv in Hq. congruence.
      + assert (Hlen : (q < length (requests s ++ [None]))%nat)
          by (by eapply lookup_lt_Some).
        rewrite length_app in Hlen. simpl in Hlen. f_equal. lia.
    - intros [= <-]. rewrite lookup_app_r by lia.
      by replace (length (requests s) - length (requests s))%nat with 0%nat by lia. }
  unfold ensure.
  destruct (cache s) as [v|].
  - destruct (negb (default false force) && negb (isStale s now)); [done|].
    destruct (inflight s) as [p|] eqn:Ei; [done|]. by apply Hnew.
  - destruct (inflight s) as [p|] eqn:Ei; [done|]. by apply Hnew.
Qed.

Lemma accounts_settled_one_request p (o : Outcome) (s s' : Store) :
  one_request s ->
  requests s !! p = Some None ->
  inflight s' = None ->
  requests s' = <[p := Some o]> (requests s) ->
  one_request s'.
Proof.
  intros Hinv Hp Hi Hr q. rewrite Hi, Hr. split; [|done].
  intros Hq. destruct (decide (p = q)) as [->|Hne].
  - rewrite list_lookup_insert_eq in Hq by (by eapply lookup_lt_Some). discriminate.
  - rewrite list_lookup_insert_ne in Hq by done.
    apply Hinv in Hq. apply Hinv in Hp. congruence.
Qed.

Lemma accounts_step_one_request op (s : Store) :
  one_request s -> one_request (step op s).
Proof.
  intros Hinv. destruct op as [f now|v st now| |l|d|p v now|p e|uid now| |now]; simpl.
  - by apply accounts_ensure_one_request.
  - exact Hinv.
  - exact Hinv.
  - unfold subscribe. by destruct (subscribe_bus _ _ _ _) as [r b].
  - exact Hinv.
  - unfold resolve. destruct (requests s !! p) as [[o|]|] eqn:Ep; try done.
    simpl. by eapply (accounts_settled_one_request p (Resolved v) s).
  - unfold reject. destruct (requests s !! p) as [[o|]|] eqn:Ep; try done.
    simpl. by eapply (accounts_settled_one_request p (Rejected e) s).
  - unfold removeAccount_done. by destruct (cache s).
  - exact Hinv.
  - by apply accounts_ensure_one_request.
Qed.

Lemma accounts_run_one_request ops (s : Store) :
  one_request s -> one_request (run ops s).
Proof.
  revert s. induction ops as [|op ops IH]; intros s Hinv; simpl; [done|].
  apply IH. by apply accounts_step_one_request.
Qed.
End AccountsFacts.

(** X29.  [removeAccount(userId)], once the service call has succeeded on
    a store that holds a list: the snapshot is the cached list without
    the accounts of [userId], in the same order; every subscriber is told
    that list; and the list is stamped with the time of the removal, so
    [ensure()] serves it without a request for the whole staleness window
    that follows, however old the list was. *)
Theorem removeAccount_filters_and_restamps :
  ∀ {Account : Type} (account_user_id : Account -> string)
    (behaviour : Listener -> option (list Account) -> option Err)
    (s : @AccountsStore.Store Account) (accounts : list Account) (userId : string)
    (now : Z),
    AccountsStore.cache s = Some accounts ->
    let kept := filter (λ account, account_user_id account ≠ userId) accounts in
    let s' := AccountsStore.removeAccount_done account_user_id behaviour userId now s in
    AccountsStore.getSnapshot s' = Some kept ∧
    (∀ account, account ∈ kept -> account_user_id account ≠ userId ∧ account ∈ accounts) ∧
    calls (AccountsStore.bus s')
      = calls (AccountsStore.bus s)
        ++ map (λ l, (l, Some kept)) (listeners (AccountsStore.bus s)) ∧
    ∀ now', now' - now <= AccountsStore.staleTime s ->
      AccountsStore.ensure None now' s' = (AccountsStore.Value kept, s').
Proof.
  intros Account account_user_id behaviour s accounts userId now Hc kept s'.
  unfold s', AccountsStore.removeAccount_done. rewrite Hc. fold kept.
  split; [done|]. split.
  { intros a Ha. apply list_elem_of_filter in Ha. exact Ha. }
  split.
  { unfold AccountsStore.set, AccountsStore.emit. simpl. by rewrite notify_calls. }
  intros now' Hnow.
  unfold AccountsStore.ensure, AccountsStore.isStale. simpl.
  destruct (Z.gtb_spec (now' - now) (AccountsStore.staleTime s)) as [Hgt|_]; [lia|].
  done.
Qed.

(** X29, witness: the stale list [usr_a; usr_b] after the removal of
    [usr_a] at time 5000 is served at time 6000. *)
Lemma removeAccount_filters_and_restamps_witness :
  let s' := AccountsStore.removeAccount_done id quiet "usr_a" 5000 two_accounts in
  AccountsStore.getSnapshot s' = Some ["usr_b"] ∧
  AccountsStore.ensure None 6000 s' = (AccountsStore.Value ["usr_b"], s').
Proof.
  destruct (removeAccount_filters_and_restamps id quiet two_accounts ["usr_a"; "usr_b"]
              "usr_a" 5000 eq_refl) as (H1 & _ & _ & H4).
  split; [exact H1|]. apply H4. vm_compute. discriminate.
Defined.

(** X30.  The accounts store never has two [getAllAccounts()] requests
    outstanding: after any sequence of calls and completions on a new
    store, a request is unsettled exactly when [inflight] names it. *)
Theorem accounts_single_request :
  ∀ {Account : Type} (account_user_id : Account -> string)
    (behaviour : Listener -> option (list Account) -> option Err)
    (ops : list (@AccountsStore.Op Account)) (stale_time : option Z),
    let s :=
      AccountsStore.run account_user_id behaviour ops (AccountsStore.create stale_time) in
    (∀ p, AccountsStore.requests s !! p = Some None
          ↔ AccountsStore.inflight s = Some p) ∧
    (∀ p q, AccountsStore.requests s !! p = Some None ->
            AccountsStore.requests s !! q = Some None -> p = q).
Proof.
  intros Account account_user_id behaviour ops stale_time s.
  assert (Hinv : AccountsStore.one_request s).
  { apply accounts_run_one_request. intros p. simpl. rewrite lookup_nil.
    split; discriminate. }
  split; [exact Hinv|].
  intros p q Hp Hq. apply Hinv in Hp. apply Hinv in Hq. congruence.
Qed.
